(** * A mini compiler for arithmetic expressions

    Shallow embedding of [compiler.py]: the lexer ([Lexer]), the AST
    ([NumberNode], [BinOpNode]), the recursive-descent parser ([Parser]),
    the tree-walking evaluator ([Evaluator]), the dictionaries of [to_dict],
    [print_tree] and the three passes of [main], followed by the properties
    stated for them.

    Conventions of the embedding.
    - A Python [str] is a [list ascii]; every [ascii] stands for the code
      point of the same number (U+0000 to U+00FF).  [isspace] and [isdigit]
      are the host's predicates on that range.
    - A Python [int] is a [Z]; a Python [float] is an IEEE 754 binary64 value,
      a [spec_float] with precision 53 and maximal exponent 1024.
    - A method that mutates [self] takes the object and returns the updated
      one; a method that may raise returns an [outcome].
    - A [while] loop and a recursive procedure are a [Fixpoint] on a fuel
      argument; [OutOfFuel] is the answer of a run that was not given enough
      of it, and is never the answer of [tokenize] or [parse]
      ([tokenize_fuel], [parse_fuel_suffices]).
    - The host is CPython 3.11 with its defaults: [int] refuses a string
      of more than 4300 digits ([sys.int_max_str_digits]), [float] has no
      such limit.
    - The procedures of the embedding nest their calls without bound.  The
      host's call stack is bounded: there a run has the outcome of the
      embedding, or it raises [RecursionError] where the calls nest deeper
      than the stack has room ([host_run], [evaluate_within],
      [print_tree_within]).
    - What [print] writes is the list of the lines written; the host's
      [str] of a number is a parameter, as the host's [math.pow] is. *)

From Stdlib Require Import ZArith Ascii String List Bool Lia.
From Stdlib Require Import Floats.SpecFloat DecimalString DecimalN.
From stdpp Require Import base option list gmap.
Import ListNotations.

Local Open Scope Z_scope.

(** ** Exceptions and outcomes *)

Inductive TokenType :=
  NUMBER | PLUS | MINUS | MUL | DIV | POW | LPAREN | RPAREN | EOF.

#[global] Instance TokenType_eq_dec : EqDecision TokenType.
Proof. solve_decision. Defined.

(** The three messages built by [Parser.error]. *)
Inductive SyntaxProblem :=
| Expected (expected found : TokenType)
    (* "Expected {token_type}, but found {self.current_token.type}" *)
| Unexpected (found : TokenType)
    (* "Unexpected token {token.type}" *)
| EndExpected.
    (* "End of expression expected" *)

Inductive Exn :=
  (* raised by the source with [raise Exception(...)] *)
| LexicalError (c : ascii) (position : nat)
    (* "Lexical Error: Invalid character '{c}' at position {pos}" *)
| SyntaxError (what : SyntaxProblem)
    (* "Syntax Error: {message}" *)
| DivisionByZero
    (* "Semantic Error: Division by zero" *)
| UnknownNodeError
    (* "Evaluation Error: Unknown node type" *)
  (* raised by the host's built-ins *)
| ValueError (literal : list ascii)   (* int(result), float(result) *)
| MathDomainError                      (* math.pow: ValueError *)
| OverflowError                        (* int too large for a float, math.pow *)
| ZeroDivisionError
| TypeError                            (* arithmetic on what is no number *)
| RecursionError.                      (* calls nested deeper than the stack *)

Inductive outcome (A : Type) :=
| Returns (a : A)
| Raises (e : Exn)
| OutOfFuel.
Arguments Returns {A} a.
Arguments Raises {A} e.
Arguments OutOfFuel {A}.

Definition bind {A B} (m : outcome A) (k : A -> outcome B) : outcome B :=
  match m with
  | Returns a => k a
  | Raises e => Raises e
  | OutOfFuel => OutOfFuel
  end.

Notation "'let*' p ':=' m 'in' k" := (bind m (fun p => k))
  (at level 10, p pattern, m at level 100, k at level 200,
   format "'[v' 'let*'  p  ':='  m  'in' '/' k ']'").

(** ** Numbers of the host *)

Definition prec : Z := 53.
Definition emax : Z := 1024.

Inductive pynumber :=
| PyInt (z : Z)
| PyFloat (f : spec_float).

Definition is_float (x : pynumber) : bool :=
  match x with PyFloat _ => true | PyInt _ => false end.

Definition is_int (x : pynumber) : bool :=
  match x with PyInt _ => true | PyFloat _ => false end.

(** [float(z)] for an int [z]: the nearest binary64 value, ties to even;
    an int beyond the range raises. *)
Definition int_to_float (z : Z) : outcome spec_float :=
  match binary_normalize prec emax z 0 false with
  | S754_infinity _ => Raises OverflowError
  | f => Returns f
  end.

Definition as_float (x : pynumber) : outcome spec_float :=
  match x with
  | PyInt z => int_to_float z
  | PyFloat f => Returns f
  end.

(** The correctly rounded quotient of two positive integers. *)
Definition round_quotient (s : bool) (a b : positive) : spec_float :=
  let '(q, e, l) := SFdiv_core_binary prec emax (Zpos a) 0 (Zpos b) 0 in
  binary_round_aux prec emax s q e l.

(** [a / b] on two ints: the correctly rounded quotient. *)
Definition int_true_divide (a b : Z) : outcome spec_float :=
  let negate := xorb (a <? 0) (b <? 0) in
  match a, b with
  | _, 0 => Raises ZeroDivisionError
  | 0, _ => Returns (S754_zero negate)
  | (Zpos p | Zneg p), (Zpos q | Zneg q) =>
      match round_quotient negate p q with
      | S754_infinity _ => Raises OverflowError
      | f => Returns f
      end
  end.

Definition py_add (x y : pynumber) : outcome pynumber :=
  match x, y with
  | PyInt a, PyInt b => Returns (PyInt (a + b))
  | _, _ => let* a := as_float x in let* b := as_float y in
            Returns (PyFloat (SFadd prec emax a b))
  end.

Definition py_sub (x y : pynumber) : outcome pynumber :=
  match x, y with
  | PyInt a, PyInt b => Returns (PyInt (a - b))
  | _, _ => let* a := as_float x in let* b := as_float y in
            Returns (PyFloat (SFsub prec emax a b))
  end.

Definition py_mul (x y : pynumber) : outcome pynumber :=
  match x, y with
  | PyInt a, PyInt b => Returns (PyInt (a * b))
  | _, _ => let* a := as_float x in let* b := as_float y in
            Returns (PyFloat (SFmul prec emax a b))
  end.

Definition float_is_zero (f : spec_float) : bool :=
  match f with S754_zero _ => true | _ => false end.

Definition py_truediv (x y : pynumber) : outcome pynumber :=
  match x, y with
  | PyInt a, PyInt b => let* f := int_true_divide a b in Returns (PyFloat f)
  | _, _ => let* a := as_float x in let* b := as_float y in
            if float_is_zero b then Raises ZeroDivisionError
            else Returns (PyFloat (SFdiv prec emax a b))
  end.

(** [f == z] for a float and an int compares the exact values. *)
Definition float_eq_int (f : spec_float) (z : Z) : bool :=
  match f with
  | S754_zero _ => z =? 0
  | S754_finite s m e =>
      let v := if s then Zneg m else Zpos m in
      if 0 <=? e then z =? v * 2 ^ e else z * 2 ^ (- e) =? v
  | _ => false
  end.

Definition py_eq (x y : pynumber) : bool :=
  match x, y with
  | PyInt a, PyInt b => a =? b
  | PyFloat f, PyFloat g => SFeqb f g
  | PyFloat f, PyInt z | PyInt z, PyFloat f => float_eq_int f z
  end.

(** ** Conversion of the lexer's digit runs *)

Definition is_ascii_digit (c : ascii) : bool :=
  ((48 <=? nat_of_ascii c) && (nat_of_ascii c <=? 57))%nat.

(** [sys.int_max_str_digits], which the program leaves at its default. *)
Definition int_max_str_digits : nat := 4300.

(** [int(result)] for a run of [isdigit] characters: the decimal reading of
    a non-empty run of the digits 0 to 9; any other digit is refused, and so
    is a run of more than [int_max_str_digits] digits, leading zeros
    counted. *)
Definition py_int (result : list ascii) : outcome Z :=
  match NilZero.uint_of_string (string_of_list_ascii result) with
  | Some u =>
      if (int_max_str_digits <? length result)%nat
      then Raises (ValueError result)
      else Returns (Z.of_N (N.of_uint u))
  | None => Raises (ValueError result)
  end.

Fixpoint split_at_dot (s : list ascii) : list ascii * option (list ascii) :=
  match s with
  | [] => ([], None)
  | c :: s' =>
      if Ascii.eqb c "." then ([], Some s')
      else let '(before, after) := split_at_dot s' in (c :: before, after)
  end.

(** The binary64 value nearest to [n / 10^k]; a value beyond the range is an
    infinity. *)
Definition decimal_to_float (n : N) (k : nat) : spec_float :=
  match n with
  | N0 => S754_zero false
  | Npos p => round_quotient false p (Z.to_pos (10 ^ Z.of_nat k))
  end.

(** [float(result)] for a run of [isdigit] characters and dots that holds a
    dot: digits 0 to 9 around exactly one dot, with a digit on one side at
    least; the value is correctly rounded. *)
Definition py_float (result : list ascii) : outcome spec_float :=
  let '(before, after) := split_at_dot result in
  let after := default [] after in
  match NilEmpty.uint_of_string (string_of_list_ascii (before ++ after)) with
  | Some u =>
      if bool_decide (before ++ after = []) then Raises (ValueError result)
      else Returns (decimal_to_float (N.of_uint u) (length after))
  | None => Raises (ValueError result)
  end.

(** ** 1. Lexical analyzer *)

Inductive TokenValue :=
| VNum (n : pynumber)
| VStr (s : string)
| VNone.

Record Token := mkToken { type : TokenType; value : TokenValue }.

(** [str.isspace] and [str.isdigit] of the host on U+0000 to U+00FF. *)
Definition isspace (c : ascii) : bool :=
  let n := nat_of_ascii c in
  (((9 <=? n) && (n <=? 13)) || ((28 <=? n) && (n <=? 32))
   || (n =? 133) || (n =? 160))%nat.

Definition isdigit (c : ascii) : bool :=
  let n := nat_of_ascii c in
  (((48 <=? n) && (n <=? 57)) || (n =? 178) || (n =? 179) || (n =? 185))%nat.

Record Lexer := mkLexer {
  text : list ascii;
  pos : nat;
  current_char : option ascii
}.

Definition Lexer_init (text : list ascii) : Lexer :=
  {| text := text; pos := 0;
     current_char := match text with [] => None | _ => text !! 0%nat end |}.

Definition advance (self : Lexer) : Lexer :=
  let pos' := S (pos self) in
  {| text := text self; pos := pos';
     current_char :=
       if (pos' <? length (text self))%nat then text self !! pos' else None |}.

(** Fuel that the loops of a lexer cannot use up: each turn advances. *)
Definition loop_fuel (self : Lexer) : nat :=
  S (S (length (text self) - pos self)).

Fixpoint skip_whitespace_loop (fuel : nat) (self : Lexer) : outcome Lexer :=
  match fuel with
  | O => OutOfFuel
  | S fuel' =>
      match current_char self with
      | Some c =>
          if isspace c then skip_whitespace_loop fuel' (advance self)
          else Returns self
      | None => Returns self
      end
  end.

Definition skip_whitespace (self : Lexer) : outcome Lexer :=
  skip_whitespace_loop (loop_fuel self) self.

Fixpoint number_loop (fuel : nat) (result : list ascii) (self : Lexer)
  : outcome (list ascii * Lexer) :=
  match fuel with
  | O => OutOfFuel
  | S fuel' =>
      match current_char self with
      | Some c =>
          if isdigit c || Ascii.eqb c "."
          then number_loop fuel' (result ++ [c]) (advance self)
          else Returns (result, self)
      | None => Returns (result, self)
      end
  end.

Definition number (self : Lexer) : outcome (Token * Lexer) :=
  let* (result, self) := number_loop (loop_fuel self) [] self in
  if existsb (Ascii.eqb ".") result then
    let* f := py_float result in
    Returns (mkToken NUMBER (VNum (PyFloat f)), self)
  else
    let* z := py_int result in
    Returns (mkToken NUMBER (VNum (PyInt z)), self).

Definition punctuation (c : ascii) : option Token :=
  if Ascii.eqb c "+" then Some (mkToken PLUS (VStr "+"))
  else if Ascii.eqb c "-" then Some (mkToken MINUS (VStr "-"))
  else if Ascii.eqb c "*" then Some (mkToken MUL (VStr "*"))
  else if Ascii.eqb c "/" then Some (mkToken DIV (VStr "/"))
  else if Ascii.eqb c "^" then Some (mkToken POW (VStr "^"))
  else if Ascii.eqb c "(" then Some (mkToken LPAREN (VStr "("))
  else if Ascii.eqb c ")" then Some (mkToken RPAREN (VStr ")"))
  else None.

Fixpoint get_next_token_loop (fuel : nat) (self : Lexer)
  : outcome (Token * Lexer) :=
  match fuel with
  | O => OutOfFuel
  | S fuel' =>
      match current_char self with
      | Some c =>
          if isspace c then
            let* self := skip_whitespace self in
            get_next_token_loop fuel' self
          else if isdigit c || Ascii.eqb c "." then number self
          else match punctuation c with
               | Some token => Returns (token, advance self)
               | None => Raises (LexicalError c (pos self))
               end
      | None => Returns (mkToken EOF VNone, self)
      end
  end.

Definition get_next_token (self : Lexer) : outcome (Token * Lexer) :=
  get_next_token_loop (loop_fuel self) self.

Fixpoint tokenize_loop (fuel : nat) (tokens : list Token) (token : Token)
  (self : Lexer) : outcome (list Token * Lexer) :=
  match fuel with
  | O => OutOfFuel
  | S fuel' =>
      if bool_decide (type token <> EOF) then
        let* (token', self) := get_next_token self in
        tokenize_loop fuel' (tokens ++ [token]) token' self
      else Returns (tokens, self)
  end.

Definition Lexer_tokenize (self : Lexer) : outcome (list Token * Lexer) :=
  let* (token, self') := get_next_token self in
  tokenize_loop (loop_fuel self) [] token self'.

(** [tokenize(text)]: a fresh lexer run to the end. *)
Definition tokenize (text : list ascii) : outcome (list Token) :=
  let* (tokens, _) := Lexer_tokenize (Lexer_init text) in Returns tokens.

Definition str (s : string) : list ascii := list_ascii_of_string s.


(** ** 2. AST nodes *)

Inductive ASTNode :=
| NumberNode (token : Token)
| BinOpNode (left : ASTNode) (op_token : Token) (right : ASTNode).

(** ** 3. Syntax analyzer *)

Record Parser := mkParser { lexer : Lexer; current_token : Token }.

Definition Parser_init (lexer : Lexer) : outcome Parser :=
  let* (token, lexer) := get_next_token lexer in
  Returns {| lexer := lexer; current_token := token |}.

Definition error {A} (message : SyntaxProblem) : outcome A :=
  Raises (SyntaxError message).

Definition eat (token_type : TokenType) (self : Parser) : outcome Parser :=
  if bool_decide (type (current_token self) = token_type) then
    let* (token, lexer) := get_next_token (lexer self) in
    Returns {| lexer := lexer; current_token := token |}
  else error (Expected token_type (type (current_token self))).

(** The grammar's procedures.  Every call and every turn of a loop takes one
    unit of fuel. *)
Fixpoint power (fuel : nat) (self : Parser) {struct fuel}
  : outcome (ASTNode * Parser) :=
  match fuel with
  | O => OutOfFuel
  | S fuel =>
      let token := current_token self in
      match type token with
      | NUMBER =>
          let* self := eat NUMBER self in
          Returns (NumberNode token, self)
      | LPAREN =>
          let* self := eat LPAREN self in
          let* (node, self) := expr fuel self in
          let* self := eat RPAREN self in
          Returns (node, self)
      | _ => error (Unexpected (type token))
      end
  end
with factor (fuel : nat) (self : Parser) {struct fuel}
  : outcome (ASTNode * Parser) :=
  match fuel with
  | O => OutOfFuel
  | S fuel =>
      let* (node, self) := power fuel self in
      match type (current_token self) with
      | POW =>
          let op := current_token self in
          let* self := eat POW self in
          let* (right_node, self) := factor fuel self in
          Returns (BinOpNode node op right_node, self)
      | _ => Returns (node, self)
      end
  end
with term_loop (fuel : nat) (node : ASTNode) (self : Parser) {struct fuel}
  : outcome (ASTNode * Parser) :=
  match fuel with
  | O => OutOfFuel
  | S fuel =>
      let token := current_token self in
      match type token with
      | MUL =>
          let* self := eat MUL self in
          let* (right_node, self) := factor fuel self in
          term_loop fuel (BinOpNode node token right_node) self
      | DIV =>
          let* self := eat DIV self in
          let* (right_node, self) := factor fuel self in
          term_loop fuel (BinOpNode node token right_node) self
      | LPAREN | NUMBER =>
          (* Implicit multiplication *)
          let virtual_op := mkToken MUL (VStr "*") in
          let* (right_node, self) := factor fuel self in
          term_loop fuel (BinOpNode node virtual_op right_node) self
      | _ => Returns (node, self)
      end
  end
with term (fuel : nat) (self : Parser) {struct fuel}
  : outcome (ASTNode * Parser) :=
  match fuel with
  | O => OutOfFuel
  | S fuel =>
      let* (node, self) := factor fuel self in
      term_loop fuel node self
  end
with expr_loop (fuel : nat) (node : ASTNode) (self : Parser) {struct fuel}
  : outcome (ASTNode * Parser) :=
  match fuel with
  | O => OutOfFuel
  | S fuel =>
      let token := current_token self in
      match type token with
      | PLUS =>
          let* self := eat PLUS self in
          let* (right_node, self) := term fuel self in
          expr_loop fuel (BinOpNode node token right_node) self
      | MINUS =>
          let* self := eat MINUS self in
          let* (right_node, self) := term fuel self in
          expr_loop fuel (BinOpNode node token right_node) self
      | _ => Returns (node, self)
      end
  end
with expr (fuel : nat) (self : Parser) {struct fuel}
  : outcome (ASTNode * Parser) :=
  match fuel with
  | O => OutOfFuel
  | S fuel =>
      let* (node, self) := term fuel self in
      expr_loop fuel node self
  end.

Definition Parser_parse (fuel : nat) (self : Parser)
  : outcome (ASTNode * Parser) :=
  let* (node, self) := expr fuel self in
  if bool_decide (type (current_token self) <> EOF) then error EndExpected
  else Returns (node, self).

(** Fuel for a whole text: four units for each token, and a text of [n]
    characters has at most [n] tokens before the end of the input. *)
Definition parse_fuel (text : list ascii) : nat := 4 * (length text + 1).

(** [parse(text)]: a fresh parser on a fresh lexer, run to the end. *)
Definition parse (text : list ascii) : outcome ASTNode :=
  let* parser := Parser_init (Lexer_init text) in
  let* (ast, _) := Parser_parse (parse_fuel text) parser in
  Returns ast.

(** ** 4. Semantic evaluation *)

Section Evaluator.

(** The host's [math.pow] on two floats: the C library's [pow] with the
    host's mapping of its errors to exceptions. *)
Variable host_pow : spec_float -> spec_float -> outcome spec_float.

(** [math.pow(x, y)] converts both arguments to floats first. *)
Definition math_pow (x y : pynumber) : outcome pynumber :=
  let* a := as_float x in
  let* b := as_float y in
  let* r := host_pow a b in
  Returns (PyFloat r).

(** The values of the embedding are numbers.  A [NumberNode] that the parser
    builds holds a NUMBER token, whose value is one ([parse_well_formed]); a
    node made by hand around another token has a value that the source
    returns as it is and that the host's arithmetic refuses, which is the
    [TypeError] here. *)
Fixpoint evaluate (node : ASTNode) : outcome pynumber :=
  match node with
  | NumberNode token =>
      match value token with
      | VNum n => Returns n
      | _ => Raises TypeError
      end
  | BinOpNode left_node op_token right_node =>
      let* left_val := evaluate left_node in
      let* right_val := evaluate right_node in
      match type op_token with
      | PLUS => py_add left_val right_val
      | MINUS => py_sub left_val right_val
      | MUL => py_mul left_val right_val
      | DIV =>
          if py_eq right_val (PyInt 0) then Raises DivisionByZero
          else py_truediv left_val right_val
      | POW => math_pow left_val right_val
      | _ => Raises UnknownNodeError
      end
  end.

End Evaluator.

(** * Vocabulary of the statements *)

(** ** The lexer as a function of the text left to read *)

(** The lexer of text [t] that stands at offset [p]. *)
Definition at_pos (t : list ascii) (p : nat) : Lexer :=
  {| text := t; pos := p; current_char := t !! p |}.

Definition numchar (c : ascii) : bool := isdigit c || Ascii.eqb c ".".

(** Length of the longest prefix of [l] whose characters satisfy [P]. *)
Fixpoint span_len (P : ascii -> bool) (l : list ascii) : nat :=
  match l with
  | c :: l' => if P c then S (span_len P l') else O
  | [] => O
  end.

(** The token made from the run of digits and dots that [Lexer.number] has
    collected. *)
Definition number_token (run : list ascii) : outcome Token :=
  if existsb (Ascii.eqb ".") run then
    let* f := py_float run in Returns (mkToken NUMBER (VNum (PyFloat f)))
  else
    let* z := py_int run in Returns (mkToken NUMBER (VNum (PyInt z))).

(** What [get_next_token] finds in the rest of the text, with offsets counted
    from the lexer's position: first at a character that is no white space,
    then after the white space. *)
Definition scan_here (rest : list ascii) : outcome (Token * nat) :=
  match rest with
  | [] => Returns (mkToken EOF VNone, O)
  | c :: _ =>
      if numchar c then
        let n := span_len numchar rest in
        let* token := number_token (take n rest) in Returns (token, n)
      else match punctuation c with
           | Some token => Returns (token, 1%nat)
           | None => Raises (LexicalError c O)
           end
  end.

Definition offset {A} (k : nat) (r : outcome (A * nat)) : outcome (A * nat) :=
  match r with
  | Returns (a, n) => Returns (a, (k + n)%nat)
  | Raises (LexicalError c n) => Raises (LexicalError c (k + n))
  | Raises e => Raises e
  | OutOfFuel => OutOfFuel
  end.

Definition scan (rest : list ascii) : outcome (Token * nat) :=
  let k := span_len isspace rest in offset k (scan_here (drop k rest)).

Definition relocate (t : list ascii) (r : outcome (Token * nat))
  : outcome (Token * Lexer) :=
  match r with
  | Returns (token, n) => Returns (token, at_pos t n)
  | Raises e => Raises e
  | OutOfFuel => OutOfFuel
  end.

(** ** Values, tokens and trees *)

(** The float nearest to an int. *)
Definition float_of_Z (z : Z) : spec_float := binary_normalize prec emax z 0 false.

Definition int_token (z : Z) : Token := mkToken NUMBER (VNum (PyInt z)).
Definition float_token (f : spec_float) : Token := mkToken NUMBER (VNum (PyFloat f)).
Definition op_token (t : TokenType) (c : string) : Token := mkToken t (VStr c).

Definition Int (z : Z) : ASTNode := NumberNode (int_token z).
Definition Plus (l r : ASTNode) := BinOpNode l (op_token PLUS "+") r.
Definition Minus (l r : ASTNode) := BinOpNode l (op_token MINUS "-") r.
Definition Times (l r : ASTNode) := BinOpNode l (op_token MUL "*") r.
Definition Divide (l r : ASTNode) := BinOpNode l (op_token DIV "/") r.
Definition Power (l r : ASTNode) := BinOpNode l (op_token POW "^") r.

(** The natural number that a float is, if it is one. *)
Definition float_to_nat (f : spec_float) : option nat :=
  match f with
  | S754_zero _ => Some O
  | S754_finite false m e =>
      if 0 <=? e then Some (Z.to_nat (Zpos m * 2 ^ e))
      else if Zpos m mod 2 ^ (- e) =? 0 then Some (Z.to_nat (Zpos m / 2 ^ (- e)))
      else None
  | _ => None
  end.

(** A power function on floats to state instances with: repeated
    multiplication, for an exponent that is a natural number. *)
Definition power_by_multiplication (a b : spec_float) : outcome spec_float :=
  match float_to_nat b with
  | Some n => Returns (Nat.iter n (SFmul prec emax a) (float_of_Z 1))
  | None => Raises MathDomainError
  end.

(** The decimal literal of 10^309: an int beyond the range of a float. *)
Definition huge : list ascii := "1"%char :: repeat "0"%char 309.

(** The exact operation on ints and the rounded one on floats that the
    evaluator's [+], [-] and [*] stand for. *)
Definition int_op (t : TokenType) : Z -> Z -> Z :=
  match t with PLUS => Z.add | MINUS => Z.sub | _ => Z.mul end.

Definition float_op (t : TokenType) : spec_float -> spec_float -> spec_float :=
  match t with
  | PLUS => SFadd prec emax
  | MINUS => SFsub prec emax
  | _ => SFmul prec emax
  end.

(** An int that [float] converts, or a float. *)
Definition in_float_range (x : pynumber) : bool :=
  match as_float x with Returns _ => true | _ => false end.

(** The decimal literal of a natural number. *)
Definition decimal (n : N) : list ascii :=
  list_ascii_of_string (NilEmpty.string_of_uint (N.to_uint n)).

(** The characters of the lexer's alphabet: white space, digits, the dot and
    the seven operators and parentheses. *)
Definition valid_char (c : ascii) : bool :=
  isspace c || isdigit c || Ascii.eqb c "."
  || match punctuation c with Some _ => true | None => false end.

(** ** Parsers that read the same tokens *)

(** Two lexers with the same text left to read. *)
Definition same_rest (l1 l2 : Lexer) : Prop :=
  exists t1 p1 t2 p2,
    l1 = at_pos t1 p1 /\ l2 = at_pos t2 p2 /\ drop p1 t1 = drop p2 t2.

(** Two parsers with the same current token and the same text left. *)
Definition sim (s1 s2 : Parser) : Prop :=
  current_token s1 = current_token s2 /\ same_rest (lexer s1) (lexer s2).

(** A procedure of the parser that returns the same tree from two such
    parsers, and leaves two such parsers. *)
Definition simulates (f : Parser -> outcome (ASTNode * Parser)) : Prop :=
  forall s1 s2 node s1',
    sim s1 s2 -> f s1 = Returns (node, s1') ->
    exists s2', f s2 = Returns (node, s2') /\ sim s1' s2'.

(** ** Instances and runs of the main program *)

(** The instances alive in a process: the lexers, and the parsers, each of
    which refers to its lexer and holds its current token. *)
Record Store := mkStore {
  lexers : gmap nat Lexer;
  parsers : gmap nat (nat * Token)
}.

#[global] Instance Lexer_inhabited : Inhabited Lexer := populate (Lexer_init []).
#[global] Instance Token_inhabited : Inhabited Token := populate (mkToken EOF VNone).

(** [lexer = Lexer(text)] *)
Definition new_Lexer (text : list ascii) (st : Store) : nat * Store :=
  let l := fresh (dom (lexers st)) in
  (l, {| lexers := <[l := Lexer_init text]> (lexers st); parsers := parsers st |}).

(** [lexer.tokenize()] *)
Definition call_tokenize (l : nat) (st : Store) : outcome (list Token * Store) :=
  let* (tokens, self) := Lexer_tokenize (lexers st !!! l) in
  Returns (tokens, {| lexers := <[l := self]> (lexers st); parsers := parsers st |}).

(** [parser = Parser(lexer)] *)
Definition new_Parser (l : nat) (st : Store) : outcome (nat * Store) :=
  let* (token, self) := get_next_token (lexers st !!! l) in
  let p := fresh (dom (parsers st)) in
  Returns (p, {| lexers := <[l := self]> (lexers st);
                 parsers := <[p := (l, token)]> (parsers st) |}).

(** [parser.parse()] *)
Definition call_parse (p : nat) (st : Store) : outcome (ASTNode * Store) :=
  let '(l, token) := parsers st !!! p in
  let self := {| lexer := lexers st !!! l; current_token := token |} in
  let* (node, self) := Parser_parse (parse_fuel (text (lexer self))) self in
  Returns (node, {| lexers := <[l := lexer self]> (lexers st);
                    parsers := <[p := (l, current_token self)]> (parsers st) |}).

(** A run of the lexical analysis and a run of the syntax analysis, each on
    instances of its own, as the main program makes them. *)
Definition tokenize_in (st : Store) (text : list ascii)
  : outcome (list Token * Store) :=
  let '(l, st) := new_Lexer text st in call_tokenize l st.

Definition parse_in (st : Store) (text : list ascii)
  : outcome (ASTNode * Store) :=
  let '(l, st) := new_Lexer text st in
  let* (p, st) := new_Parser l st in
  call_parse p st.

Definition result {A} (r : outcome (A * Store)) : outcome A :=
  let* (a, _) := r in Returns a.

(** ** Trees of the parser *)

(** A token that holds a number if it is a NUMBER token. *)
Definition number_valued (token : Token) : Prop :=
  type token = NUMBER -> exists n, value token = VNum n.

(** A tree whose literals hold numbers and whose operators are the five of
    the evaluator. *)
Fixpoint well_formed (node : ASTNode) : Prop :=
  match node with
  | NumberNode token => type token = NUMBER /\ exists n, value token = VNum n
  | BinOpNode left_node op right_node =>
      In (type op) [PLUS; MINUS; MUL; DIV; POW]
      /\ well_formed left_node /\ well_formed right_node
  end.

(** A procedure of the parser that builds well-formed trees. *)
Definition builds_well_formed (f : Parser -> outcome (ASTNode * Parser)) : Prop :=
  forall s node s',
    (exists t p, lexer s = at_pos t p) -> number_valued (current_token s) ->
    f s = Returns (node, s') ->
    well_formed node
    /\ (exists t p, lexer s' = at_pos t p) /\ number_valued (current_token s').

(** ** Progress of the parser *)

(** A parser whose lexer is at an offset of its text. *)
Definition wf_parser (s : Parser) : Prop := exists t p, lexer s = at_pos t p.

(** A bound on the tokens left: the characters not yet read, and the
    current token if it is not the end of the input. *)
Definition remaining (s : Parser) : nat :=
  (length (text (lexer s)) - pos (lexer s))
  + (if decide (type (current_token s) = EOF) then 0 else 1).

(** The call [f s] does not run out of fuel, and when it returns it has
    taken at least [k] tokens. *)
Definition progresses {A} (k : nat) (f : Parser -> outcome (A * Parser))
  (s : Parser) : Prop :=
  match f s with
  | Returns (_, s') => wf_parser s' /\ (remaining s' + k <= remaining s)%nat
  | Raises _ => True
  | OutOfFuel => False
  end.

(** * Utilities and main program *)

(** ** Dictionaries of tokens and trees *)

(** The values that [to_dict] builds: [None], numbers, strings, lists, and
    dictionaries with their keys in the order of insertion. *)
#[warnings="-register-all"] Inductive pyobject :=
| ONone
| ONum (n : pynumber)
| OStr (s : string)
| OList (items : list pyobject)
| ODict (items : list (string * pyobject)).

(** The strings that the class [TokenType] names. *)
Definition TokenType_str (t : TokenType) : string :=
  match t with
  | NUMBER => "NUMBER" | PLUS => "PLUS" | MINUS => "MINUS" | MUL => "MUL"
  | DIV => "DIV" | POW => "POW" | LPAREN => "LPAREN" | RPAREN => "RPAREN"
  | EOF => "EOF"
  end.

Definition TokenValue_object (v : TokenValue) : pyobject :=
  match v with
  | VNum n => ONum n
  | VStr s => OStr s
  | VNone => ONone
  end.

(** [Token.to_dict] *)
Definition Token_to_dict (self : Token) : pyobject :=
  ODict [("type", OStr (TokenType_str (type self)));
         ("value", TokenValue_object (value self))]%string.

(** [NumberNode.to_dict] and [BinOpNode.to_dict] *)
Fixpoint to_dict (self : ASTNode) : pyobject :=
  match self with
  | NumberNode token =>
      ODict [("type", OStr "NumberNode");
             ("value", TokenValue_object (value token))]%string
  | BinOpNode left_node op_token right_node =>
      ODict [("type", OStr "BinOpNode");
             ("op", TokenValue_object (value op_token));
             ("left", to_dict left_node);
             ("right", to_dict right_node)]%string
  end.

(** ** Main program *)

(** The three passes that the [try] of [main] starts with (lines 287 to
    299): the lexical analysis, the syntax analysis on a lexer of its own,
    and the evaluation of the tree.  What [main] prints after them is no
    part of it. *)
Definition passes
  (host_pow : spec_float -> spec_float -> outcome spec_float)
  (input_expr : list ascii) : outcome (list Token * ASTNode * pynumber) :=
  let* tokens := tokenize input_expr in
  let* ast := parse input_expr in
  let* result := evaluate host_pow ast in
  Returns (tokens, ast, result).

(** The dictionary that [main] prints in JSON mode after the three passes:
    [output] of the source. *)
Definition json_output (tokens : list Token) (ast : ASTNode)
  (result : pynumber) : pyobject :=
  ODict [("tokens", OList (map Token_to_dict tokens));
         ("ast", to_dict ast);
         ("result", ONum result)]%string.

(** ** Utilities *)

Section PrintTree.

(** The host's [str] of a number, which the f-strings of [print_tree]
    call.  The numbers of a tree that [parse] returns are floats and ints
    of at most 4300 digits, which [str] does not refuse. *)
Variable host_str : pynumber -> list ascii.

Definition format_value (v : TokenValue) : list ascii :=
  match v with
  | VNum n => host_str n
  | VStr s => list_ascii_of_string s
  | VNone => str "None"
  end.

(** [print_tree(node, indent)]: the lines that it prints, in their order. *)
Fixpoint print_tree (node : ASTNode) (indent : list ascii)
  : list (list ascii) :=
  match node with
  | NumberNode token =>
      [indent ++ str "Number(" ++ format_value (value token) ++ str ")"]
  | BinOpNode left_node op_token right_node =>
      (indent ++ str "Op(" ++ format_value (value op_token) ++ str ")")
      :: print_tree left_node (indent ++ str "  ")
      ++ print_tree right_node (indent ++ str "  ")
  end.

End PrintTree.

(** * Vocabulary of the further properties *)

(** ** The token sequence of a text *)

(** An error met [k] characters further into the text. *)
Definition shift_error (k : nat) (e : Exn) : Exn :=
  match e with
  | LexicalError c p => LexicalError c (k + p)
  | _ => e
  end.

Definition shift {A} (k : nat) (r : outcome A) : outcome A :=
  match r with
  | Raises e => Raises (shift_error k e)
  | _ => r
  end.

(** The tokens that [get_next_token] gives one after the other on the rest
    of a text, up to the end of the input. *)
Fixpoint tokens_of (fuel : nat) (rest : list ascii) : outcome (list Token) :=
  match fuel with
  | O => OutOfFuel
  | S fuel =>
      let* (token, n) := scan rest in
      if bool_decide (type token = EOF) then Returns []
      else
        let* tokens := shift n (tokens_of fuel (drop n rest)) in
        Returns (token :: tokens)
  end.

Definition all_tokens (rest : list ascii) : outcome (list Token) :=
  tokens_of (S (length rest)) rest.

(** The tokens that the lexer makes: a NUMBER token that holds a number, or
    the token of an operator or parenthesis with its character. *)
Definition lexer_made (token : Token) : Prop :=
  (type token = NUMBER /\ exists n, value token = VNum n)
  \/ (exists c, punctuation c = Some token).

(** The characters of integer arithmetic: white space, the digits 0 to 9,
    the operators and the parentheses. *)
Definition plain_char (c : ascii) : bool :=
  isspace c || is_ascii_digit c
  || match punctuation c with Some _ => true | None => false end.

(** The length of the longest run of characters of a class in a text. *)
Fixpoint longest_run (P : ascii -> bool) (l : list ascii) : nat :=
  match l with
  | [] => 0
  | c :: l' => Nat.max (span_len P l) (longest_run P l')
  end.

(** ** The call stack of the host *)

(** The outcome of a run on the host, by the outcome of the embedding.  The
    embedding nests its calls without bound; the host raises RecursionError
    in a call for which its stack has no room left, and no procedure of the
    program catches that error.  So a run on the host has the outcome of
    the embedding, or it raises RecursionError. *)
Inductive host_run {A : Type} (embedded : outcome A) : outcome A -> Prop :=
| same_outcome : host_run embedded embedded
| stack_exhausted : host_run embedded (Raises RecursionError).

(** The number of nested calls that [evaluate] and [print_tree] make on a
    tree. *)
Fixpoint height (node : ASTNode) : nat :=
  match node with
  | NumberNode _ => 1
  | BinOpNode left_node _ right_node =>
      S (Nat.max (height left_node) (height right_node))
  end.

Section EvaluatorOnStack.

Variable host_pow : spec_float -> spec_float -> outcome spec_float.

(** [Evaluator.evaluate] on a stack that has room for [stack] nested calls
    of it: a call for which no room is left raises RecursionError. *)
Fixpoint evaluate_within (stack : nat) (node : ASTNode) : outcome pynumber :=
  match stack with
  | O => Raises RecursionError
  | S stack =>
      match node with
      | NumberNode token =>
          match value token with
          | VNum n => Returns n
          | _ => Raises TypeError
          end
      | BinOpNode left_node op_token right_node =>
          let* left_val := evaluate_within stack left_node in
          let* right_val := evaluate_within stack right_node in
          match type op_token with
          | PLUS => py_add left_val right_val
          | MINUS => py_sub left_val right_val
          | MUL => py_mul left_val right_val
          | DIV =>
              if py_eq right_val (PyInt 0) then Raises DivisionByZero
              else py_truediv left_val right_val
          | POW => math_pow host_pow left_val right_val
          | _ => Raises UnknownNodeError
          end
      end
  end.

End EvaluatorOnStack.

Section PrintTreeOnStack.

Variable host_str : pynumber -> list ascii.

(** [print_tree(node, indent)] on a stack that has room for [stack] nested
    calls of it: the lines printed, and how the call ends.  The lines
    printed before a RecursionError stay printed. *)
Fixpoint print_tree_within (stack : nat) (node : ASTNode) (indent : list ascii)
  : list (list ascii) * outcome unit :=
  match stack with
  | O => ([], Raises RecursionError)
  | S stack =>
      match node with
      | NumberNode token =>
          ([indent ++ str "Number(" ++ format_value host_str (value token)
              ++ str ")"],
           Returns tt)
      | BinOpNode left_node op_token right_node =>
          let line :=
            indent ++ str "Op(" ++ format_value host_str (value op_token)
              ++ str ")" in
          let '(lines_left, end_left) :=
            print_tree_within stack left_node (indent ++ str "  ") in
          match end_left with
          | Returns _ =>
              let '(lines_right, end_right) :=
                print_tree_within stack right_node (indent ++ str "  ") in
              (line :: lines_left ++ lines_right, end_right)
          | _ => (line :: lines_left, end_left)
          end
      end
  end.

End PrintTreeOnStack.

(** ** Invariants of the parser *)

(** A procedure of the parser that, from a parser in [I], returns a tree in
    [T] and a parser in [I], or raises an error in [E]. *)
Definition maintains (I : Parser -> Prop) (T : ASTNode -> Prop)
  (E : Exn -> Prop) (f : Parser -> outcome (ASTNode * Parser)) : Prop :=
  forall s, I s ->
    match f s with
    | Returns (node, s') => T node /\ I s'
    | Raises e => E e
    | OutOfFuel => True
    end.

(** A parser on the text [t] that has read the tokens [before] and holds
    the one after them: the tokens of the text are those, the current one
    and the tokens of the rest. *)
Definition has_read (t : list ascii) (s : Parser) : Prop :=
  exists p before,
    lexer s = at_pos t p
    /\ all_tokens t
       = if decide (type (current_token s) = EOF) then Returns before
         else
           let* l := shift p (all_tokens (drop p t)) in
           Returns (before ++ current_token s :: l).

(** An error of the syntax, or the error of the lexer on the text [t]. *)
Definition parser_error (t : list ascii) (e : Exn) : Prop :=
  (exists what, e = SyntaxError what) \/ tokenize t = Raises e.

(** The five binary operators. *)
Definition is_operator (t : TokenType) : Prop :=
  In t [PLUS; MINUS; MUL; DIV; POW].

(** ** Two parsers side by side *)

(** Two outcomes that agree: both return, and the results are related by
    [Q]; or the first raises, and when [strict] holds the second raises the
    same error.  An outcome without fuel agrees with any. *)
Definition agrees (strict : Prop) {A} (Q : A -> A -> Prop)
  (r1 r2 : outcome A) : Prop :=
  match r1, r2 with
  | OutOfFuel, _ | _, OutOfFuel => True
  | Returns a1, Returns a2 => Q a1 a2
  | Raises e1, Raises e2 => strict -> e1 = e2
  | Returns _, Raises _ => False
  | Raises _, Returns _ => ~ strict
  end.

(** The same tree, and parsers related by [R]. *)
Definition same_tree (R : Parser -> Parser -> Prop)
  (x y : ASTNode * Parser) : Prop :=
  x.1 = y.1 /\ R x.2 y.2.

Definition simulated (strict : Prop) (R : Parser -> Parser -> Prop)
  (f1 f2 : Parser -> outcome (ASTNode * Parser)) : Prop :=
  forall s1 s2, R s1 s2 -> agrees strict (same_tree R) (f1 s1) (f2 s2).

(** Two parsers that hold the same token and have the same tokens to
    come, on whatever texts. *)
Definition same_tokens (s1 s2 : Parser) : Prop :=
  current_token s1 = current_token s2
  /\ exists t1 p1 t2 p2,
       lexer s1 = at_pos t1 p1 /\ lexer s2 = at_pos t2 p2
       /\ (type (current_token s1) = EOF
           \/ exists l, all_tokens (drop p1 t1) = Returns l
                        /\ all_tokens (drop p2 t2) = Returns l).

(** A parser on the text [body] and one on a text that holds [body] with
    a closing parenthesis after it, at the same place of [body]: they hold
    the same token, or the first has come to the end and the second to the
    closing parenthesis. *)
Definition before_closing (pre body tl : list ascii) (s1 s2 : Parser) : Prop :=
  let t2 := pre ++ body ++ ")"%char :: tl in
  (current_token s1 = current_token s2 /\ type (current_token s1) <> EOF
   /\ exists p, (p <= length body)%nat
                /\ lexer s1 = at_pos body p
                /\ lexer s2 = at_pos t2 (length pre + p))
  \/ (type (current_token s1) = EOF
      /\ current_token s2 = mkToken RPAREN (VStr ")")
      /\ lexer s2 = at_pos t2 (length pre + length body + 1)).

(** ** The grammar of the parser *)

(** The grammar that the docstrings of [power], [factor], [term] and [expr]
    give, with the tree that each production builds:
      Power      : NUMBER | LPAREN Expression RPAREN
      Factor     : Power (POW Factor)*
      Term       : Factor ( ((MUL | DIV) Factor) | Factor )*
      Expression : Term ((PLUS | MINUS) Term)*
    A repetition nests to the left, but for POW, which nests to the right;
    a Factor that follows a Term at once is multiplied with it. *)
Inductive Power_of : list Token -> ASTNode -> Prop :=
| Power_number token :
    type token = NUMBER -> Power_of [token] (NumberNode token)
| Power_parentheses lparen e rparen node :
    type lparen = LPAREN -> type rparen = RPAREN -> Expression_of e node ->
    Power_of (lparen :: e ++ [rparen]) node
with Factor_of : list Token -> ASTNode -> Prop :=
| Factor_power p node : Power_of p node -> Factor_of p node
| Factor_pow p op f l r :
    Power_of p l -> type op = POW -> Factor_of f r ->
    Factor_of (p ++ op :: f) (BinOpNode l op r)
with Term_of : list Token -> ASTNode -> Prop :=
| Term_factor f node : Factor_of f node -> Term_of f node
| Term_explicit t op f l r :
    Term_of t l -> type op = MUL \/ type op = DIV -> Factor_of f r ->
    Term_of (t ++ op :: f) (BinOpNode l op r)
| Term_implicit t f l r :
    Term_of t l -> Factor_of f r ->
    Term_of (t ++ f) (BinOpNode l (mkToken MUL (VStr "*")) r)
with Expression_of : list Token -> ASTNode -> Prop :=
| Expression_term t node : Term_of t node -> Expression_of t node
| Expression_op e op t l r :
    Expression_of e l -> type op = PLUS \/ type op = MINUS -> Term_of t r ->
    Expression_of (e ++ op :: t) (BinOpNode l op r).

Scheme Power_of_mut := Minimality for Power_of Sort Prop
  with Factor_of_mut := Minimality for Factor_of Sort Prop
  with Term_of_mut := Minimality for Term_of Sort Prop
  with Expression_of_mut := Minimality for Expression_of Sort Prop.

Combined Scheme grammar_ind
  from Power_of_mut, Factor_of_mut, Term_of_mut, Expression_of_mut.

(** The tokens that a parser has still to take: its current token and the
    tokens of the text after it, up to the end of the input. *)
Definition upcoming (s : Parser) (ts : list Token) : Prop :=
  exists t p,
    lexer s = at_pos t p
    /\ if decide (type (current_token s) = EOF) then ts = []
       else exists l, all_tokens (drop p t) = Returns l
                      /\ ts = current_token s :: l.

(** An outcome that, when it returns, has taken from the tokens [ts] a
    sequence that [G] derives with the tree returned, and leaves the others
    upcoming. *)
Definition takes (G : list Token -> ASTNode -> Prop) (ts : list Token)
  (r : outcome (ASTNode * Parser)) : Prop :=
  match r with
  | Returns (node, s') =>
      exists used ts', ts = used ++ ts' /\ G used node /\ upcoming s' ts'
  | _ => True
  end.

Definition derives (G : list Token -> ASTNode -> Prop)
  (f : Parser -> outcome (ASTNode * Parser)) : Prop :=
  forall s ts, upcoming s ts -> takes G ts (f s).

(** A token that starts a value: a number or an opening parenthesis. *)
Definition starts_value (token : Token) : Prop :=
  type token = NUMBER \/ type token = LPAREN.

(** Two token sequences that differ in one [*] only, which the first has
    before a token that starts a value, and which the second has not. *)
Definition without_times (ts1 ts2 : list Token) : Prop :=
  exists before next after,
    starts_value next
    /\ ts1 = before ++ op_token MUL "*" :: next :: after
    /\ ts2 = before ++ next :: after.

(** Two parsers of which the second has the tokens of the first to take,
    but for one [*] that is left out: they hold the same token and the [*]
    is behind them, or the [*] is still to come for the first. *)
Definition times_left_out (s1 s2 : Parser) : Prop :=
  exists ts1 ts2,
    upcoming s1 ts1 /\ upcoming s2 ts2
    /\ ((current_token s1 = current_token s2 /\ ts1 = ts2)
        \/ without_times ts1 ts2).

(** The literals of a tree, from left to right. *)
Fixpoint leaves (node : ASTNode) : list Token :=
  match node with
  | NumberNode token => [token]
  | BinOpNode left_node _ right_node => leaves left_node ++ leaves right_node
  end.

(** The NUMBER tokens of a sequence. *)
Definition numbers (tokens : list Token) : list Token :=
  filter (fun token => type token = NUMBER) tokens.

(** The trees that the parser makes: a literal holds a NUMBER token, an
    operation holds the token of one of the five operators with its
    character. *)
Fixpoint parser_made (node : ASTNode) : Prop :=
  match node with
  | NumberNode token => type token = NUMBER
  | BinOpNode left_node op right_node =>
      is_operator (type op) /\ (exists c, punctuation c = Some op)
      /\ parser_made left_node /\ parser_made right_node
  end.

(** A parser whose lexer is at an offset of its text and whose current
    token, if it is not the end of the input, is one the lexer makes. *)
Definition holds_lexer_made (s : Parser) : Prop :=
  wf_parser s
  /\ (type (current_token s) <> EOF -> lexer_made (current_token s)).

(** ** Integer arithmetic *)

(** The characters of integer arithmetic without division and power. *)
Definition integer_char (c : ascii) : bool :=
  isspace c || is_ascii_digit c
  || existsb (Ascii.eqb c) ["+"; "-"; "*"; "("; ")"]%char.

(** The int that a tree of int literals under [+], [-] and [*] stands
    for. *)
Fixpoint int_value (node : ASTNode) : option Z :=
  match node with
  | NumberNode token =>
      match value token with
      | VNum (PyInt z) => Some z
      | _ => None
      end
  | BinOpNode left_node op right_node =>
      match type op with
      | PLUS | MINUS | MUL =>
          match int_value left_node, int_value right_node with
          | Some a, Some b => Some (int_op (type op) a b)
          | _, _ => None
          end
      | _ => None
      end
  end.

(** A token of integer arithmetic: an int literal, [+], [-], [*], a
    parenthesis or the end of the input. *)
Definition integer_token (token : Token) : Prop :=
  match type token with
  | NUMBER => exists z, value token = VNum (PyInt z)
  | DIV | POW => False
  | _ => True
  end.

(** A parser on a text of integer arithmetic that holds one of its
    tokens. *)
Definition reads_integers (s : Parser) : Prop :=
  (exists t p, lexer s = at_pos t p /\ forallb integer_char t = true)
  /\ integer_token (current_token s).

(** * Properties *)

(** ** The lexer reads the text from its position on *)

Lemma Lexer_init_at_pos t : Lexer_init t = at_pos t 0.
Proof. unfold Lexer_init, at_pos. by destruct t. Qed.

Lemma advance_at_pos t p : advance (at_pos t p) = at_pos t (S p).
Proof.
  unfold advance, at_pos; simpl. f_equal.
  destruct (Nat.ltb_spec (S p) (length t)) as [H|H]; [done|].
  symmetry. by apply lookup_ge_None.
Qed.

Lemma span_len_le P l : (span_len P l <= length l)%nat.
Proof. induction l as [|c l IH]; simpl; [lia|]. destruct (P c); simpl; lia. Qed.

Lemma span_len_stop P l :
  match drop (span_len P l) l with
  | c :: _ => P c = false
  | [] => True
  end.
Proof.
  induction l as [|c l IH]; simpl; [done|].
  destruct (P c) eqn:E; simpl; [exact IH|exact E].
Qed.

Lemma span_len_app_stop P l c l' :
  P c = false -> span_len P (l ++ c :: l') = span_len P l.
Proof.
  intros Hc. induction l as [|d l IH]; simpl; [by rewrite Hc|].
  destruct (P d); [by rewrite IH|done].
Qed.

Lemma span_len_all P l l' :
  forallb P l = true -> span_len P (l ++ l') = (length l + span_len P l')%nat.
Proof.
  induction l as [|d l IH]; simpl; [done|].
  intros [-> H]%andb_true_iff. by rewrite IH.
Qed.

Lemma loop_fuel_at_pos t p :
  loop_fuel (at_pos t p) = S (S (length (drop p t))).
Proof. unfold loop_fuel; simpl. by rewrite length_drop. Qed.

Lemma skip_whitespace_loop_spec fuel t p :
  (span_len isspace (drop p t) < fuel)%nat ->
  skip_whitespace_loop fuel (at_pos t p)
  = Returns (at_pos t (p + span_len isspace (drop p t))).
Proof.
  revert p. induction fuel as [|fuel IH]; intros p Hf; [lia|].
  simpl. destruct (t !! p) as [c|] eqn:E.
  - rewrite (drop_S _ _ _ E) in *. simpl in *.
    destruct (isspace c).
    + rewrite advance_at_pos, IH by lia. do 2 f_equal. lia.
    + rewrite Nat.add_0_r. unfold at_pos. by rewrite ?E.
  - rewrite (drop_ge t p) by (by apply lookup_ge_None). simpl.
    rewrite Nat.add_0_r. unfold at_pos. by rewrite ?E.
Qed.

Lemma skip_whitespace_spec t p :
  skip_whitespace (at_pos t p)
  = Returns (at_pos t (p + span_len isspace (drop p t))).
Proof.
  unfold skip_whitespace. apply skip_whitespace_loop_spec.
  rewrite loop_fuel_at_pos. pose proof (span_len_le isspace (drop p t)). lia.
Qed.

Lemma number_loop_spec fuel acc t p :
  (span_len numchar (drop p t) < fuel)%nat ->
  number_loop fuel acc (at_pos t p)
  = Returns (acc ++ take (span_len numchar (drop p t)) (drop p t),
             at_pos t (p + span_len numchar (drop p t))).
Proof.
  revert acc p. induction fuel as [|fuel IH]; intros acc p Hf; [lia|].
  simpl. destruct (t !! p) as [c|] eqn:E.
  - rewrite (drop_S _ _ _ E) in *. simpl in *. fold (numchar c).
    destruct (numchar c).
    + rewrite advance_at_pos, IH by lia. simpl.
      rewrite <- app_assoc. simpl. do 3 f_equal. lia.
    + simpl. rewrite app_nil_r, Nat.add_0_r. unfold at_pos. by rewrite ?E.
  - rewrite (drop_ge t p) by (by apply lookup_ge_None). simpl.
    rewrite app_nil_r, Nat.add_0_r. unfold at_pos. by rewrite ?E.
Qed.

Lemma py_int_raises run e : py_int run = Raises e -> e = ValueError run.
Proof.
  unfold py_int. destruct (NilZero.uint_of_string _); [|congruence].
  destruct (_ <? _)%nat; congruence.
Qed.

Lemma py_float_raises run e : py_float run = Raises e -> e = ValueError run.
Proof.
  unfold py_float. destruct (split_at_dot run) as [before after].
  destruct (NilEmpty.uint_of_string _); [|congruence].
  case_bool_decide; congruence.
Qed.

Lemma py_int_fuel run : py_int run <> OutOfFuel.
Proof.
  unfold py_int. destruct (NilZero.uint_of_string _); [|done].
  by destruct (_ <? _)%nat.
Qed.

Lemma py_float_fuel run : py_float run <> OutOfFuel.
Proof.
  unfold py_float. destruct (split_at_dot run) as [before after].
  destruct (NilEmpty.uint_of_string _); [|done]. by case_bool_decide.
Qed.

Lemma number_token_raises run e :
  number_token run = Raises e -> e = ValueError run.
Proof.
  unfold number_token. destruct (existsb _ _).
  - destruct (py_float run) eqn:E; simpl; try done.
    intros [= <-]. by apply py_float_raises.
  - destruct (py_int run) eqn:E; simpl; try done.
    intros [= <-]. by apply py_int_raises.
Qed.

Lemma number_token_fuel run : number_token run <> OutOfFuel.
Proof.
  unfold number_token. destruct (existsb _ _).
  - pose proof (py_float_fuel run). by destruct (py_float run).
  - pose proof (py_int_fuel run). by destruct (py_int run).
Qed.

Lemma number_spec t p :
  number (at_pos t p)
  = relocate t (offset p
      (let n := span_len numchar (drop p t) in
       let* token := number_token (take n (drop p t)) in Returns (token, n))).
Proof.
  unfold number. rewrite number_loop_spec.
  2:{ rewrite loop_fuel_at_pos. pose proof (span_len_le numchar (drop p t)). lia. }
  cbn [bind app].
  pose proof (number_token_raises (take (span_len numchar (drop p t)) (drop p t))) as Hr.
  unfold number_token in *.
  destruct (existsb _ _).
  - destruct (py_float _) as [f|e|]; simpl; [done| |done].
    by rewrite (Hr e eq_refl).
  - destruct (py_int _) as [f|e|]; simpl; [done| |done].
    by rewrite (Hr e eq_refl).
Qed.

Lemma get_next_token_loop_here fuel t p :
  match drop p t with c :: _ => isspace c = false | [] => True end ->
  get_next_token_loop (S fuel) (at_pos t p)
  = relocate t (offset p (scan_here (drop p t))).
Proof.
  intros Hc. cbn [get_next_token_loop current_char at_pos].
  destruct (t !! p) as [c|] eqn:E.
  - rewrite (drop_S _ _ _ E) in *. rewrite Hc. cbn [scan_here].
    fold (numchar c). fold (at_pos t p).
    destruct (numchar c) eqn:En.
    + rewrite number_spec. by rewrite (drop_S _ _ _ E).
    + destruct (punctuation c); simpl.
      * rewrite advance_at_pos. do 3 f_equal. lia.
      * by rewrite Nat.add_0_r.
  - rewrite (drop_ge t p) by (by apply lookup_ge_None). simpl.
    rewrite Nat.add_0_r. unfold at_pos. by rewrite ?E.
Qed.

Lemma offset_offset {A} j k (r : outcome (A * nat)) :
  offset j (offset k r) = offset (j + k) r.
Proof.
  destruct r as [[a n]|e|]; simpl; [f_equal; f_equal; lia| |done].
  destruct e; simpl; try done. do 2 f_equal. lia.
Qed.

(** [get_next_token] is a function of the text from the lexer's position
    on. *)
Lemma get_next_token_scan t p :
  get_next_token (at_pos t p) = relocate t (offset p (scan (drop p t))).
Proof.
  unfold get_next_token, scan. rewrite loop_fuel_at_pos.
  rewrite offset_offset, drop_drop.
  pose proof (span_len_stop isspace (drop p t)) as Hstop.
  rewrite drop_drop in Hstop.
  destruct (t !! p) as [c|] eqn:E.
  - rewrite (drop_S _ _ _ E) in *. cbn [span_len] in *.
    destruct (isspace c) eqn:Ec.
    + cbn [get_next_token_loop current_char at_pos]. rewrite E, Ec.
      fold (at_pos t p). rewrite skip_whitespace_spec.
      rewrite (drop_S _ _ _ E). cbn [span_len bind]. rewrite Ec.
      by apply get_next_token_loop_here.
    + rewrite Nat.add_0_r in *. rewrite <- (drop_S _ _ _ E) in *.
      apply get_next_token_loop_here. rewrite (drop_S _ _ _ E). done.
  - rewrite (drop_ge t p) in * by (by apply lookup_ge_None).
    cbn [span_len] in *. rewrite Nat.add_0_r in *.
    by apply get_next_token_loop_here.
Qed.

Lemma scan_here_fuel rest : scan_here rest <> OutOfFuel.
Proof.
  destruct rest as [|c rest]; simpl; [done|].
  destruct (numchar c).
  - pose proof (number_token_fuel (c :: take (span_len numchar rest) rest)).
    by destruct (number_token _).
  - by destruct (punctuation c).
Qed.

(** The lexer's loops never use up their fuel. *)
Lemma get_next_token_fuel t p : get_next_token (at_pos t p) <> OutOfFuel.
Proof.
  rewrite get_next_token_scan. unfold scan.
  pose proof (scan_here_fuel (drop (span_len isspace (drop p t)) (drop p t))).
  destruct (scan_here _) as [[a n]|e|]; simpl; [done| by destruct e |done].
Qed.

(** ** Exponentiation *)

(** C1. The text "2 ^ 3 ^ 2" parses to the tree 2^(3^2), which is not the
    tree (2^3)^2, and with a host power function that gives 3^2 = 9.0 and
    2^9.0 = 512.0 the tree evaluates to the float 512.0, which the host's
    [==] equates with the int 512. *)
Theorem C1_power_right_associative
  (host_pow : spec_float -> spec_float -> outcome spec_float) :
  host_pow (float_of_Z 3) (float_of_Z 2) = Returns (float_of_Z 9) ->
  host_pow (float_of_Z 2) (float_of_Z 9) = Returns (float_of_Z 512) ->
  parse (str "2 ^ 3 ^ 2") = Returns (Power (Int 2) (Power (Int 3) (Int 2)))
  /\ Power (Int 2) (Power (Int 3) (Int 2)) <> Power (Power (Int 2) (Int 3)) (Int 2)
  /\ evaluate host_pow (Power (Int 2) (Power (Int 3) (Int 2)))
     = Returns (PyFloat (float_of_Z 512))
  /\ py_eq (PyFloat (float_of_Z 512)) (PyInt 512) = true.
Proof.
  intros H32 H29. split; [by vm_compute|]. split; [discriminate|].
  split; [|by vm_compute].
  cbn [evaluate Power Int int_token op_token value type bind].
  unfold math_pow. cbn [as_float bind].
  change (int_to_float 3) with (Returns (float_of_Z 3)).
  change (int_to_float 2) with (Returns (float_of_Z 2)).
  cbn [bind]. rewrite H32. cbn [bind as_float]. by rewrite H29.
Qed.

Lemma C1_power_right_associative_witness :
  parse (str "2 ^ 3 ^ 2") = Returns (Power (Int 2) (Power (Int 3) (Int 2)))
  /\ Power (Int 2) (Power (Int 3) (Int 2)) <> Power (Power (Int 2) (Int 3)) (Int 2)
  /\ evaluate power_by_multiplication (Power (Int 2) (Power (Int 3) (Int 2)))
     = Returns (PyFloat (float_of_Z 512))
  /\ py_eq (PyFloat (float_of_Z 512)) (PyInt 512) = true.
Proof.
  apply (C1_power_right_associative power_by_multiplication); vm_compute; reflexivity.
Defined.

(** ** Arithmetic of the evaluator *)

Lemma py_truediv_is_float x y v : py_truediv x y = Returns v -> is_float v = true.
Proof.
  unfold py_truediv. destruct x as [a|f], y as [b|g]; simpl.
  - destruct (int_true_divide a b); simpl; [by intros [= <-]|done..].
  - destruct (int_to_float a); simpl; [|done..].
    destruct (float_is_zero g); [done|by intros [= <-]].
  - destruct (int_to_float b) as [h| |]; simpl; [|done..].
    destruct (float_is_zero h); [done|by intros [= <-]].
  - destruct (float_is_zero g); [done|by intros [= <-]].
Qed.

Lemma int_true_divide_outcome a b :
  b <> 0 ->
  (exists f, int_true_divide a b = Returns f)
  \/ int_true_divide a b = Raises OverflowError.
Proof.
  intros Hb. unfold int_true_divide.
  destruct a as [|p|p], b as [|q|q]; try done; try (left; eexists; reflexivity);
    match goal with |- context [round_quotient ?s ?p ?q] =>
      destruct (round_quotient s p q); eauto end.
Qed.

(** C2, as the code has it.  The text "3 + 5 * (10 / 2)" evaluates to the
    float 28.0, through 10/2 = 5.0, 5*5.0 = 25.0 and 3+25.0 = 28.0.  Every
    value that a division node evaluates to is a float, never an int.  Two
    ints with a divisor other than zero give a float, or an overflow error
    when the quotient is beyond the range of a float. *)
Theorem C2_division_is_floating_point
  (host_pow : spec_float -> spec_float -> outcome spec_float) :
  (let* ast := parse (str "3 + 5 * (10 / 2)") in evaluate host_pow ast)
  = Returns (PyFloat (float_of_Z 28))
  /\ parse (str "3 + 5 * (10 / 2)")
     = Returns (Plus (Int 3) (Times (Int 5) (Divide (Int 10) (Int 2))))
  /\ py_truediv (PyInt 10) (PyInt 2) = Returns (PyFloat (float_of_Z 5))
  /\ py_mul (PyInt 5) (PyFloat (float_of_Z 5)) = Returns (PyFloat (float_of_Z 25))
  /\ py_add (PyInt 3) (PyFloat (float_of_Z 25)) = Returns (PyFloat (float_of_Z 28))
  /\ (forall l v r,
        match evaluate host_pow (BinOpNode l (mkToken DIV v) r) with
        | Returns x => is_float x = true
        | _ => True
        end)
  /\ (forall a b : Z,
        b = 0
        \/ (exists f, py_truediv (PyInt a) (PyInt b) = Returns (PyFloat f))
        \/ py_truediv (PyInt a) (PyInt b) = Raises OverflowError).
Proof.
  split; [by vm_compute|]. split; [by vm_compute|].
  split; [by vm_compute|]. split; [by vm_compute|]. split; [by vm_compute|].
  split.
  - intros l v r. cbn [evaluate type].
    destruct (evaluate host_pow l) as [x| |]; simpl; [|done..].
    destruct (evaluate host_pow r) as [y| |]; simpl; [|done..].
    destruct (py_eq y (PyInt 0)); [done|].
    destruct (py_truediv x y) eqn:E; [|done..]. by eapply py_truediv_is_float.
  - intros a b. destruct (decide (b = 0)) as [|Hb]; [by left|right].
    unfold py_truediv.
    destruct (int_true_divide_outcome a b Hb) as [[f ->]| ->]; simpl; eauto.
Qed.

(** C2 as stated fails on 10^309 / 1: no float is produced. *)
Lemma C2_counterexample :
  parse (huge ++ str " / 1") = Returns (Divide (Int (10 ^ 309)) (Int 1))
  /\ evaluate power_by_multiplication (Divide (Int (10 ^ 309)) (Int 1))
     = Raises OverflowError.
Proof. split; by vm_compute. Qed.

(** C3, as the code has it.  A division node whose right operand evaluates
    to zero never evaluates to a number: the left operand is evaluated first
    and its failure, if any, is the node's; otherwise the node fails with
    the division-by-zero error.  In particular "5/0" does. *)
Theorem C3_division_by_zero
  (host_pow : spec_float -> spec_float -> outcome spec_float)
  (l r : ASTNode) (op : Token) (right_val : pynumber) :
  type op = DIV ->
  evaluate host_pow r = Returns right_val ->
  py_eq right_val (PyInt 0) = true ->
  evaluate host_pow (BinOpNode l op r)
  = (let* _ := evaluate host_pow l in Raises DivisionByZero)
  /\ (forall left_val, evaluate host_pow l = Returns left_val ->
        evaluate host_pow (BinOpNode l op r) = Raises DivisionByZero)
  /\ (forall x, evaluate host_pow (BinOpNode l op r) <> Returns x)
  /\ (let* ast := parse (str "5/0") in evaluate host_pow ast)
     = Raises DivisionByZero.
Proof.
  intros Hop Hr Hz.
  assert (evaluate host_pow (BinOpNode l op r)
          = (let* _ := evaluate host_pow l in Raises DivisionByZero)) as H.
  { cbn [evaluate]. rewrite Hr, Hop.
    destruct (evaluate host_pow l); simpl; [by rewrite Hz|done..]. }
  split; [done|]. split; [|split].
  - intros left_val Hl. by rewrite H, Hl.
  - intros x. rewrite H. by destruct (evaluate host_pow l).
  - by vm_compute.
Qed.

Lemma C3_division_by_zero_witness :
  evaluate power_by_multiplication (Divide (Int 5) (Int 0))
  = (let* _ := evaluate power_by_multiplication (Int 5) in Raises DivisionByZero)
  /\ (forall left_val, evaluate power_by_multiplication (Int 5) = Returns left_val ->
        evaluate power_by_multiplication (Divide (Int 5) (Int 0))
        = Raises DivisionByZero)
  /\ (forall x, evaluate power_by_multiplication (Divide (Int 5) (Int 0)) <> Returns x)
  /\ (let* ast := parse (str "5/0") in evaluate power_by_multiplication ast)
     = Raises DivisionByZero.
Proof.
  apply (C3_division_by_zero power_by_multiplication (Int 5) (Int 0)
           (op_token DIV "/") (PyInt 0)); reflexivity.
Defined.

(** C3 as stated fails on (10^309 + 0.5) / 0: the right operand is zero and
    the node fails with the overflow error of its left operand. *)
Lemma C3_counterexample :
  parse (str "(" ++ huge ++ str " + 0.5) / 0")
  = Returns (Divide
               (Plus (Int (10 ^ 309))
                     (NumberNode (float_token (S754_finite false 4503599627370496 (-53)))))
               (Int 0))
  /\ evaluate power_by_multiplication (Int 0) = Returns (PyInt 0)
  /\ py_eq (PyInt 0) (PyInt 0) = true
  /\ evaluate power_by_multiplication
       (Divide
          (Plus (Int (10 ^ 309))
                (NumberNode (float_token (S754_finite false 4503599627370496 (-53)))))
          (Int 0))
     = Raises OverflowError.
Proof. repeat split; by vm_compute. Qed.

Lemma as_float_outcome x :
  (exists f, as_float x = Returns f) \/ as_float x = Raises OverflowError.
Proof.
  destruct x as [z|f]; simpl; [|by eauto].
  unfold int_to_float. destruct (binary_normalize _ _ _ _ _); eauto.
Qed.

(** C5, as the code has it.  For [+], [-] and [*]: two ints give the int of
    the exact operation; when an operand is a float and each operand is a
    float or an int within the range of a float, the result is the float of
    the rounded operation; when an operand is a float and the other an int
    beyond that range, the operation fails with an overflow error. *)
Theorem C5_integer_and_float_results
  (host_pow : spec_float -> spec_float -> outcome spec_float)
  (l r : ASTNode) (op : Token) (x y : pynumber) :
  In (type op) [PLUS; MINUS; MUL] ->
  evaluate host_pow l = Returns x ->
  evaluate host_pow r = Returns y ->
  (forall a b, x = PyInt a -> y = PyInt b ->
     evaluate host_pow (BinOpNode l op r) = Returns (PyInt (int_op (type op) a b)))
  /\ (is_float x || is_float y = true ->
      in_float_range x && in_float_range y = true ->
      exists f g, as_float x = Returns f /\ as_float y = Returns g
        /\ evaluate host_pow (BinOpNode l op r)
           = Returns (PyFloat (float_op (type op) f g)))
  /\ (is_float x || is_float y = true ->
      in_float_range x && in_float_range y = false ->
      evaluate host_pow (BinOpNode l op r) = Raises OverflowError).
Proof.
  intros Hop Hl Hr. cbn [evaluate]. rewrite Hl, Hr. cbn [bind].
  assert (match type op with
          | PLUS => py_add x y | MINUS => py_sub x y | MUL => py_mul x y
          | DIV => if py_eq y (PyInt 0) then Raises DivisionByZero else py_truediv x y
          | POW => math_pow host_pow x y
          | _ => Raises UnknownNodeError
          end
          = match x, y with
            | PyInt a, PyInt b => Returns (PyInt (int_op (type op) a b))
            | _, _ => let* f := as_float x in let* g := as_float y in
                      Returns (PyFloat (float_op (type op) f g))
            end) as ->.
  { simpl in Hop. destruct Hop as [<-|[<-|[<-|[]]]]; by destruct x, y. }
  unfold in_float_range. split; [|split].
  - by intros a b -> ->.
  - intros Hf Hc. destruct x as [a|f], y as [b|g]; try done; simpl in *.
    + destruct (int_to_float a) as [f| |]; [|done..]. by exists f, g.
    + destruct (int_to_float b) as [g| |]; [|done..]. by exists f, g.
    + by exists f, g.
  - intros Hf Hc. destruct x as [a|f], y as [b|g]; try done.
    + destruct (as_float_outcome (PyInt a)) as [[f E]|E]; rewrite E in *; done.
    + destruct (as_float_outcome (PyInt b)) as [[h E]|E]; rewrite E in *; done.
Qed.

Lemma C5_integer_and_float_results_witness :
  (forall a b, PyInt 3 = PyInt a -> PyFloat (float_of_Z 25) = PyInt b ->
     evaluate power_by_multiplication
       (Plus (Int 3) (NumberNode (float_token (float_of_Z 25))))
     = Returns (PyInt (int_op PLUS a b)))
  /\ (is_float (PyInt 3) || is_float (PyFloat (float_of_Z 25)) = true ->
      in_float_range (PyInt 3) && in_float_range (PyFloat (float_of_Z 25)) = true ->
      exists f g, as_float (PyInt 3) = Returns f
        /\ as_float (PyFloat (float_of_Z 25)) = Returns g
        /\ evaluate power_by_multiplication
             (Plus (Int 3) (NumberNode (float_token (float_of_Z 25))))
           = Returns (PyFloat (float_op PLUS f g)))
  /\ (is_float (PyInt 3) || is_float (PyFloat (float_of_Z 25)) = true ->
      in_float_range (PyInt 3) && in_float_range (PyFloat (float_of_Z 25)) = false ->
      evaluate power_by_multiplication
        (Plus (Int 3) (NumberNode (float_token (float_of_Z 25))))
      = Raises OverflowError).
Proof.
  apply (C5_integer_and_float_results power_by_multiplication
           (Int 3) (NumberNode (float_token (float_of_Z 25))) (op_token PLUS "+")
           (PyInt 3) (PyFloat (float_of_Z 25)));
    [simpl; tauto | reflexivity | reflexivity].
Defined.

(** C5 as stated fails on 10^309 + 0.5: an operand is a float and no float
    results. *)
Lemma C5_counterexample :
  parse (huge ++ str " + 0.5")
  = Returns (Plus (Int (10 ^ 309))
               (NumberNode (float_token (S754_finite false 4503599627370496 (-53)))))
  /\ evaluate power_by_multiplication
       (Plus (Int (10 ^ 309))
          (NumberNode (float_token (S754_finite false 4503599627370496 (-53)))))
     = Raises OverflowError.
Proof. split; by vm_compute. Qed.

(** ** Classes of characters *)

Ltac by_cases_on_char c :=
  destruct c as [[|] [|] [|] [|] [|] [|] [|] [|]]; vm_compute; try reflexivity;
  try discriminate; intuition discriminate.

Lemma ascii_digit_classes c :
  is_ascii_digit c = true ->
  isdigit c = true /\ isspace c = false /\ numchar c = true
  /\ Ascii.eqb "." c = false.
Proof. by_cases_on_char c. Qed.

Lemma isspace_classes c :
  isspace c = true -> numchar c = false /\ punctuation c = None.
Proof. by_cases_on_char c. Qed.

Lemma uint_of_char_digit c d d' :
  uint_of_char c (Some d) = Some d' -> is_ascii_digit c = true.
Proof. by_cases_on_char c. Qed.

Lemma uint_of_string_digits s u :
  NilEmpty.uint_of_string (string_of_list_ascii s) = Some u ->
  forallb is_ascii_digit s = true.
Proof.
  revert u. induction s as [|c s IH]; intros u; simpl; [done|].
  destruct (NilEmpty.uint_of_string (string_of_list_ascii s)) as [d|] eqn:E.
  - intros H%uint_of_char_digit. rewrite H. simpl. by eapply IH.
  - by destruct c as [[|] [|] [|] [|] [|] [|] [|] [|]].
Qed.

(** ** Texts that hold a single token *)

Lemma scan_spaces ws :
  forallb isspace ws = true -> scan ws = Returns (mkToken EOF VNone, length ws).
Proof.
  intros H. unfold scan.
  pose proof (span_len_all isspace ws [] H) as Hs. rewrite app_nil_r in Hs.
  rewrite Hs. simpl. rewrite Nat.add_0_r, drop_all. simpl. by rewrite Nat.add_0_r.
Qed.

Lemma span_len_spaces_then P ws l :
  forallb isspace ws = true ->
  (forall c, isspace c = true -> P c = false) ->
  span_len P (ws ++ l) = match ws with [] => span_len P l | _ => O end.
Proof.
  destruct ws as [|c ws]; [done|]. simpl. intros [Hc _]%andb_true_iff HP.
  by rewrite (HP c Hc).
Qed.

Lemma existsb_dot_digits ds :
  forallb is_ascii_digit ds = true -> existsb (Ascii.eqb ".") ds = false.
Proof.
  induction ds as [|c ds IH]; cbn [existsb forallb]; [done|].
  intros [Hc H]%andb_true_iff.
  destruct (ascii_digit_classes c Hc) as (_ & _ & _ & ->). by apply IH.
Qed.

Lemma forallb_digits_numchar ds :
  forallb is_ascii_digit ds = true -> forallb numchar ds = true.
Proof.
  induction ds as [|c ds IH]; simpl; [done|].
  intros [Hc H]%andb_true_iff.
  destruct (ascii_digit_classes c Hc) as (_ & _ & -> & _). by apply IH.
Qed.

(** A run of the digits 0 to 9 between white space is one NUMBER token that
    holds the int the run reads as, and nothing but the end comes after;
    a run longer than [int] accepts is refused. *)
Lemma scan_digits ws1 ds ws2 u :
  forallb isspace ws1 = true -> forallb isspace ws2 = true ->
  ds <> [] ->
  NilEmpty.uint_of_string (string_of_list_ascii ds) = Some u ->
  scan (ws1 ++ ds ++ ws2)
  = if (int_max_str_digits <? length ds)%nat then Raises (ValueError ds)
    else Returns (int_token (Z.of_N (N.of_uint u)),
                  (length ws1 + length ds)%nat).
Proof.
  intros H1 H2 Hne Hu.
  pose proof (uint_of_string_digits ds u Hu) as Hd.
  destruct ds as [|c ds]; [done|].
  pose proof Hd as Hd'. simpl in Hd'. apply andb_true_iff in Hd' as [Hc Hds].
  destruct (ascii_digit_classes c Hc) as (Hc1 & Hc2 & Hc3 & Hc4).
  unfold scan. rewrite (span_len_all isspace ws1 _ H1).
  cbn [app span_len]. rewrite Hc2, Nat.add_0_r.
  rewrite drop_app_length. cbn [scan_here]. rewrite Hc3.
  assert (span_len numchar (c :: ds ++ ws2) = length (c :: ds)) as ->.
  { change (c :: ds ++ ws2) with ((c :: ds) ++ ws2).
    rewrite (span_len_all numchar (c :: ds) ws2 (forallb_digits_numchar _ Hd)).
    rewrite <- (app_nil_r ws2) at 1.
    rewrite (span_len_spaces_then numchar ws2 []) by
      (try done; intros d Hd0; by apply isspace_classes).
    destruct ws2; simpl; lia. }
  change (c :: ds ++ ws2) with ((c :: ds) ++ ws2). rewrite take_app_length.
  unfold number_token. rewrite (existsb_dot_digits _ Hd).
  unfold py_int, NilZero.uint_of_string.
  change (string_of_list_ascii (c :: ds)) with (String c (string_of_list_ascii ds)) in *.
  rewrite Hu. by destruct (int_max_str_digits <? length (c :: ds))%nat.
Qed.

Lemma parse_fuel_S4 t : exists n, parse_fuel t = S (S (S (S n))).
Proof. unfold parse_fuel. exists (4 * length t)%nat. lia. Qed.

Lemma get_next_token_init t :
  get_next_token (Lexer_init t) = relocate t (scan t).
Proof.
  rewrite Lexer_init_at_pos, get_next_token_scan, drop_0.
  destruct (scan t) as [[a n]|e|]; simpl; [done| by destruct e |done].
Qed.

Lemma tokenize_relocate t :
  tokenize t
  = let* (token, self) := relocate t (scan t) in
    let* (tokens, _) := tokenize_loop (S (S (length t))) [] token self in
    Returns tokens.
Proof.
  unfold tokenize, Lexer_tokenize. rewrite get_next_token_init.
  destruct (relocate t (scan t)) as [[token self]|e|]; simpl; try done.
  by rewrite Nat.sub_0_r.
Qed.

(** The text of a number: the parser builds its node and stops. *)
Lemma parse_single_number t token n :
  type token = NUMBER ->
  scan t = Returns (token, n) ->
  scan (drop n t) = Returns (mkToken EOF VNone, (length t - n)%nat) ->
  parse t = Returns (NumberNode token).
Proof.
  intros Htype H1 H2. unfold parse, Parser_init.
  rewrite get_next_token_init, H1. cbn [relocate bind].
  destruct (parse_fuel_S4 t) as [fuel ->].
  unfold Parser_parse.
  cbn [expr term factor power current_token lexer]. rewrite Htype.
  unfold eat. cbn [current_token lexer]. rewrite Htype.
  rewrite bool_decide_eq_true_2 by done.
  rewrite get_next_token_scan, H2. cbn [offset relocate bind type current_token].
  destruct fuel; by cbn.
Qed.

(** ** Empty input *)

(** C10. On a text of white space only, the empty text among them, the
    first token the lexer gives is the end of the input, and so is every
    token asked of it afterwards; [tokenize] returns no token and raises
    nothing; [parse] fails with the syntax error of an unexpected end of
    the input. *)
Theorem C10_empty_input (ws : list ascii) :
  forallb isspace ws = true ->
  get_next_token (Lexer_init ws)
  = Returns (mkToken EOF VNone, at_pos ws (length ws))
  /\ get_next_token (at_pos ws (length ws))
     = Returns (mkToken EOF VNone, at_pos ws (length ws))
  /\ tokenize ws = Returns []
  /\ parse ws = Raises (SyntaxError (Unexpected EOF)).
Proof.
  intros Hws.
  assert (get_next_token (Lexer_init ws)
          = Returns (mkToken EOF VNone, at_pos ws (length ws))) as H0.
  { by rewrite get_next_token_init, (scan_spaces ws Hws). }
  split; [done|]. split; [|split].
  - rewrite get_next_token_scan, drop_all. cbn. by rewrite Nat.add_0_r.
  - rewrite tokenize_relocate, (scan_spaces ws Hws). by cbn.
  - unfold parse, Parser_init. rewrite H0. cbn [bind].
    destruct (parse_fuel_S4 ws) as [fuel ->]. by cbn.
Qed.

Lemma C10_empty_input_witness :
  get_next_token (Lexer_init [])
  = Returns (mkToken EOF VNone, at_pos [] (length (@nil ascii)))
  /\ get_next_token (at_pos [] (length (@nil ascii)))
     = Returns (mkToken EOF VNone, at_pos [] (length (@nil ascii)))
  /\ tokenize [] = Returns []
  /\ parse [] = Raises (SyntaxError (Unexpected EOF)).
Proof. apply (C10_empty_input []). reflexivity. Defined.

(** ** Integer literals *)

Lemma uint_of_string_zeros k s :
  NilEmpty.uint_of_string (string_of_list_ascii (repeat "0"%char k ++ s))
  = option_map (Nat.iter k Decimal.D0)
      (NilEmpty.uint_of_string (string_of_list_ascii s)).
Proof.
  induction k as [|k IH]; cbn [repeat app string_of_list_ascii NilEmpty.uint_of_string].
  - by destruct (NilEmpty.uint_of_string (string_of_list_ascii s)).
  - rewrite IH. by destruct (NilEmpty.uint_of_string (string_of_list_ascii s)).
Qed.

Lemma of_uint_zeros k u : N.of_uint (Nat.iter k Decimal.D0 u) = N.of_uint u.
Proof. induction k as [|k IH]; [done|]. simpl. exact IH. Qed.

Lemma decimal_not_nil n : decimal n <> [].
Proof.
  unfold decimal. destruct n as [|p]; [done|]. simpl.
  pose proof (DecimalPos.Unsigned.to_uint_nonnil p) as H.
  by destruct (Pos.to_uint p).
Qed.

(** C6, as the code has it.  A text that holds one integer literal and
    nothing else but white space around it, with any number of leading
    zeros: when the literal has at most 4300 digits, the leading zeros
    counted, the text parses to the node of the int it reads as, that node
    evaluates to the same int, and the lexer gives the one token of that
    int; when the literal has more digits, [int] refuses it at line 54, and
    [tokenize] and [parse] raise its ValueError. *)
Theorem C6_integer_literal
  (host_pow : spec_float -> spec_float -> outcome spec_float)
  (n : N) (zeros : nat) (ws1 ws2 : list ascii) :
  forallb isspace ws1 = true ->
  forallb isspace ws2 = true ->
  parse (ws1 ++ (repeat "0"%char zeros ++ decimal n) ++ ws2)
  = (if (int_max_str_digits <? length (repeat "0"%char zeros ++ decimal n))%nat
     then Raises (ValueError (repeat "0"%char zeros ++ decimal n))
     else Returns (Int (Z.of_N n)))
  /\ (let* ast := parse (ws1 ++ (repeat "0"%char zeros ++ decimal n) ++ ws2) in
      evaluate host_pow ast)
     = (if (int_max_str_digits <? length (repeat "0"%char zeros ++ decimal n))%nat
        then Raises (ValueError (repeat "0"%char zeros ++ decimal n))
        else Returns (PyInt (Z.of_N n)))
  /\ tokenize (ws1 ++ (repeat "0"%char zeros ++ decimal n) ++ ws2)
     = (if (int_max_str_digits <? length (repeat "0"%char zeros ++ decimal n))%nat
        then Raises (ValueError (repeat "0"%char zeros ++ decimal n))
        else Returns [int_token (Z.of_N n)]).
Proof.
  intros H1 H2.
  set (ds := repeat "0"%char zeros ++ decimal n).
  assert (NilEmpty.uint_of_string (string_of_list_ascii ds)
          = Some (Nat.iter zeros Decimal.D0 (N.to_uint n))) as Hu.
  { unfold ds, decimal. rewrite uint_of_string_zeros.
    by rewrite string_of_list_ascii_of_string, NilEmpty.usu. }
  assert (ds <> []) as Hne.
  { unfold ds. intros [_ H]%app_eq_nil. by apply (decimal_not_nil n). }
  pose proof (scan_digits ws1 ds ws2 _ H1 H2 Hne Hu) as Hs.
  rewrite of_uint_zeros, DecimalN.Unsigned.of_to in Hs.
  destruct (int_max_str_digits <? length ds)%nat.
  { assert (parse (ws1 ++ ds ++ ws2) = Raises (ValueError ds)) as Hp.
    { unfold parse, Parser_init. by rewrite get_next_token_init, Hs. }
    split; [done|]. split; [by rewrite Hp|].
    by rewrite tokenize_relocate, Hs. }
  assert (scan (drop (length ws1 + length ds) (ws1 ++ ds ++ ws2))
          = Returns (mkToken EOF VNone,
                     (length (ws1 ++ ds ++ ws2) - (length ws1 + length ds))%nat)) as He.
  { rewrite app_assoc, <- length_app, drop_app_length, (scan_spaces ws2 H2).
    do 2 f_equal. rewrite !length_app. lia. }
  assert (parse (ws1 ++ ds ++ ws2) = Returns (Int (Z.of_N n))) as Hp.
  { by apply (parse_single_number _ (int_token (Z.of_N n)) _ eq_refl Hs He). }
  split; [done|]. split; [by rewrite Hp|].
  rewrite tokenize_relocate, Hs. cbn [relocate bind tokenize_loop].
  rewrite bool_decide_eq_true_2 by done.
  rewrite get_next_token_scan, He. cbn [offset relocate bind].
  destruct (length (ws1 ++ ds ++ ws2)); by cbn.
Qed.

Lemma C6_integer_literal_witness :
  parse (str " " ++ (repeat "0"%char 2 ++ decimal 42) ++ str "  ")
  = Returns (Int (Z.of_N 42))
  /\ (let* ast := parse (str " " ++ (repeat "0"%char 2 ++ decimal 42) ++ str "  ") in
      evaluate power_by_multiplication ast)
     = Returns (PyInt (Z.of_N 42))
  /\ tokenize (str " " ++ (repeat "0"%char 2 ++ decimal 42) ++ str "  ")
     = Returns [int_token (Z.of_N 42)].
Proof.
  apply (C6_integer_literal power_by_multiplication 42 2 (str " ") (str "  "));
    reflexivity.
Defined.

(** C6 as stated fails on the literal of 4301 digits 1: the text consists
    solely of an integer literal, and [parse] raises the ValueError of [int]
    where an int should be the value. *)
Lemma C6_counterexample :
  parse (repeat "1"%char 4301) = Raises (ValueError (repeat "1"%char 4301))
  /\ forallb is_ascii_digit (repeat "1"%char 4301) = true.
Proof. split; by vm_compute. Qed.

(** ** Characters that are no part of any token *)

Lemma punctuation_type c token : punctuation c = Some token -> type token <> EOF.
Proof.
  unfold punctuation.
  repeat (destruct (Ascii.eqb c _); [by intros [= <-]|]). done.
Qed.

Lemma scan_here_bound rest token n :
  scan_here rest = Returns (token, n) ->
  (n <= length rest)%nat
  /\ match rest with
     | [] => type token = EOF /\ n = O
     | _ => type token <> EOF /\ (1 <= n)%nat
     end.
Proof.
  destruct rest as [|d rest]; cbn [scan_here].
  - intros [= <- <-]. by split.
  - destruct (numchar d) eqn:Ed.
    + pose proof (span_len_le numchar (d :: rest)) as Hle.
      assert (1 <= span_len numchar (d :: rest))%nat as Hge.
      { cbn [span_len]. rewrite Ed. lia. }
      unfold number_token.
      destruct (existsb _ _).
      * destruct (py_float _); cbn [bind]; [|done..]. by intros [= <- <-].
      * destruct (py_int _); cbn [bind]; [|done..]. by intros [= <- <-].
    + destruct (punctuation d) as [tok|] eqn:Ep; [|done].
      intros [= <- <-]. apply punctuation_type in Ep.
      cbn [length]. split; [lia|]. split; [done|lia].
Qed.

Lemma scan_bound rest token n :
  scan rest = Returns (token, n) ->
  (n <= length rest)%nat
  /\ (type token = EOF -> n = length rest)
  /\ (type token <> EOF -> (1 <= n)%nat).
Proof.
  unfold scan. pose proof (span_len_le isspace rest) as Hk.
  destruct (scan_here _) as [[tok m]|e|] eqn:E; cbn [offset]; [| by destruct e |done].
  intros [= <- <-]. apply scan_here_bound in E as [Hm Hne].
  rewrite length_drop in Hm. split; [lia|].
  destruct (drop (span_len isspace rest) rest) as [|d l] eqn:Ed.
  - apply (f_equal length) in Ed. rewrite length_drop in Ed. cbn [length] in Ed.
    destruct Hne as [Hne ->]. split; [intros _; lia|done].
  - destruct Hne as [Hne Hm1]. split; [done|lia].
Qed.





Lemma scan_not_consumed pre token n :
  scan pre = Returns (token, n) ->
  drop (span_len isspace pre) pre <> [] -> type token <> EOF.
Proof.
  unfold scan. intros H E.
  destruct (scan_here _) as [[tok m]|e|] eqn:Es; cbn [offset] in H;
    [| by destruct e |done].
  injection H as <- _. apply scan_here_bound in Es as [_ Hm].
  destruct (drop _ pre); [done|]. by destruct Hm.
Qed.



(** [tokenize] never runs out of fuel. *)
Lemma tokenize_loop_fuel fuel t tokens token p :
  (length t - p + 2 <= fuel)%nat ->
  tokenize_loop fuel tokens token (at_pos t p) <> OutOfFuel.
Proof.
  revert tokens token p.
  induction fuel as [|fuel IH]; intros tokens token p Hf; [lia|].
  cbn [tokenize_loop]. case_bool_decide; [|done].
  rewrite get_next_token_scan.
  pose proof (scan_here_fuel (drop (span_len isspace (drop p t)) (drop p t))) as Hs.
  destruct (scan (drop p t)) as [[tok n]|e|] eqn:Es.
  - cbn [offset relocate bind].
    apply scan_bound in Es as (Hn & Heof & Hne). rewrite length_drop in *.
    destruct (decide (type tok = EOF)) as [E|E].
    + destruct fuel; [lia|]. cbn [tokenize_loop].
      by rewrite bool_decide_eq_false_2 by (by intros H'; apply H').
    + apply IH. specialize (Hne E). lia.
  - by destruct e.
  - unfold scan in Es. destruct (scan_here _) as [[a m]|e|]; [done| by destruct e|done].
Qed.

Lemma tokenize_fuel t : tokenize t <> OutOfFuel.
Proof.
  rewrite tokenize_relocate.
  destruct (scan t) as [[tok n]|e|] eqn:Es; cbn [relocate bind]; [| done |].
  - pose proof (tokenize_loop_fuel (S (S (length t))) t [] tok n) as H.
    destruct (tokenize_loop _ _ _ _) as [[toks l]| |]; cbn; try done.
    exfalso. apply H; [lia|done].
  - unfold scan in Es.
    pose proof (scan_here_fuel (drop (span_len isspace t) t)) as Hs.
    destruct (scan_here _) as [[a m]|e|]; [done| by destruct e|done].
Qed.


(** ** Lexical errors *)




(** ** The parser reads the text from the lexer's position on *)

Lemma get_next_token_sim l1 l2 token l1' :
  same_rest l1 l2 -> get_next_token l1 = Returns (token, l1') ->
  exists l2', get_next_token l2 = Returns (token, l2') /\ same_rest l1' l2'.
Proof.
  intros (t1 & p1 & t2 & p2 & -> & -> & Hrest).
  rewrite !get_next_token_scan, Hrest.
  destruct (scan (drop p2 t2)) as [[tok n]|e|]; cbn [offset relocate];
    [| by destruct e |done].
  intros [= <- <-]. eexists. split; [done|].
  exists t1, (p1 + n)%nat, t2, (p2 + n)%nat. split; [done|]. split; [done|].
  by rewrite <- !drop_drop, Hrest.
Qed.

Lemma eat_sim token_type s1 s2 s1' :
  sim s1 s2 -> eat token_type s1 = Returns s1' ->
  exists s2', eat token_type s2 = Returns s2' /\ sim s1' s2'.
Proof.
  intros [Htok Hlex]. unfold eat. rewrite <- Htok.
  case_bool_decide; [|done].
  destruct (get_next_token (lexer s1)) as [[tok l1']|e|] eqn:E; cbn [bind]; [|done..].
  intros [= <-].
  destruct (get_next_token_sim _ _ _ _ Hlex E) as (l2' & -> & Hl). cbn [bind].
  eexists. split; [done|]. by split.
Qed.

Ltac sim_eat H s2 :=
  match type of H with
  | bind (eat ?ty ?s1) _ = Returns _ =>
      let E := fresh "E" in let s := fresh "s" in
      destruct (eat ty s1) as [s| |] eqn:E; cbn [bind] in H; [|done..];
      let Hs := fresh "Hs" in
      match goal with
      | Hsim : sim s1 s2 |- _ =>
          destruct (eat_sim ty s1 s2 s Hsim E) as (? & -> & Hs); cbn [bind]
      end
  end.

Ltac sim_call H IH s2 :=
  match type of H with
  | bind (?f ?s1) _ = Returns _ =>
      let E := fresh "E" in let s := fresh "s" in let nd := fresh "nd" in
      destruct (f s1) as [[nd s]| |] eqn:E; cbn [bind] in H; [|done..];
      let Hs := fresh "Hs" in
      match goal with
      | Hsim : sim s1 s2 |- _ =>
          destruct (IH s1 s2 nd s Hsim E) as (? & -> & Hs); cbn [bind]
      end
  end.

Lemma parser_sim fuel :
  simulates (power fuel) /\ simulates (factor fuel)
  /\ (forall node, simulates (term_loop fuel node)) /\ simulates (term fuel)
  /\ (forall node, simulates (expr_loop fuel node)) /\ simulates (expr fuel).
Proof.
  induction fuel as [|fuel (IHpower & IHfactor & IHterm_loop & IHterm
                            & IHexpr_loop & IHexpr)].
  { repeat split; intros; intros ? **; done. }
  repeat split.
  - (* power *)
    intros s1 s2 node s1' Hsim H. pose proof Hsim as [Htok _].
    cbn [power] in *. rewrite <- Htok.
    destruct (type (current_token s1)); try done.
    + sim_eat H s2. injection H as <- <-. eauto.
    + sim_eat H s2.
      match goal with Hs : sim s ?x |- _ => sim_call H IHexpr x end.
      match goal with Hs : sim s0 ?x |- _ => sim_eat H x end.
      injection H as <- <-. eauto.
  - (* factor *)
    intros s1 s2 node s1' Hsim H. cbn [factor] in *.
    sim_call H IHpower s2.
    match goal with Hs : sim s ?x |- _ => pose proof Hs as [Htok _] end.
    rewrite <- Htok. destruct (type (current_token s)).
    all: try (injection H as <- <-; eauto).
    match goal with Hs : sim s ?x |- _ => sim_eat H x end.
    match goal with Hs : sim s0 ?x |- _ => sim_call H IHfactor x end.
    injection H as <- <-. eauto.
  - (* term_loop *)
    intros node0 s1 s2 node s1' Hsim H. pose proof Hsim as [Htok _].
    cbn [term_loop] in *. rewrite <- Htok.
    destruct (type (current_token s1)).
    all: try (injection H as <- <-; eauto).
    + sim_call H IHfactor s2. by eapply IHterm_loop.
    + sim_eat H s2.
      match goal with Hs : sim s ?x |- _ => sim_call H IHfactor x end.
      by eapply IHterm_loop.
    + sim_eat H s2.
      match goal with Hs : sim s ?x |- _ => sim_call H IHfactor x end.
      by eapply IHterm_loop.
    + sim_call H IHfactor s2. by eapply IHterm_loop.
  - (* term *)
    intros s1 s2 node s1' Hsim H. cbn [term] in *.
    sim_call H IHfactor s2. by eapply IHterm_loop.
  - (* expr_loop *)
    intros node0 s1 s2 node s1' Hsim H. pose proof Hsim as [Htok _].
    cbn [expr_loop] in *. rewrite <- Htok.
    destruct (type (current_token s1)).
    all: try (injection H as <- <-; eauto).
    + sim_eat H s2.
      match goal with Hs : sim s ?x |- _ => sim_call H IHterm x end.
      by eapply IHexpr_loop.
    + sim_eat H s2.
      match goal with Hs : sim s ?x |- _ => sim_call H IHterm x end.
      by eapply IHexpr_loop.
  - (* expr *)
    intros s1 s2 node s1' Hsim H. cbn [expr] in *.
    sim_call H IHterm s2. by eapply IHexpr_loop.
Qed.

(** ** Unmatched parentheses *)

Lemma scan_open_paren body :
  scan ("("%char :: body) = Returns (op_token LPAREN "(", 1%nat).
Proof. reflexivity. Qed.

Lemma parse_open_paren body ast :
  parse body = Returns ast ->
  parse ("("%char :: body) = Raises (SyntaxError (Expected RPAREN EOF)).
Proof.
  unfold parse, Parser_init.
  rewrite (get_next_token_init ("("%char :: body)), scan_open_paren.
  cbn [relocate bind]. rewrite Lexer_init_at_pos.
  destruct (get_next_token (at_pos body 0)) as [[token0 l0]|e|] eqn:E0;
    cbn [bind]; [|done..].
  unfold Parser_parse.
  destruct (expr (parse_fuel body) {| lexer := l0; current_token := token0 |})
    as [[node s1']| |] eqn:E1; cbn [bind]; [|done..].
  case_bool_decide as Heof; [done|]. intros _.
  assert (parse_fuel ("("%char :: body) = S (S (S (S (parse_fuel body))))) as ->.
  { unfold parse_fuel. cbn [length]. lia. }
  cbn [expr term factor power current_token lexer op_token type].
  unfold eat at 1. cbn [current_token lexer type].
  rewrite bool_decide_eq_true_2 by done.
  assert (same_rest (at_pos body 0) (at_pos ("("%char :: body) 1)) as Hrest.
  { by exists body, O, ("("%char :: body), 1%nat. }
  destruct (get_next_token_sim _ _ _ _ Hrest E0) as (l2 & -> & Hl). cbn [bind].
  destruct (parser_sim (parse_fuel body)) as (_ & _ & _ & _ & _ & Hexpr).
  destruct (Hexpr {| lexer := l0; current_token := token0 |}
              {| lexer := l2; current_token := token0 |} _ _
              (conj eq_refl Hl) E1) as (s2' & -> & [Htok _]).
  cbn [bind]. unfold eat. rewrite <- Htok, Heof. by cbn.
Qed.

(** C8, as the code has it.  When the text after an opening parenthesis
    parses as a whole expression, the text with the parenthesis fails with
    the syntax error that names RPAREN as expected and the end of the input
    as found; so does "(1 + 2".  In [power], whenever the expression after
    an opening parenthesis has been parsed and the current token is no
    closing parenthesis, the failure names RPAREN as expected and the current
    token's category as found. *)
Theorem C8_unmatched_parenthesis (body : list ascii) (ast : ASTNode) :
  parse body = Returns ast ->
  parse ("("%char :: body) = Raises (SyntaxError (Expected RPAREN EOF))
  /\ parse (str "(1 + 2") = Raises (SyntaxError (Expected RPAREN EOF))
  /\ (forall fuel self self1 node self2,
        type (current_token self) = LPAREN ->
        eat LPAREN self = Returns self1 ->
        expr fuel self1 = Returns (node, self2) ->
        type (current_token self2) <> RPAREN ->
        power (S fuel) self
        = Raises (SyntaxError (Expected RPAREN (type (current_token self2))))).
Proof.
  intros Hbody. split; [by eapply parse_open_paren|]. split; [by vm_compute|].
  intros fuel self self1 node self2 Hl He Hx Hr.
  cbn [power]. rewrite Hl, He. cbn [bind]. rewrite Hx. cbn [bind].
  unfold eat. by rewrite bool_decide_eq_false_2.
Qed.

Lemma C8_unmatched_parenthesis_witness :
  parse ("("%char :: str "1 + 2") = Raises (SyntaxError (Expected RPAREN EOF))
  /\ parse (str "(1 + 2") = Raises (SyntaxError (Expected RPAREN EOF))
  /\ (forall fuel self self1 node self2,
        type (current_token self) = LPAREN ->
        eat LPAREN self = Returns self1 ->
        expr fuel self1 = Returns (node, self2) ->
        type (current_token self2) <> RPAREN ->
        power (S fuel) self
        = Raises (SyntaxError (Expected RPAREN (type (current_token self2))))).
Proof.
  apply (C8_unmatched_parenthesis (str "1 + 2") (Plus (Int 1) (Int 2))).
  reflexivity.
Defined.

(** C8 as stated fails on "(1 +": the opening parenthesis is unmatched and
    the syntax error names no expected RPAREN. *)
Lemma C8_counterexample :
  parse (str "(1 +") = Raises (SyntaxError (Unexpected EOF)).
Proof. by vm_compute. Qed.

(** ** Instances and runs *)

Lemma get_next_token_text t p token self :
  get_next_token (at_pos t p) = Returns (token, self) -> text self = t.
Proof.
  rewrite get_next_token_scan.
  destruct (scan _) as [[tok n]|e|]; cbn [offset relocate]; [| by destruct e|done].
  by intros [= _ <-].
Qed.

Lemma tokenize_in_result st t : result (tokenize_in st t) = tokenize t.
Proof.
  unfold tokenize_in, new_Lexer, call_tokenize, tokenize. cbn [lexers].
  rewrite lookup_total_insert_eq.
  by destruct (Lexer_tokenize (Lexer_init t)) as [[tokens self]| |].
Qed.

Lemma parse_in_result st t : result (parse_in st t) = parse t.
Proof.
  unfold parse_in, new_Lexer, new_Parser, call_parse, parse, Parser_init.
  cbn [lexers parsers]. rewrite lookup_total_insert_eq.
  destruct (get_next_token (Lexer_init t)) as [[token self]| |] eqn:E;
    cbn [bind result]; [|done..].
  cbn [lexers parsers]. rewrite !lookup_total_insert_eq. cbn [lexer].
  rewrite Lexer_init_at_pos in E. rewrite (get_next_token_text _ _ _ _ E).
  by destruct (Parser_parse _ _) as [[node self']| |].
Qed.

(** C9. A run of [tokenize] on a fresh lexer, and a run of [parse] on a
    fresh parser with a fresh lexer, give the outcome that the text alone
    determines, whatever instances the store holds and whatever state they
    are in: the token sequence or the tree of the text, or its error.  Two
    runs over the same text, one after the other or in different stores,
    give equal outcomes. *)
Theorem C9_runs_are_deterministic (text : list ascii) (st1 st2 : Store) :
  result (tokenize_in st1 text) = result (tokenize_in st2 text)
  /\ result (parse_in st1 text) = result (parse_in st2 text)
  /\ result (tokenize_in st1 text) = tokenize text
  /\ result (parse_in st1 text) = parse text
  /\ (forall tokens st, tokenize_in st1 text = Returns (tokens, st) ->
        result (tokenize_in st text) = Returns tokens)
  /\ (forall ast st, parse_in st1 text = Returns (ast, st) ->
        result (parse_in st text) = Returns ast).
Proof.
  rewrite !tokenize_in_result, !parse_in_result. repeat split.
  - intros tokens st H. rewrite tokenize_in_result.
    rewrite <- (tokenize_in_result st1), H. done.
  - intros ast st H. rewrite parse_in_result.
    rewrite <- (parse_in_result st1), H. done.
Qed.

(** What the freshness is for: a parser given the lexer that [tokenize] has
    run finds the end of the input at once. *)
Lemma used_lexer_is_at_the_end :
  (let '(l, st) := new_Lexer (str "1 + 2") (mkStore ∅ ∅) in
   let* (_, st) := call_tokenize l st in
   let* (p, st) := new_Parser l st in
   result (call_parse p st))
  = Raises (SyntaxError (Unexpected EOF))
  /\ parse (str "1 + 2") = Returns (Plus (Int 1) (Int 2)).
Proof. split; by vm_compute. Qed.

(** ** The parser never runs out of fuel *)

Lemma eat_progress token_type s :
  wf_parser s -> token_type <> EOF ->
  progresses 1 (fun s => let* s' := eat token_type s in Returns (tt, s')) s.
Proof.
  intros (t & p & Hl) Hty. unfold progresses, eat.
  case_bool_decide as Hcur; [|done].
  rewrite Hl, get_next_token_scan.
  pose proof (scan_here_fuel (drop (span_len isspace (drop p t)) (drop p t))) as Hf.
  destruct (scan (drop p t)) as [[tok n]|e|] eqn:Es; cbn [offset relocate bind].
  - apply scan_bound in Es as (Hn & _ & Hne). rewrite length_drop in Hn.
    split; [by exists t, (p + n)%nat|].
    unfold remaining. cbn [lexer current_token]. rewrite Hl. cbn [text pos at_pos].
    rewrite Hcur. destruct (decide (token_type = EOF)); [done|].
    destruct (decide (type tok = EOF)) as [|Hne']; [lia|].
    specialize (Hne Hne'). lia.
  - by destruct e.
  - unfold scan in Es. destruct (scan_here _) as [[a m]|e|]; [done|by destruct e|done].
Qed.

Ltac use_eat ty s :=
  let H := fresh "Heat" in
  pose proof (eat_progress ty s) as H; unfold progresses in H;
  destruct (eat ty s) as [?s| |]; cbn [bind] in *;
  [ destruct H as [?Hwf ?Hrem]; [done|done|] | done | by apply H ].

Ltac use_call IH f s :=
  let H := fresh "Hcall" in
  pose proof (IH s) as H; unfold progresses in H;
  destruct (f s) as [[?nd ?s]| |]; cbn [bind] in *;
  [ destruct H as [?Hwf ?Hrem]; [done|lia|] | done | apply H; [done|lia] ].

Lemma parser_fuel fuel :
  (forall s, wf_parser s -> (4 * remaining s + 1 <= fuel)%nat ->
     progresses 1 (power fuel) s)
  /\ (forall s, wf_parser s -> (4 * remaining s + 2 <= fuel)%nat ->
        progresses 1 (factor fuel) s)
  /\ (forall node s, wf_parser s -> (4 * remaining s + 3 <= fuel)%nat ->
        progresses 0 (term_loop fuel node) s)
  /\ (forall s, wf_parser s -> (4 * remaining s + 3 <= fuel)%nat ->
        progresses 1 (term fuel) s)
  /\ (forall node s, wf_parser s -> (4 * remaining s + 1 <= fuel)%nat ->
        progresses 0 (expr_loop fuel node) s)
  /\ (forall s, wf_parser s -> (4 * remaining s + 4 <= fuel)%nat ->
        progresses 1 (expr fuel) s).
Proof.
  induction fuel as [|fuel (IHpower & IHfactor & IHterm_loop & IHterm
                            & IHexpr_loop & IHexpr)].
  { repeat split; intros; lia. }
  repeat split.
  - (* power *)
    intros s Hwf Hf. unfold progresses. cbn [power].
    destruct (type (current_token s)) eqn:Hty; try done.
    + use_eat NUMBER s. split; [done|lia].
    + use_eat LPAREN s. use_call IHexpr (expr fuel) s0.
      use_eat RPAREN s1. split; [done|lia].
  - (* factor *)
    intros s Hwf Hf. unfold progresses. cbn [factor].
    use_call IHpower (power fuel) s.
    destruct (type (current_token s0)) eqn:Hty; try (split; [done|lia]).
    use_eat POW s0. use_call IHfactor (factor fuel) s1. split; [done|lia].
  - (* term_loop *)
    intros node s Hwf Hf. unfold progresses. cbn [term_loop].
    destruct (type (current_token s)) eqn:Hty; try (split; [done|lia]).
    + use_call IHfactor (factor fuel) s.
      pose proof (IHterm_loop (BinOpNode node (mkToken MUL (VStr "*")) nd) s0) as H.
      unfold progresses in H. destruct (term_loop fuel _ s0) as [[? ?]| |];
        [destruct H as [? ?]; [done|lia|]; split; [done|lia] | done | apply H; [done|lia]].
    + use_eat MUL s. use_call IHfactor (factor fuel) s0.
      pose proof (IHterm_loop (BinOpNode node (current_token s) nd) s1) as H.
      unfold progresses in H. destruct (term_loop fuel _ s1) as [[? ?]| |];
        [destruct H as [? ?]; [done|lia|]; split; [done|lia] | done | apply H; [done|lia]].
    + use_eat DIV s. use_call IHfactor (factor fuel) s0.
      pose proof (IHterm_loop (BinOpNode node (current_token s) nd) s1) as H.
      unfold progresses in H. destruct (term_loop fuel _ s1) as [[? ?]| |];
        [destruct H as [? ?]; [done|lia|]; split; [done|lia] | done | apply H; [done|lia]].
    + use_call IHfactor (factor fuel) s.
      pose proof (IHterm_loop (BinOpNode node (mkToken MUL (VStr "*")) nd) s0) as H.
      unfold progresses in H. destruct (term_loop fuel _ s0) as [[? ?]| |];
        [destruct H as [? ?]; [done|lia|]; split; [done|lia] | done | apply H; [done|lia]].
  - (* term *)
    intros s Hwf Hf. unfold progresses. cbn [term].
    use_call IHfactor (factor fuel) s.
    pose proof (IHterm_loop nd s0) as H.
    unfold progresses in H. destruct (term_loop fuel _ s0) as [[? ?]| |];
      [destruct H as [? ?]; [done|lia|]; split; [done|lia] | done | apply H; [done|lia]].
  - (* expr_loop *)
    intros node s Hwf Hf. unfold progresses. cbn [expr_loop].
    destruct (type (current_token s)) eqn:Hty; try (split; [done|lia]).
    + use_eat PLUS s. use_call IHterm (term fuel) s0.
      pose proof (IHexpr_loop (BinOpNode node (current_token s) nd) s1) as H.
      unfold progresses in H. destruct (expr_loop fuel _ s1) as [[? ?]| |];
        [destruct H as [? ?]; [done|lia|]; split; [done|lia] | done | apply H; [done|lia]].
    + use_eat MINUS s. use_call IHterm (term fuel) s0.
      pose proof (IHexpr_loop (BinOpNode node (current_token s) nd) s1) as H.
      unfold progresses in H. destruct (expr_loop fuel _ s1) as [[? ?]| |];
        [destruct H as [? ?]; [done|lia|]; split; [done|lia] | done | apply H; [done|lia]].
  - (* expr *)
    intros s Hwf Hf. unfold progresses. cbn [expr].
    use_call IHterm (term fuel) s.
    pose proof (IHexpr_loop nd s0) as H.
    unfold progresses in H. destruct (expr_loop fuel _ s0) as [[? ?]| |];
      [destruct H as [? ?]; [done|lia|]; split; [done|lia] | done | apply H; [done|lia]].
Qed.

(** [parse] never runs out of fuel: it returns a tree or raises. *)
Theorem parse_fuel_suffices (t : list ascii) : parse t <> OutOfFuel.
Proof.
  unfold parse, Parser_init. rewrite get_next_token_init.
  pose proof (scan_here_fuel (drop (span_len isspace t) t)) as Hs.
  destruct (scan t) as [[tok n]|e|] eqn:Es; cbn [relocate bind]; [|done|].
  - apply scan_bound in Es as (Hn & _ & Hne).
    destruct (parser_fuel (parse_fuel t)) as (_ & _ & _ & _ & _ & Hexpr).
    specialize (Hexpr {| lexer := at_pos t n; current_token := tok |}).
    unfold progresses, Parser_parse in *.
    destruct (expr _ _) as [[node s]| |]; cbn [bind].
    + by case_bool_decide.
    + done.
    + intros _. apply Hexpr; [by exists t, n|].
      unfold remaining, parse_fuel. cbn [lexer current_token text pos at_pos].
      destruct (decide (type tok = EOF)) as [|Hne']; [lia|].
      specialize (Hne Hne'). lia.
  - unfold scan in Es. destruct (scan_here _) as [[a m]|e|]; [done|by destruct e|done].
Qed.

(** ** The trees of the parser are those the evaluator expects *)

Lemma scan_number_valued rest token n :
  scan rest = Returns (token, n) -> number_valued token.
Proof.
  unfold scan. destruct (scan_here _) as [[tok m]|e|] eqn:E; cbn [offset];
    [| by destruct e |done].
  intros [= <- _]. unfold scan_here in E.
  destruct (drop _ rest) as [|c l]; [by injection E as <- _|].
  destruct (numchar c).
  - unfold number_token in E. destruct (existsb _ _).
    + destruct (py_float _); cbn [bind] in E; [|done..].
      injection E as <- _. intros _. by eexists.
    + destruct (py_int _); cbn [bind] in E; [|done..].
      injection E as <- _. intros _. by eexists.
  - destruct (punctuation c) as [tok'|] eqn:Ep; [|done]. injection E as <- _.
    unfold punctuation in Ep.
    repeat (destruct (Ascii.eqb c _); [by injection Ep as <-|]). done.
Qed.

Lemma eat_well_formed token_type s s' :
  (exists t p, lexer s = at_pos t p) ->
  eat token_type s = Returns s' ->
  (exists t p, lexer s' = at_pos t p) /\ number_valued (current_token s').
Proof.
  intros (t & p & Hl). unfold eat. case_bool_decide; [|done].
  rewrite Hl, get_next_token_scan.
  destruct (scan (drop p t)) as [[tok n]|e|] eqn:Es; cbn [offset relocate bind];
    [| by destruct e |done].
  intros [= <-]. split; [by eexists _, _|]. by eapply scan_number_valued.
Qed.

Ltac wf_eat H :=
  match type of H with
  | bind (eat ?ty ?s1) _ = Returns _ =>
      let E := fresh "E" in
      destruct (eat ty s1) as [?s| |] eqn:E; cbn [bind] in H; [|done..];
      apply eat_well_formed in E as [? ?]; [|done]
  end.

Ltac wf_call H IH :=
  match type of H with
  | bind (?f ?s1) _ = Returns _ =>
      let E := fresh "E" in
      destruct (f s1) as [[?nd ?s]| |] eqn:E; cbn [bind] in H; [|done..];
      apply IH in E as (? & ? & ?); [|done..]
  end.

Lemma parser_well_formed fuel :
  builds_well_formed (power fuel) /\ builds_well_formed (factor fuel)
  /\ (forall node, well_formed node -> builds_well_formed (term_loop fuel node))
  /\ builds_well_formed (term fuel)
  /\ (forall node, well_formed node -> builds_well_formed (expr_loop fuel node))
  /\ builds_well_formed (expr fuel).
Proof.
  induction fuel as [|fuel (IHpower & IHfactor & IHterm_loop & IHterm
                            & IHexpr_loop & IHexpr)].
  { unfold builds_well_formed.
    refine (conj _ (conj _ (conj _ (conj _ (conj _ _))))); intros; discriminate. }
  unfold builds_well_formed.
  refine (conj _ (conj _ (conj _ (conj _ (conj _ _))))).
  - (* power *)
    intros s node s' Hl Hv H. cbn [power] in H.
    destruct (type (current_token s)) eqn:Hty; try done.
    + wf_eat H. injection H as <- <-. cbn [well_formed]. auto.
    + wf_eat H. wf_call H IHexpr. wf_eat H. injection H as <- <-. auto.
  - (* factor *)
    intros s node s' Hl Hv H. cbn [factor] in H. wf_call H IHpower.
    destruct (type (current_token s0)) eqn:Hty.
    all: try (injection H as <- <-; auto).
    wf_eat H. wf_call H IHfactor. injection H as <- <-.
    cbn [well_formed]. rewrite Hty. cbn. auto 10.
  - (* term_loop *)
    intros node0 Hn s node s' Hl Hv H. cbn [term_loop] in H.
    destruct (type (current_token s)) eqn:Hty.
    all: try (injection H as <- <-; auto).
    + wf_call H IHfactor. eapply IHterm_loop in H; [done| |done..].
      cbn. auto 10.
    + wf_eat H. wf_call H IHfactor. eapply IHterm_loop in H; [done| |done..].
      cbn [well_formed]. rewrite Hty. cbn. auto 10.
    + wf_eat H. wf_call H IHfactor. eapply IHterm_loop in H; [done| |done..].
      cbn [well_formed]. rewrite Hty. cbn. auto 10.
    + wf_call H IHfactor. eapply IHterm_loop in H; [done| |done..].
      cbn. auto 10.
  - (* term *)
    intros s node s' Hl Hv H. cbn [term] in H. wf_call H IHfactor.
    by eapply IHterm_loop in H.
  - (* expr_loop *)
    intros node0 Hn s node s' Hl Hv H. cbn [expr_loop] in H.
    destruct (type (current_token s)) eqn:Hty.
    all: try (injection H as <- <-; auto).
    + wf_eat H. wf_call H IHterm. eapply IHexpr_loop in H; [done| |done..].
      cbn [well_formed]. rewrite Hty. cbn. auto 10.
    + wf_eat H. wf_call H IHterm. eapply IHexpr_loop in H; [done| |done..].
      cbn [well_formed]. rewrite Hty. cbn. auto 10.
  - (* expr *)
    intros s node s' Hl Hv H. cbn [expr] in H. wf_call H IHterm.
    by eapply IHexpr_loop in H.
Qed.

(** Every tree that [parse] returns is well formed. *)
Theorem parse_well_formed (t : list ascii) (ast : ASTNode) :
  parse t = Returns ast -> well_formed ast.
Proof.
  unfold parse, Parser_init. rewrite get_next_token_init.
  destruct (scan t) as [[tok n]|e|] eqn:Es; cbn [relocate bind]; [|done..].
  unfold Parser_parse.
  destruct (expr _ _) as [[node s]| |] eqn:E; cbn [bind]; [|done..].
  case_bool_decide; [done|]. intros [= <-].
  destruct (parser_well_formed (parse_fuel t)) as (_ & _ & _ & _ & _ & Hexpr).
  eapply Hexpr in E as (? & _); [done| by eexists _, _ |].
  by eapply scan_number_valued.
Qed.

Lemma not_defensive_at {A B} (e : Exn) :
  @Raises A e <> Raises UnknownNodeError /\ @Raises A e <> Raises TypeError ->
  @Raises B e <> Raises UnknownNodeError /\ @Raises B e <> Raises TypeError.
Proof. intros [H1 H2]. split; intros [= ->]; [by apply H1|by apply H2]. Qed.

(** On a well-formed tree the evaluator's defensive failures do not occur,
    unless the host's power function raises them. *)
Theorem evaluate_well_formed
  (host_pow : spec_float -> spec_float -> outcome spec_float) (ast : ASTNode) :
  (forall a b, host_pow a b <> Raises UnknownNodeError
               /\ host_pow a b <> Raises TypeError) ->
  well_formed ast ->
  evaluate host_pow ast <> Raises UnknownNodeError
  /\ evaluate host_pow ast <> Raises TypeError.
Proof.
  intros Hpow. induction ast as [token|l IHl op r IHr]; cbn [well_formed evaluate].
  - intros [_ [n ->]]. by split.
  - intros (Hop & Hwl & Hwr). specialize (IHl Hwl). specialize (IHr Hwr).
    destruct (evaluate host_pow l) as [x|e|]; cbn [bind]; [|by eapply not_defensive_at|done].
    destruct (evaluate host_pow r) as [y|e|]; cbn [bind]; [|by eapply not_defensive_at|done].
    assert (forall z, int_to_float z <> Raises UnknownNodeError
                      /\ int_to_float z <> Raises TypeError) as Hconv.
    { intros z. unfold int_to_float. by destruct (binary_normalize _ _ _ _ _). }
    cbn in Hop. destruct Hop as [<-|[<-|[<-|[<-|[<-|[]]]]]].
    + unfold py_add. destruct x as [a|fx], y as [b|fy]; cbn; try done.
      * pose proof (Hconv a). destruct (int_to_float a); cbn; [done|by eapply not_defensive_at|done].
      * pose proof (Hconv b). destruct (int_to_float b); cbn; [done|by eapply not_defensive_at|done].
    + unfold py_sub. destruct x as [a|fx], y as [b|fy]; cbn; try done.
      * pose proof (Hconv a). destruct (int_to_float a); cbn; [done|by eapply not_defensive_at|done].
      * pose proof (Hconv b). destruct (int_to_float b); cbn; [done|by eapply not_defensive_at|done].
    + unfold py_mul. destruct x as [a|fx], y as [b|fy]; cbn; try done.
      * pose proof (Hconv a). destruct (int_to_float a); cbn; [done|by eapply not_defensive_at|done].
      * pose proof (Hconv b). destruct (int_to_float b); cbn; [done|by eapply not_defensive_at|done].
    + destruct (py_eq y (PyInt 0)); [done|].
      unfold py_truediv. destruct x as [a|fx], y as [b|fy]; cbn.
      * unfold int_true_divide.
        destruct a, b; cbn; try done;
          match goal with |- context [round_quotient ?s ?p ?q] =>
            by destruct (round_quotient s p q) end.
      * pose proof (Hconv a). destruct (int_to_float a); cbn; [|by eapply not_defensive_at|done].
        by destruct (float_is_zero fy).
      * pose proof (Hconv b). destruct (int_to_float b) as [g| |]; cbn; [|by eapply not_defensive_at|done].
        by destruct (float_is_zero g).
      * by destruct (float_is_zero fy).
    + unfold math_pow.
      assert (forall v, as_float v <> Raises UnknownNodeError
                        /\ as_float v <> Raises TypeError) as Hf.
      { intros [z|f]; [|done]. apply Hconv. }
      pose proof (Hf x). pose proof (Hf y).
      destruct (as_float x) as [f| |]; cbn [bind]; [|by eapply not_defensive_at|done].
      destruct (as_float y) as [g| |]; cbn [bind]; [|by eapply not_defensive_at|done].
      specialize (Hpow f g). destruct (host_pow f g); cbn; [done|by eapply not_defensive_at|done].
Qed.

(** * Further properties *)

Lemma scan_fuel rest : scan rest <> OutOfFuel.
Proof.
  unfold scan. pose proof (scan_here_fuel (drop (span_len isspace rest) rest)).
  destruct (scan_here _) as [[a m]|e|]; [done|by destruct e|done].
Qed.

Lemma tokens_of_fuel f1 f2 rest :
  (length rest < f1)%nat -> (length rest < f2)%nat ->
  tokens_of f1 rest = tokens_of f2 rest.
Proof.
  revert f2 rest. induction f1 as [|f1 IH]; intros f2 rest H1 H2; [lia|].
  destruct f2 as [|f2]; [lia|]. cbn [tokens_of].
  destruct (scan rest) as [[tok n]|e|] eqn:Es; cbn [bind]; [|done..].
  case_bool_decide as Heof; [done|].
  apply scan_bound in Es as (Hn & _ & Hne). specialize (Hne Heof).
  rewrite (IH f2); [done|rewrite length_drop; lia..].
Qed.

(** The tokens of a text: the first one, then those of the text after it. *)
Lemma all_tokens_eq rest :
  all_tokens rest
  = let* (token, n) := scan rest in
    if bool_decide (type token = EOF) then Returns []
    else
      let* tokens := shift n (all_tokens (drop n rest)) in
      Returns (token :: tokens).
Proof.
  unfold all_tokens at 1. cbn [tokens_of].
  destruct (scan rest) as [[tok n]|e|] eqn:Es; cbn [bind]; [|done..].
  case_bool_decide as Heof; [done|].
  apply scan_bound in Es as (Hn & _ & Hne). specialize (Hne Heof).
  unfold all_tokens. rewrite (tokens_of_fuel (length rest) (S (length (drop n rest))));
    [done|rewrite length_drop; lia..].
Qed.

Lemma shift_shift {A} j k (r : outcome A) : shift j (shift k r) = shift (j + k) r.
Proof.
  destruct r as [a|e|]; cbn; [done| |done]. destruct e; cbn; try done.
  do 2 f_equal. lia.
Qed.

Lemma shift_0 {A} (r : outcome A) : shift 0 r = r.
Proof. destruct r as [a|e|]; cbn; [done| |done]. by destruct e. Qed.

Lemma offset_as_shift {A} k (r : outcome (A * nat)) :
  offset k r = let* (a, n) := shift k r in Returns (a, (k + n)%nat).
Proof. destruct r as [[a n]|e|]; cbn; [done| |done]. by destruct e. Qed.

Lemma tokenize_loop_all_tokens fuel t tokens token p :
  type token <> EOF -> (length t - p + 2 <= fuel)%nat ->
  (let* (tokens', _) := tokenize_loop fuel tokens token (at_pos t p) in
   Returns tokens')
  = let* rest := shift p (all_tokens (drop p t)) in
    Returns (tokens ++ token :: rest).
Proof.
  revert tokens token p.
  induction fuel as [|fuel IH]; intros tokens token p Htok Hf; [lia|].
  cbn [tokenize_loop]. rewrite bool_decide_eq_true_2 by done.
  rewrite get_next_token_scan, all_tokens_eq.
  destruct (scan (drop p t)) as [[tok n]|e|] eqn:Es; cbn [offset relocate bind shift].
  - apply scan_bound in Es as (Hn & Heof & Hne). rewrite length_drop in *.
    case_bool_decide as E.
    + destruct fuel; [lia|]. cbn [tokenize_loop].
      rewrite bool_decide_eq_false_2 by (by intros H'; apply H'). done.
    + rewrite IH by (try done; specialize (Hne E); lia).
      rewrite drop_drop.
      destruct (all_tokens (drop (p + n) t)) as [l|e|]; cbn; [| |done].
      * by rewrite <- app_assoc.
      * destruct e; cbn; try done. do 2 f_equal. lia.
  - by destruct e.
  - by apply scan_fuel in Es.
Qed.

(** [tokenize] gives the tokens of the text. *)
Lemma tokenize_all_tokens t : tokenize t = all_tokens t.
Proof.
  rewrite tokenize_relocate, all_tokens_eq.
  destruct (scan t) as [[tok n]|e|] eqn:Es; cbn [relocate bind]; [|done..].
  case_bool_decide as E.
  - cbn [tokenize_loop]. by rewrite bool_decide_eq_false_2 by (by intros H'; apply H').
  - rewrite tokenize_loop_all_tokens by (try done; lia). done.
Qed.

(** ** What a token is made of *)

Lemma span_len_take P l : forallb P (take (span_len P l) l) = true.
Proof.
  induction l as [|c l IH]; cbn; [done|].
  destruct (P c) eqn:E; cbn; [by rewrite E|done].
Qed.

Lemma span_len_short P l l' :
  (span_len P l < length l)%nat -> span_len P (l ++ l') = span_len P l.
Proof.
  induction l as [|c l IH]; cbn; [lia|].
  destruct (P c); [|done]. intros H. rewrite IH; [done|lia].
Qed.

Lemma drop_span_len_nil P l :
  drop (span_len P l) l = [] <-> span_len P l = length l.
Proof.
  pose proof (span_len_le P l). split.
  - intros E%(f_equal length). rewrite length_drop in E. cbn in E. lia.
  - intros ->. apply drop_all.
Qed.

Lemma scan_here_before_stop rest c tl :
  numchar c = false -> rest <> [] ->
  scan_here (rest ++ c :: tl) = scan_here rest.
Proof.
  intros Hn Hne. destruct rest as [|d rest]; [done|]. cbn [app scan_here].
  destruct (numchar d) eqn:Ed; [|done].
  change (d :: rest ++ c :: tl) with ((d :: rest) ++ c :: tl).
  rewrite (span_len_app_stop numchar _ _ _ Hn).
  rewrite take_app_le by apply span_len_le. done.
Qed.

(** A token that does not end the text is the same whatever follows the
    text, if what follows cannot be part of a number. *)
Lemma scan_before_stop pre c tl :
  numchar c = false -> drop (span_len isspace pre) pre <> [] ->
  scan (pre ++ c :: tl) = scan pre.
Proof.
  intros Hn Hne. unfold scan.
  assert (span_len isspace pre < length pre)%nat as Hlt.
  { pose proof (span_len_le isspace pre).
    destruct (decide (span_len isspace pre = length pre)) as [E|E]; [|lia].
    by apply drop_span_len_nil in E. }
  rewrite (span_len_short isspace pre _ Hlt).
  rewrite drop_app_le by lia.
  by rewrite scan_here_before_stop.
Qed.

(** White space before a text moves its tokens and changes nothing else. *)
Lemma scan_skip ws t :
  forallb isspace ws = true -> scan (ws ++ t) = offset (length ws) (scan t).
Proof.
  intros H. unfold scan. rewrite (span_len_all isspace ws t H).
  rewrite offset_offset. by rewrite <- drop_drop, drop_app_length.
Qed.

Lemma forallb_weaken (P Q : ascii -> bool) l :
  (forall c, P c = true -> Q c = true) ->
  forallb P l = true -> forallb Q l = true.
Proof.
  intros HPQ. induction l as [|c l IH]; cbn [forallb]; [done|].
  intros [Hc Hl]%andb_true_iff. by rewrite (HPQ c Hc), IH.
Qed.

Lemma isspace_valid c : isspace c = true -> valid_char c = true.
Proof. unfold valid_char. by intros ->. Qed.

Lemma numchar_valid c : numchar c = true -> valid_char c = true.
Proof.
  unfold valid_char, numchar. intros [-> | ->]%orb_true_iff;
    by rewrite ?orb_true_r.
Qed.

(** The characters that a token takes, white space before it included, are
    of the lexer's alphabet. *)
Lemma scan_returns_valid rest token n :
  scan rest = Returns (token, n) -> forallb valid_char (take n rest) = true.
Proof.
  unfold scan. pose proof (span_len_take isspace rest) as Hws.
  set (k := span_len isspace rest) in *.
  destruct (scan_here (drop k rest)) as [[tok m]|e|] eqn:E; cbn [offset];
    [| by destruct e|done].
  intros [= <- <-]. rewrite <- take_take_drop, forallb_app. apply andb_true_iff. split.
  - revert Hws. apply forallb_weaken, isspace_valid.
  - clear Hws. destruct (drop k rest) as [|c l] eqn:Ed; cbn [scan_here] in E.
    { by injection E as <- <-. }
    destruct (numchar c) eqn:Ec.
    + destruct (number_token _); cbn [bind] in E; [|done..]. injection E as _ <-.
      generalize (span_len_take numchar (c :: l)).
      apply forallb_weaken, numchar_valid.
    + destruct (punctuation c) as [tok'|] eqn:Ep; [|done]. injection E as _ <-.
      cbn [take forallb]. unfold valid_char. rewrite Ep. by rewrite !orb_true_r.
Qed.

Lemma scan_raises rest e :
  scan rest = Raises e ->
  let k := span_len isspace rest in
  (exists c, e = LexicalError c k /\ rest !! k = Some c /\ valid_char c = false)
  \/ (let run := take (span_len numchar (drop k rest)) (drop k rest) in
      e = ValueError run /\ number_token run = Raises e /\ run <> []).
Proof.
  unfold scan. set (k := span_len isspace rest).
  pose proof (span_len_stop isspace rest) as Hstop. fold k in Hstop.
  destruct (drop k rest) as [|c l] eqn:Ed; cbn [scan_here offset]; [done|].
  destruct (numchar c) eqn:Ec.
  - destruct (number_token _) as [tok|e'|] eqn:En; cbn [bind offset]; [done| |done].
    pose proof (number_token_raises _ _ En) as ->. cbn [offset]. intros [= <-].
    right. cbn zeta. split; [done|]. split; [done|].
    cbn [span_len]. rewrite Ec. by cbn.
  - destruct (punctuation c) as [tok|] eqn:Ep; cbn [offset]; [done|].
    intros [= <-]. left. exists c. rewrite Nat.add_0_r. split; [done|].
    split.
    + rewrite <- (Nat.add_0_r k), <- lookup_drop. by rewrite Ed.
    + unfold valid_char. unfold numchar in Ec.
      apply orb_false_iff in Ec as [-> ->]. by rewrite Hstop, Ep.
Qed.

(** ** Failures of the lexer *)

Lemma shift_raises {A} k (r : outcome A) e :
  shift k r = Raises e -> exists e', r = Raises e' /\ e = shift_error k e'.
Proof. destruct r as [a|e'|]; cbn; [done| |done]. intros [= <-]. by eexists. Qed.

Lemma tokens_of_raises fuel rest e :
  tokens_of fuel rest = Raises e ->
  exists n e', e = shift_error n e' /\ scan (drop n rest) = Raises e'
    /\ (n <= length rest)%nat /\ forallb valid_char (take n rest) = true.
Proof.
  revert rest e. induction fuel as [|fuel IH]; intros rest e; [done|].
  cbn [tokens_of].
  destruct (scan rest) as [[tok n]|e0|] eqn:Es; cbn [bind]; [| |done].
  - case_bool_decide as Heof; [done|].
    destruct (shift n (tokens_of fuel (drop n rest))) as [l|e1|] eqn:E;
      cbn [bind]; [done| |done].
    intros [= <-]. apply shift_raises in E as (e2 & E & ->).
    apply IH in E as (m & e' & -> & Hscan & Hm & Hvalid).
    pose proof (scan_returns_valid _ _ _ Es) as Hv.
    apply scan_bound in Es as (Hn & _ & _). rewrite length_drop in Hm.
    exists (n + m)%nat, e'. split; [|split; [|split]].
    + destruct e'; cbn; try done. f_equal. lia.
    + by rewrite <- drop_drop.
    + lia.
    + by rewrite <- take_take_drop, forallb_app, Hv, Hvalid.
  - intros [= <-]. exists O, e0. rewrite drop_0.
    split; [by destruct e0|]. split; [done|]. split; [lia|done].
Qed.

Lemma take_span_len_valid rest k :
  k = span_len isspace rest -> forallb valid_char (take k rest) = true.
Proof.
  intros ->. generalize (span_len_take isspace rest).
  apply forallb_weaken, isspace_valid.
Qed.

Lemma tokenize_lexical_error t c p :
  tokenize t = Raises (LexicalError c p) ->
  t !! p = Some c /\ valid_char c = false
  /\ forallb valid_char (take p t) = true.
Proof.
  rewrite tokenize_all_tokens. unfold all_tokens.
  intros (n & e' & He & Hscan & Hn & Hvalid)%tokens_of_raises.
  destruct (scan_raises _ _ Hscan) as [(d & -> & Hd & Hinv)|(-> & _)];
    [|done].
  cbn in He. injection He as -> ->. rewrite lookup_drop in Hd.
  split; [done|]. split; [done|].
  rewrite <- take_take_drop, forallb_app, Hvalid. cbn.
  by apply take_span_len_valid.
Qed.

Lemma tokenize_value_error t lit :
  tokenize t = Raises (ValueError lit) ->
  exists pre post,
    t = pre ++ lit ++ post
    /\ forallb valid_char pre = true
    /\ lit <> [] /\ forallb numchar lit = true
    /\ match post with c :: _ => numchar c = false | [] => True end
    /\ number_token lit = Raises (ValueError lit).
Proof.
  rewrite tokenize_all_tokens. unfold all_tokens.
  intros (n & e' & He & Hscan & Hn & Hvalid)%tokens_of_raises.
  destruct (scan_raises _ _ Hscan) as [(d & -> & _)|(-> & Hnum & Hne)];
    [done|].
  cbn in He. injection He as ->.
  set (k := span_len isspace (drop n t)) in *.
  set (m := span_len numchar (drop k (drop n t))) in *.
  exists (take (n + k) t), (drop m (drop k (drop n t))).
  split; [|split; [|split; [|split; [|split]]]].
  - rewrite take_drop, drop_drop. by rewrite take_drop.
  - rewrite <- take_take_drop, forallb_app, Hvalid. cbn.
    by apply take_span_len_valid.
  - done.
  - apply span_len_take.
  - apply span_len_stop.
  - done.
Qed.

Lemma tokenize_raises_only t e :
  tokenize t = Raises e ->
  (exists c p, e = LexicalError c p) \/ (exists lit, e = ValueError lit).
Proof.
  rewrite tokenize_all_tokens. unfold all_tokens.
  intros (n & e' & -> & Hscan & _)%tokens_of_raises.
  destruct (scan_raises _ _ Hscan) as [(d & -> & _)|(-> & _)]; cbn; eauto.
Qed.

(** ** The tokens of a text that tokenizes *)

Lemma scan_lexer_made rest token n :
  scan rest = Returns (token, n) -> type token <> EOF -> lexer_made token.
Proof.
  unfold scan. destruct (scan_here _) as [[tok m]|e|] eqn:E; cbn [offset];
    [| by destruct e |done].
  intros [= <- _]. unfold scan_here in E.
  destruct (drop _ rest) as [|c l]; [by injection E as <- _|].
  destruct (numchar c).
  - unfold number_token in E. destruct (existsb _ _).
    + destruct (py_float _); cbn [bind] in E; [|done..].
      injection E as <- _. intros _. left. split; [done|by eexists].
    + destruct (py_int _); cbn [bind] in E; [|done..].
      injection E as <- _. intros _. left. split; [done|by eexists].
  - destruct (punctuation c) as [tok'|] eqn:Ep; [|done]. injection E as <- _.
    intros _. right. by exists c.
Qed.

Lemma tokens_of_made fuel rest tokens :
  tokens_of fuel rest = Returns tokens ->
  Forall (fun token => type token <> EOF /\ lexer_made token) tokens
  /\ (length tokens <= length rest)%nat.
Proof.
  revert rest tokens. induction fuel as [|fuel IH]; intros rest tokens; [done|].
  cbn [tokens_of].
  destruct (scan rest) as [[tok n]|e0|] eqn:Es; cbn [bind]; [|done..].
  case_bool_decide as Heof. { intros [= <-]. split; [done|cbn; lia]. }
  destruct (tokens_of fuel (drop n rest)) as [l|e1|] eqn:E; cbn [shift bind];
    [|done..].
  intros [= <-]. apply IH in E as [Hall Hlen].
  pose proof (scan_lexer_made _ _ _ Es Heof).
  apply scan_bound in Es as (Hn & _ & Hne). specialize (Hne Heof).
  rewrite length_drop in Hlen. split; [by constructor|cbn; lia].
Qed.

(** ** Texts of integer arithmetic *)

Lemma plain_char_classes c :
  plain_char c = true ->
  valid_char c = true /\ (numchar c = true -> is_ascii_digit c = true).
Proof. by_cases_on_char c. Qed.

Lemma uint_of_char_ascii_digit c d :
  is_ascii_digit c = true -> exists d', uint_of_char c (Some d) = Some d'.
Proof.
  destruct c as [[|] [|] [|] [|] [|] [|] [|] [|]]; vm_compute;
    try discriminate; eauto.
Qed.

Lemma uint_of_string_of_digits s :
  forallb is_ascii_digit s = true ->
  exists u, NilEmpty.uint_of_string (string_of_list_ascii s) = Some u.
Proof.
  induction s as [|c s IH]; cbn [forallb string_of_list_ascii]; [by eexists|].
  intros [Hc Hs]%andb_true_iff. destruct (IH Hs) as [u Hu].
  cbn [NilEmpty.uint_of_string]. rewrite Hu. by apply uint_of_char_ascii_digit.
Qed.

(** A run of the digits 0 to 9 is the literal of an int, which [int]
    accepts if the run is not longer than its limit. *)
Lemma number_token_of_digits run :
  run <> [] -> forallb is_ascii_digit run = true ->
  exists z, number_token run
            = if (int_max_str_digits <? length run)%nat
              then Raises (ValueError run) else Returns (int_token z).
Proof.
  intros Hne Hd. unfold number_token. rewrite (existsb_dot_digits _ Hd).
  destruct (uint_of_string_of_digits run Hd) as [u Hu].
  unfold py_int, NilZero.uint_of_string.
  destruct run as [|c run]; [done|].
  change (string_of_list_ascii (c :: run))
    with (String c (string_of_list_ascii run)) in *.
  rewrite Hu. exists (Z.of_N (N.of_uint u)).
  by destruct (int_max_str_digits <? length (c :: run))%nat.
Qed.

Lemma span_len_longest_run P k (l : list ascii) :
  (span_len P (drop k l) <= longest_run P l)%nat.
Proof.
  revert k. induction l as [|c l IH]; intros k; [by destruct k|].
  destruct k as [|k]; cbn [drop longest_run]; [lia|].
  specialize (IH k). lia.
Qed.

Lemma longest_run_drop P k (l : list ascii) :
  (longest_run P (drop k l) <= longest_run P l)%nat.
Proof.
  revert k. induction l as [|c l IH]; intros k; [by destruct k|].
  destruct k as [|k]; [done|]. cbn [drop longest_run]. specialize (IH k). lia.
Qed.

Lemma span_len_plain l :
  forallb plain_char l = true -> span_len numchar l = span_len is_ascii_digit l.
Proof.
  induction l as [|c l IH]; cbn [forallb span_len]; [done|].
  intros [Hc Hl]%andb_true_iff. rewrite (IH Hl).
  destruct (plain_char_classes c Hc) as [_ Hd].
  destruct (is_ascii_digit c) eqn:E.
  - by destruct (ascii_digit_classes c E) as (_ & _ & -> & _).
  - destruct (numchar c); [|done]. specialize (Hd eq_refl). congruence.
Qed.

Lemma forallb_take (P : ascii -> bool) n l :
  forallb P l = true -> forallb P (take n l) = true.
Proof.
  revert n. induction l as [|c l IH]; intros [|n]; cbn; try done.
  intros [-> H]%andb_true_iff. by apply IH.
Qed.

Lemma forallb_drop (P : ascii -> bool) n l :
  forallb P l = true -> forallb P (drop n l) = true.
Proof.
  revert n. induction l as [|c l IH]; intros [|n]; cbn; try done.
  intros [_ H]%andb_true_iff. by apply IH.
Qed.

Lemma forallb_and (P Q : ascii -> bool) l :
  forallb P l = true -> forallb Q l = true ->
  forallb (fun c => P c && Q c) l = true.
Proof.
  induction l as [|c l IH]; cbn; [done|].
  intros [-> HP]%andb_true_iff [-> HQ]%andb_true_iff. by apply IH.
Qed.

Lemma scan_plain rest :
  forallb plain_char rest = true ->
  (longest_run is_ascii_digit rest <= int_max_str_digits)%nat ->
  exists token n, scan rest = Returns (token, n).
Proof.
  intros Hp Hrun. unfold scan. set (k := span_len isspace rest).
  pose proof (span_len_stop isspace rest) as Hstop. fold k in Hstop.
  pose proof (forallb_drop _ k _ Hp) as Hpk.
  pose proof (span_len_longest_run is_ascii_digit k rest) as Hk.
  rewrite <- (span_len_plain _ Hpk) in Hk.
  destruct (drop k rest) as [|c l] eqn:Ed; cbn [scan_here offset]; [by eexists _, _|].
  pose proof Hpk as Hpk'. cbn [forallb] in Hpk'.
  apply andb_true_iff in Hpk' as [Hc _].
  destruct (plain_char_classes c Hc) as [Hv Hdigit].
  destruct (numchar c) eqn:Ec.
  - destruct (number_token_of_digits (take (span_len numchar (c :: l)) (c :: l)))
      as [z ->].
    + cbn [span_len]. by rewrite Ec.
    + pose proof (forallb_and _ _ _ (span_len_take numchar (c :: l))
                    (forallb_take _ (span_len numchar (c :: l)) _ Hpk)) as H.
      revert H. apply forallb_weaken. intros d [Hd1 Hd2]%andb_true_iff.
      by apply plain_char_classes.
    + rewrite length_take, Nat.min_l by apply span_len_le.
      apply Nat.ltb_ge in Hk.
      assert ((int_max_str_digits <? span_len numchar (c :: l))%nat = false)
        as -> by (apply Nat.ltb_ge; apply Nat.ltb_ge in Hk; lia).
      cbn [bind offset]. by eexists _, _.
  - destruct (punctuation c) as [tok|] eqn:Ep; cbn; [by eexists _, _|].
    unfold valid_char in Hv. unfold numchar in Ec.
    apply orb_false_iff in Ec as [E1 E2]. by rewrite Hstop, E1, E2, Ep in Hv.
Qed.

Lemma tokens_of_plain fuel rest :
  (length rest < fuel)%nat -> forallb plain_char rest = true ->
  (longest_run is_ascii_digit rest <= int_max_str_digits)%nat ->
  exists tokens, tokens_of fuel rest = Returns tokens.
Proof.
  revert rest. induction fuel as [|fuel IH]; intros rest Hf Hp Hrun; [lia|].
  cbn [tokens_of]. destruct (scan_plain rest Hp Hrun) as (tok & n & Es). rewrite Es.
  cbn [bind]. case_bool_decide as Heof; [by eexists|].
  apply scan_bound in Es as (Hn & _ & Hne). specialize (Hne Heof).
  destruct (IH (drop n rest)) as [l ->];
    [rewrite length_drop; lia|by apply forallb_drop| |].
  { etrans; [apply longest_run_drop|done]. }
  cbn. by eexists.
Qed.

(** ** White space between two texts *)

Lemma shift_bind {A B} k (m : outcome A) (f : A -> outcome B) :
  shift k (bind m f) = bind (shift k m) (fun a => shift k (f a)).
Proof. by destruct m. Qed.

Lemma all_tokens_skip ws t :
  forallb isspace ws = true ->
  all_tokens (ws ++ t) = shift (length ws) (all_tokens t).
Proof.
  intros H. rewrite (all_tokens_eq (ws ++ t)), (all_tokens_eq t), (scan_skip _ _ H).
  destruct (scan t) as [[tok n]|e|]; cbn [offset bind shift]; [| by destruct e|done].
  case_bool_decide; [done|].
  rewrite <- drop_drop, drop_app_length, <- shift_shift.
  by destruct (shift n (all_tokens (drop n t))).
Qed.

Lemma all_tokens_spaces ws :
  forallb isspace ws = true -> all_tokens ws = Returns [].
Proof. intros H. by rewrite all_tokens_eq, (scan_spaces _ H). Qed.

Lemma all_tokens_separated fuel rest c t :
  isspace c = true -> (length rest < fuel)%nat ->
  all_tokens (rest ++ c :: t)
  = let* l1 := all_tokens rest in
    let* l2 := shift (S (length rest)) (all_tokens t) in
    Returns (l1 ++ l2).
Proof.
  intros Hc. revert rest. induction fuel as [|fuel IH]; intros rest Hf; [lia|].
  destruct (drop (span_len isspace rest) rest) as [|d l] eqn:Ed.
  - apply drop_span_len_nil in Ed.
    assert (forallb isspace rest = true) as Hws.
    { rewrite <- (take_ge rest (span_len isspace rest)) by lia.
      apply span_len_take. }
    rewrite (all_tokens_spaces _ Hws). cbn [bind app].
    change (rest ++ c :: t) with (rest ++ [c] ++ t). rewrite app_assoc.
    rewrite all_tokens_skip by (by rewrite forallb_app, Hws; cbn; rewrite Hc).
    rewrite length_app. cbn [length]. rewrite Nat.add_1_r.
    by destruct (shift _ _).
  - assert (numchar c = false) as Hn by (by apply isspace_classes).
    rewrite (all_tokens_eq (rest ++ c :: t)), (all_tokens_eq rest).
    rewrite scan_before_stop by (by rewrite ?Ed).
    destruct (scan rest) as [[tok n]|e|] eqn:Es; cbn [bind]; [|done..].
    assert (type tok <> EOF) as Hne.
    { apply (scan_not_consumed _ _ _ Es). by rewrite Ed. }
    rewrite bool_decide_eq_false_2 by done.
    apply scan_bound in Es as (Hle & _ & Hge). specialize (Hge Hne).
    rewrite drop_app_le by done.
    rewrite IH by (rewrite length_drop; lia). rewrite length_drop.
    destruct (all_tokens (drop n rest)) as [l1|e|]; cbn [bind shift]; [|done..].
    rewrite shift_bind, shift_shift. replace (n + S (length rest - n))%nat with (S (length rest)) by lia.
    by destruct (shift _ (all_tokens t)).
Qed.

(** ** Invariants of the parser *)

Section ParserInvariant.

Variable I : Parser -> Prop.
Variable T : ASTNode -> Prop.
Variable E : Exn -> Prop.

Hypothesis eat_I : forall token_type s,
  I s -> token_type <> EOF ->
  match eat token_type s with
  | Returns s' => I s'
  | Raises e => E e
  | OutOfFuel => True
  end.
Hypothesis syntax_E : forall what, E (SyntaxError what).
Hypothesis T_number : forall s,
  I s -> type (current_token s) = NUMBER -> T (NumberNode (current_token s)).
Hypothesis T_operator : forall s l r,
  I s -> is_operator (type (current_token s)) -> T l -> T r ->
  T (BinOpNode l (current_token s) r).
Hypothesis T_implicit : forall l r,
  T l -> T r -> T (BinOpNode l (mkToken MUL (VStr "*")) r).

Lemma maintains_bind_eat token_type s
  (k : Parser -> outcome (ASTNode * Parser)) :
  I s -> token_type <> EOF ->
  (forall s', I s' ->
     match k s' with
     | Returns (node, s'') => T node /\ I s''
     | Raises e => E e
     | OutOfFuel => True
     end) ->
  match bind (eat token_type s) k with
  | Returns (node, s'') => T node /\ I s''
  | Raises e => E e
  | OutOfFuel => True
  end.
Proof.
  intros Hs Hty Hk. pose proof (eat_I token_type s Hs Hty) as H.
  destruct (eat token_type s) as [s'| |]; cbn [bind]; [by apply Hk|done..].
Qed.

Lemma maintains_bind (T' : ASTNode -> Prop) f s
  (k : ASTNode * Parser -> outcome (ASTNode * Parser)) :
  maintains I T' E f -> I s ->
  (forall node s', T' node -> I s' ->
     match k (node, s') with
     | Returns (node', s'') => T node' /\ I s''
     | Raises e => E e
     | OutOfFuel => True
     end) ->
  match bind (f s) k with
  | Returns (node, s'') => T node /\ I s''
  | Raises e => E e
  | OutOfFuel => True
  end.
Proof.
  intros Hf Hs Hk. specialize (Hf s Hs).
  destruct (f s) as [[node s']| |]; cbn [bind]; [|done..].
  destruct Hf. by apply Hk.
Qed.

Lemma parser_invariant fuel :
  maintains I T E (power fuel) /\ maintains I T E (factor fuel)
  /\ (forall node, T node -> maintains I T E (term_loop fuel node))
  /\ maintains I T E (term fuel)
  /\ (forall node, T node -> maintains I T E (expr_loop fuel node))
  /\ maintains I T E (expr fuel).
Proof.
  induction fuel as [|fuel (IHpower & IHfactor & IHterm_loop & IHterm
                            & IHexpr_loop & IHexpr)].
  { unfold maintains.
    refine (conj _ (conj _ (conj _ (conj _ (conj _ _))))); intros; exact Logic.I. }
  refine (conj _ (conj _ (conj _ (conj _ (conj _ _))))).
  - (* power *)
    intros s Hs. cbn [power].
    destruct (type (current_token s)) eqn:Hty; try apply syntax_E.
    + apply maintains_bind_eat; [done..|]. intros s' Hs'. split; [|done].
      by apply T_number.
    + apply maintains_bind_eat; [done..|]. intros s' Hs'.
      apply (maintains_bind T); [done..|]. intros node s'' Hnode Hs''.
      apply maintains_bind_eat; [done..|]. intros s3 Hs3. by split.
  - (* factor *)
    intros s Hs. cbn [factor].
    apply (maintains_bind T); [done..|]. intros node s' Hnode Hs'.
    destruct (type (current_token s')) eqn:Hty; try by split.
    apply maintains_bind_eat; [done..|]. intros s'' Hs''.
    apply (maintains_bind T); [done..|]. intros node' s3 Hnode' Hs3.
    split; [|done]. apply T_operator; [done| |done..].
    rewrite Hty. unfold is_operator. cbn. tauto.
  - (* term_loop *)
    intros node Hnode s Hs. cbn [term_loop].
    destruct (type (current_token s)) eqn:Hty; try by split.
    + apply (maintains_bind T); [done..|]. intros node' s' Hnode' Hs'.
      apply IHterm_loop; [|done]. by apply T_implicit.
    + apply maintains_bind_eat; [done..|]. intros s' Hs'.
      apply (maintains_bind T); [done..|]. intros node' s'' Hnode' Hs''.
      apply IHterm_loop; [|done]. apply T_operator; [done| |done..].
      rewrite Hty. unfold is_operator. cbn. tauto.
    + apply maintains_bind_eat; [done..|]. intros s' Hs'.
      apply (maintains_bind T); [done..|]. intros node' s'' Hnode' Hs''.
      apply IHterm_loop; [|done]. apply T_operator; [done| |done..].
      rewrite Hty. unfold is_operator. cbn. tauto.
    + apply (maintains_bind T); [done..|]. intros node' s' Hnode' Hs'.
      apply IHterm_loop; [|done]. by apply T_implicit.
  - (* term *)
    intros s Hs. cbn [term].
    apply (maintains_bind T); [done..|]. intros node s' Hnode Hs'.
    by apply IHterm_loop.
  - (* expr_loop *)
    intros node Hnode s Hs. cbn [expr_loop].
    destruct (type (current_token s)) eqn:Hty; try by split.
    + apply maintains_bind_eat; [done..|]. intros s' Hs'.
      apply (maintains_bind T); [done..|]. intros node' s'' Hnode' Hs''.
      apply IHexpr_loop; [|done]. apply T_operator; [done| |done..].
      rewrite Hty. unfold is_operator. cbn. tauto.
    + apply maintains_bind_eat; [done..|]. intros s' Hs'.
      apply (maintains_bind T); [done..|]. intros node' s'' Hnode' Hs''.
      apply IHexpr_loop; [|done]. apply T_operator; [done| |done..].
      rewrite Hty. unfold is_operator. cbn. tauto.
  - (* expr *)
    intros s Hs. cbn [expr].
    apply (maintains_bind T); [done..|]. intros node s' Hnode Hs'.
    by apply IHexpr_loop.
Qed.

(** The same for a whole run of [parse], from the first token on. *)
Lemma parse_invariant t :
  (forall token n, scan t = Returns (token, n) ->
     I {| lexer := at_pos t n; current_token := token |}) ->
  (forall e, scan t = Raises e -> E e) ->
  match parse t with
  | Returns node => T node /\ exists s, I s /\ type (current_token s) = EOF
  | Raises e => E e
  | OutOfFuel => True
  end.
Proof.
  intros Hinit Hfail. unfold parse, Parser_init. rewrite get_next_token_init.
  destruct (scan t) as [[tok n]|e|] eqn:Es; cbn [relocate bind]; [| by apply Hfail|done].
  destruct (parser_invariant (parse_fuel t)) as (_ & _ & _ & _ & _ & Hexpr).
  specialize (Hexpr _ (Hinit _ _ eq_refl)). unfold Parser_parse.
  destruct (expr _ _) as [[node s]|e|]; cbn [bind]; [|done..].
  case_bool_decide as Heof; cbn; [apply syntax_E|].
  destruct Hexpr as [Hnode Hs]. split; [done|]. exists s. split; [done|].
  by destruct (decide (type (current_token s) = EOF)).
Qed.

End ParserInvariant.

(** ** The parser and the lexer fail alike *)

Lemma has_read_init t token n :
  scan t = Returns (token, n) ->
  has_read t {| lexer := at_pos t n; current_token := token |}.
Proof.
  intros Es. exists n, []. split; [done|]. cbn [current_token].
  rewrite all_tokens_eq, Es. cbn [bind].
  destruct (decide (type token = EOF)) as [E|E].
  - by rewrite bool_decide_eq_true_2.
  - by rewrite bool_decide_eq_false_2.
Qed.

Lemma has_read_eat t token_type s :
  has_read t s -> token_type <> EOF ->
  match eat token_type s with
  | Returns s' => has_read t s'
  | Raises e => parser_error t e
  | OutOfFuel => True
  end.
Proof.
  intros (p & before & Hl & Hall) Hty. unfold eat.
  case_bool_decide as Hcur; [|left; by eexists].
  destruct (decide (type (current_token s) = EOF)) as [E|E]; [congruence|].
  rewrite Hl, get_next_token_scan. rewrite (all_tokens_eq (drop p t)) in Hall.
  destruct (scan (drop p t)) as [[tok n]|e|] eqn:Es.
  - cbn [offset relocate bind].
    exists (p + n)%nat, (before ++ [current_token s]). split; [done|].
    cbn [current_token bind] in *. rewrite Hall.
    destruct (decide (type tok = EOF)) as [E'|E'].
    + rewrite bool_decide_eq_true_2 by done. by cbn.
    + rewrite bool_decide_eq_false_2 by done. rewrite drop_drop.
      rewrite shift_bind, shift_shift.
      destruct (shift (p + n) (all_tokens (drop (p + n) t))); cbn; [|done..].
      by rewrite <- ?app_assoc.
  - assert (relocate t (offset p (@Raises (Token * nat) e))
            = Raises (shift_error p e)) as -> by (by destruct e).
    cbn [bind]. right. by rewrite tokenize_all_tokens, Hall.
  - by apply scan_fuel in Es.
Qed.

Lemma parse_has_read t :
  match parse t with
  | Returns _ => exists tokens, tokenize t = Returns tokens
  | Raises e => parser_error t e
  | OutOfFuel => True
  end.
Proof.
  assert (match parse t with
          | Returns node =>
              True /\ exists s, has_read t s /\ type (current_token s) = EOF
          | Raises e => parser_error t e
          | OutOfFuel => True
          end) as H.
  { apply (parse_invariant (has_read t) (fun _ => True) (parser_error t)).
    - apply has_read_eat.
    - intros what. left. by eexists.
    - done.
    - done.
    - done.
    - apply has_read_init.
    - intros e Es. right. by rewrite tokenize_all_tokens, all_tokens_eq, Es. }
  destruct (parse t); [|done..].
  destruct H as (_ & s & (p & before & _ & Hall) & Heof).
  rewrite tokenize_all_tokens, Hall. destruct (decide _); [by eexists|done].
Qed.

(** ** Two parsers side by side *)

Lemma agrees_bind strict {A B} (Q : A -> A -> Prop) (Q' : B -> B -> Prop)
  (m1 m2 : outcome A) (k1 k2 : A -> outcome B) :
  agrees strict Q m1 m2 ->
  (forall a1 a2, Q a1 a2 -> agrees strict Q' (k1 a1) (k2 a2)) ->
  agrees strict Q' (bind m1 k1) (bind m2 k2).
Proof.
  intros Hm Hk.
  destruct m1 as [a1|e1|], m2 as [a2|e2|]; cbn in *; try done.
  - by apply Hk.
  - by destruct (k1 a1).
  - destruct (k2 a2); cbn; tauto.
Qed.

Lemma agrees_raises (strict : Prop) {A} (Q : A -> A -> Prop) e (r : outcome A) :
  ~ strict -> agrees strict Q (Raises e) r.
Proof. intros H. destruct r; cbn; tauto. Qed.

Section ParserSimulation.

Variable strict : Prop.
Variable R : Parser -> Parser -> Prop.

(** Related parsers hold the same token; or, when errors need not agree,
    the first is at the end and the second at a closing parenthesis; or the
    first holds a [*] that the second has not, before a number or an
    opening parenthesis that the second holds, and is related to the second
    once it has eaten its [*]. *)
Hypothesis R_token : forall s1 s2,
  R s1 s2 ->
  (current_token s1 = current_token s2
   \/ (~ strict /\ type (current_token s1) = EOF
       /\ type (current_token s2) = RPAREN))
  \/ (~ strict /\ current_token s1 = op_token MUL "*"
      /\ (type (current_token s2) = NUMBER \/ type (current_token s2) = LPAREN)
      /\ agrees strict R (eat MUL s1) (Returns s2)).
Hypothesis R_eat : forall token_type s1 s2,
  R s1 s2 -> current_token s1 = current_token s2 -> token_type <> EOF ->
  agrees strict R (eat token_type s1) (eat token_type s2).

Ltac same_branch s1 s2 HR :=
  let Htok := fresh "Htok" in
  let Hnext := fresh "Hnext" in
  let Hskip := fresh "Hskip" in
  destruct (R_token s1 s2 HR)
    as [[Htok|(? & Htok & ->)]|(? & Htok & Hnext & Hskip)];
  [ rewrite <- Htok | rewrite Htok | rewrite Htok ].

Ltac step_eat := apply (agrees_bind strict R); [by apply R_eat|]; intros ? ? ?.
Ltac step_call IH :=
  apply (agrees_bind strict (same_tree R)); [by apply IH|];
  intros [? ?] [? ?] [? ?]; simplify_eq/=.
Ltac either_value Hnext := cbn [op_token type]; destruct Hnext as [-> | ->].

Lemma parser_simulation fuel1 :
  forall fuel2,
    simulated strict R (power fuel1) (power fuel2)
    /\ simulated strict R (factor fuel1) (factor fuel2)
    /\ (forall node,
          simulated strict R (term_loop fuel1 node) (term_loop fuel2 node))
    /\ simulated strict R (term fuel1) (term fuel2)
    /\ (forall node,
          simulated strict R (expr_loop fuel1 node) (expr_loop fuel2 node))
    /\ simulated strict R (expr fuel1) (expr fuel2).
Proof.
  induction fuel1 as [|fuel1 IH]; intros fuel2.
  { unfold simulated.
    refine (conj _ (conj _ (conj _ (conj _ (conj _ _))))); intros; exact Logic.I. }
  destruct fuel2 as [|fuel2].
  { unfold simulated.
    refine (conj _ (conj _ (conj _ (conj _ (conj _ _))))); intros; cbn;
      match goal with |- agrees _ _ ?r _ => by destruct r end. }
  destruct (IH fuel2) as (IHpower & IHfactor & IHterm_loop & IHterm
                          & IHexpr_loop & IHexpr).
  clear IH. refine (conj _ (conj _ (conj _ (conj _ (conj _ _))))).
  - (* power *)
    intros s1 s2 HR. cbn [power].
    same_branch s1 s2 HR; [|by cbn|by apply agrees_raises].
    destruct (type (current_token s1)) eqn:Hty; try by cbn.
    + step_eat. by split.
    + step_eat. step_call IHexpr.
      match goal with H : R ?x ?y |- _ =>
        destruct (R_token x y H) as [[Htok'|(? & Htok' & _)]|(? & Htok' & _)] end.
      * step_eat. by split.
      * unfold eat at 1. rewrite Htok'.
        rewrite bool_decide_eq_false_2 by done. by apply agrees_raises.
      * unfold eat at 1. rewrite Htok'.
        rewrite bool_decide_eq_false_2 by done. by apply agrees_raises.
  - (* factor *)
    intros s1 s2 HR. cbn [factor]. step_call IHpower.
    match goal with H : R ?x ?y |- _ => same_branch x y H end;
      [|by split|by either_value Hnext].
    match goal with |- context [type (current_token ?x)] =>
      destruct (type (current_token x)) eqn:Hty end; try by split.
    step_eat. step_call IHfactor. by split.
  - (* term_loop *)
    intros node s1 s2 HR. cbn [term_loop]. same_branch s1 s2 HR; [|by split|].
    + destruct (type (current_token s1)) eqn:Hty; try by split.
      * step_call IHfactor. by apply IHterm_loop.
      * step_eat. step_call IHfactor. by apply IHterm_loop.
      * step_eat. step_call IHfactor. by apply IHterm_loop.
      * step_call IHfactor. by apply IHterm_loop.
    + (* the first parser eats its [*], the second multiplies without *)
      cbn [op_token type].
      either_value Hnext.
      all: match goal with
           | |- agrees _ _ _ (bind (factor ?f ?x) ?k) =>
               refine (agrees_bind strict R (same_tree R) (eat MUL s1) (Returns x)
                         _ (fun self => bind (factor f self) k) Hskip _)
           end;
           intros ? ? ?; cbn beta; step_call IHfactor; by apply IHterm_loop.
  - (* term *)
    intros s1 s2 HR. cbn [term]. step_call IHfactor. by apply IHterm_loop.
  - (* expr_loop *)
    intros node s1 s2 HR. cbn [expr_loop].
    same_branch s1 s2 HR; [|by split|by either_value Hnext].
    destruct (type (current_token s1)) eqn:Hty; try by split.
    + step_eat. step_call IHterm. by apply IHexpr_loop.
    + step_eat. step_call IHterm. by apply IHexpr_loop.
  - (* expr *)
    intros s1 s2 HR. cbn [expr]. step_call IHterm. by apply IHexpr_loop.
Qed.

End ParserSimulation.

(** ** The tree depends on the tokens only *)

Lemma scan_eof_token rest token n :
  scan rest = Returns (token, n) -> type token = EOF -> token = mkToken EOF VNone.
Proof.
  unfold scan. destruct (scan_here _) as [[tok m]|e|] eqn:E; cbn [offset];
    [| by destruct e |done].
  intros [= <- _] Heof. pose proof (scan_here_bound _ _ _ E) as [_ Hb].
  destruct (drop _ rest) as [|c l] eqn:Ed; [|by destruct Hb].
  cbn in E. by injection E as <- _.
Qed.

Lemma all_tokens_returns rest l :
  all_tokens rest = Returns l ->
  exists token n,
    scan rest = Returns (token, n)
    /\ ((token = mkToken EOF VNone /\ l = [])
        \/ (type token <> EOF
            /\ exists l', all_tokens (drop n rest) = Returns l'
                          /\ l = token :: l')).
Proof.
  rewrite all_tokens_eq.
  destruct (scan rest) as [[tok n]|e|] eqn:Es; cbn [bind]; [|done..].
  exists tok, n. split; [done|]. case_bool_decide as Heof.
  - injection H as <-. left. split; [|done]. by eapply scan_eof_token.
  - right. split; [done|].
    destruct (all_tokens (drop n rest)) as [l'|e|]; cbn in H; [|done..].
    injection H as <-. by exists l'.
Qed.

Lemma same_tokens_eat token_type s1 s2 :
  same_tokens s1 s2 -> token_type <> EOF ->
  agrees True same_tokens (eat token_type s1) (eat token_type s2).
Proof.
  intros (Htok & t1 & p1 & t2 & p2 & Hl1 & Hl2 & Hrest) Hty.
  unfold eat. rewrite <- Htok. case_bool_decide as Hcur; [|by cbn].
  destruct Hrest as [Heof|(l & H1 & H2)]; [congruence|].
  rewrite Hl1, Hl2, !get_next_token_scan.
  apply all_tokens_returns in H1 as (tok1 & n1 & -> & H1).
  apply all_tokens_returns in H2 as (tok2 & n2 & -> & H2).
  cbn [offset relocate bind agrees current_token lexer].
  destruct H1 as [[-> ->]|(Hne1 & l1 & H1 & ->)],
           H2 as [[-> E2]|(Hne2 & l2 & H2 & E2)]; try done.
  - split; [done|]. exists t1, (p1 + n1)%nat, t2, (p2 + n2)%nat.
    do 2 (split; [done|]). by left.
  - injection E2 as <- <-. split; [done|].
    exists t1, (p1 + n1)%nat, t2, (p2 + n2)%nat.
    do 2 (split; [done|]). right. exists l1. by rewrite <- !drop_drop.
Qed.

Lemma parse_of_scan t token n :
  scan t = Returns (token, n) ->
  parse t
  = let* (node, self) :=
      expr (parse_fuel t) {| lexer := at_pos t n; current_token := token |} in
    if bool_decide (type (current_token self) <> EOF) then error EndExpected
    else Returns node.
Proof.
  intros Es. unfold parse, Parser_init, Parser_parse.
  rewrite get_next_token_init, Es. cbn [relocate bind].
  destruct (expr _ _) as [[node s]| |]; cbn [bind]; [|done..].
  by case_bool_decide.
Qed.

Lemma parse_same_tokens t1 t2 tokens :
  tokenize t1 = Returns tokens -> tokenize t2 = Returns tokens ->
  parse t1 = parse t2.
Proof.
  rewrite !tokenize_all_tokens. intros H1 H2.
  pose proof (parse_fuel_suffices t1) as Hf1.
  pose proof (parse_fuel_suffices t2) as Hf2.
  destruct (all_tokens_returns _ _ H1) as (tok1 & n1 & Es1 & H1').
  destruct (all_tokens_returns _ _ H2) as (tok2 & n2 & Es2 & H2').
  rewrite (parse_of_scan _ _ _ Es1), (parse_of_scan _ _ _ Es2) in *.
  assert (same_tokens {| lexer := at_pos t1 n1; current_token := tok1 |}
                      {| lexer := at_pos t2 n2; current_token := tok2 |}) as HR.
  { destruct H1' as [[-> ->]|(Hne1 & l1 & H1' & ->)],
             H2' as [[-> E2]|(Hne2 & l2 & H2' & E2)]; try done.
    - split; [done|]. exists t1, n1, t2, n2. do 2 (split; [done|]). by left.
    - injection E2 as <- <-. split; [done|]. exists t1, n1, t2, n2.
      do 2 (split; [done|]). right. by exists l1. }
  destruct (parser_simulation True same_tokens) with
    (fuel1 := parse_fuel t1) (fuel2 := parse_fuel t2)
    as (_ & _ & _ & _ & _ & Hexpr).
  { intros s1 s2 [Htok _]. left. by left. }
  { intros token_type s1 s2 Hs _. by apply same_tokens_eat. }
  specialize (Hexpr _ _ HR). unfold agrees, same_tree in Hexpr.
  destruct (expr (parse_fuel t1) _) as [[node1 s1]|e1|],
           (expr (parse_fuel t2) _) as [[node2 s2]|e2|];
    cbn [bind] in *; try done.
  - destruct Hexpr as [Hnode [Htok _]]. cbn in Hnode, Htok. subst node2.
    by rewrite Htok.
  - by rewrite Hexpr.
Qed.

(** ** A text in parentheses *)

Lemma scan_before_close rest tl :
  scan (rest ++ ")"%char :: tl)
  = match scan rest with
    | Returns (token, n) =>
        if bool_decide (type token = EOF)
        then Returns (mkToken RPAREN (VStr ")"), S n)
        else Returns (token, n)
    | r => r
    end.
Proof.
  destruct (drop (span_len isspace rest) rest) as [|d l] eqn:Ed.
  - apply drop_span_len_nil in Ed.
    assert (forallb isspace rest = true) as Hws.
    { rewrite <- (take_ge rest (span_len isspace rest)) by lia.
      apply span_len_take. }
    rewrite (scan_skip _ _ Hws), (scan_spaces _ Hws).
    assert (scan (")"%char :: tl) = Returns (mkToken RPAREN (VStr ")"), 1%nat))
      as -> by reflexivity.
    cbn [type]. rewrite bool_decide_eq_true_2 by done. cbn [offset].
    by rewrite Nat.add_1_r.
  - rewrite scan_before_stop by (by rewrite ?Ed).
    destruct (scan rest) as [[tok n]|e|] eqn:Es; [|done..].
    rewrite bool_decide_eq_false_2; [done|].
    apply (scan_not_consumed _ _ _ Es). by rewrite Ed.
Qed.

Lemma before_closing_token pre body tl s1 s2 :
  before_closing pre body tl s1 s2 ->
  current_token s1 = current_token s2
  \/ (~ False /\ type (current_token s1) = EOF
      /\ type (current_token s2) = RPAREN).
Proof.
  intros [(Htok & _)|(H1 & H2 & _)]; [by left|right].
  rewrite H2. by split; [intros []|].
Qed.

Lemma before_closing_eat pre body tl token_type s1 s2 :
  before_closing pre body tl s1 s2 -> token_type <> EOF ->
  agrees False (before_closing pre body tl)
    (eat token_type s1) (eat token_type s2).
Proof.
  intros [(Htok & Hne & p & Hp & Hl1 & Hl2)|(Heof & Htok & Hl2)] Hty.
  - unfold eat. rewrite <- Htok. case_bool_decide as Hcur; [|by cbn].
    rewrite Hl1, Hl2, !get_next_token_scan.
    rewrite <- drop_drop, drop_app_length.
    rewrite drop_app_le by done. rewrite scan_before_close.
    destruct (scan (drop p body)) as [[tok n]|e|] eqn:Es;
      [|by destruct e; cbn|by cbn].
    apply scan_bound in Es as (Hn & Hend & _). rewrite length_drop in *.
    case_bool_decide as Heof; cbn [offset relocate bind agrees].
    + right. cbn [current_token lexer]. split; [done|]. split; [done|].
      specialize (Hend Heof). f_equal. lia.
    + left. cbn [current_token lexer]. split; [done|]. split; [done|].
      exists (p + n)%nat. split; [lia|]. split; [done|]. f_equal. lia.
  - unfold eat at 1. rewrite bool_decide_eq_false_2 by congruence.
    unfold error. destruct (eat token_type s2); cbn; tauto.
Qed.

(** The run of [expr] on a text that parses, and its run on the same text
    with a closing parenthesis after it. *)
Lemma expr_before_closing pre body tl ast fuel2 tok0 n0 :
  parse body = Returns ast -> scan body = Returns (tok0, n0) ->
  type tok0 <> EOF
  /\ match expr fuel2 {| lexer := at_pos (pre ++ body ++ ")"%char :: tl)
                                         (length pre + n0);
                         current_token := tok0 |} with
     | Returns (node, s2) =>
         node = ast /\ current_token s2 = mkToken RPAREN (VStr ")")
         /\ lexer s2 = at_pos (pre ++ body ++ ")"%char :: tl)
                              (length pre + length body + 1)
     | Raises _ => False
     | OutOfFuel => True
     end.
Proof.
  intros Hbody Es0. rewrite (parse_of_scan _ _ _ Es0) in Hbody.
  destruct (expr (parse_fuel body) _) as [[node s1']| |] eqn:E1;
    cbn [bind] in Hbody; [|done..].
  case_bool_decide as Hend; [done|]. injection Hbody as ->.
  assert (type (current_token s1') = EOF) as Heof
    by (by destruct (decide (type (current_token s1') = EOF)); [|destruct Hend]).
  assert (type tok0 <> EOF) as Hne0.
  { intros E. destruct (parse_fuel_S4 body) as [f Hf]. rewrite Hf in E1.
    cbn [expr term factor power current_token bind] in E1. by rewrite E in E1. }
  split; [done|].
  pose proof (scan_bound _ _ _ Es0) as (Hn0 & _ & _).
  destruct (parser_simulation False (before_closing pre body tl)
              (fun s1 s2 HR => or_introl (before_closing_token pre body tl s1 s2 HR))
              (fun token_type s1 s2 HR _ =>
                 before_closing_eat pre body tl token_type s1 s2 HR)
              (parse_fuel body) fuel2)
    as (_ & _ & _ & _ & _ & Hexpr).
  assert (before_closing pre body tl
            {| lexer := at_pos body n0; current_token := tok0 |}
            {| lexer := at_pos (pre ++ body ++ ")"%char :: tl) (length pre + n0);
               current_token := tok0 |}) as HR0.
  { left. cbn [current_token lexer]. do 2 (split; [done|]). by exists n0. }
  specialize (Hexpr _ _ HR0). rewrite E1 in Hexpr.
  unfold agrees, same_tree in Hexpr.
  destruct (expr fuel2 _) as [[node2 s2']| |]; [|done..].
  destruct Hexpr as [Hnode Hs2]. cbn in Hnode, Hs2. subst node2.
  by destruct Hs2 as [(_ & Hne & _)|(_ & Htok2 & Hl2)].
Qed.

Lemma parse_in_parentheses body ast :
  parse body = Returns ast ->
  parse ("("%char :: body ++ [")"%char]) = Returns ast.
Proof.
  intros Hbody.
  set (t2 := "("%char :: body ++ [")"%char]).
  pose proof (parse_fuel_suffices t2) as Hfuel.
  destruct (scan body) as [[tok0 n0]|e|] eqn:Es0.
  2,3: unfold parse, Parser_init in Hbody;
       rewrite get_next_token_init, Es0 in Hbody; done.
  destruct (expr_before_closing ["("%char] body [] ast
              (4 + parse_fuel body) tok0 n0 Hbody Es0) as [Hne0 Hexpr].
  rewrite (parse_of_scan t2 _ _ (scan_open_paren _)) in *.
  assert (parse_fuel t2 = S (S (S (S (4 + parse_fuel body))))) as Hf2.
  { unfold parse_fuel, t2. cbn [length]. rewrite length_app. cbn [length]. lia. }
  rewrite Hf2 in *.
  cbn [expr term factor power current_token lexer op_token type bind] in *.
  unfold eat at 1 in Hfuel. unfold eat at 1.
  cbn [current_token lexer type] in *.
  rewrite bool_decide_eq_true_2 in * by done.
  rewrite get_next_token_scan in *.
  change (drop 1 t2) with (body ++ [")"%char]) in *.
  rewrite scan_before_close, Es0 in *.
  rewrite bool_decide_eq_false_2 in * by done.
  cbn [offset relocate bind] in *.
  change (["("%char] ++ body ++ [")"%char]) with t2 in Hexpr.
  cbn [length] in Hexpr.
  destruct (expr (4 + parse_fuel body) _) as [[node2 s2']| |];
    cbn [bind] in *; [|done..].
  destruct Hexpr as (-> & Htok2 & Hl2).
  unfold eat. rewrite Htok2. cbn [type]. rewrite bool_decide_eq_true_2 by done.
  rewrite Hl2, get_next_token_scan.
  rewrite drop_ge by (unfold t2; cbn [length]; rewrite length_app; cbn [length]; lia).
  cbn [scan span_len drop scan_here offset relocate bind current_token type].
  destruct (parse_fuel_S4 body) as [f ->].
  cbn [Nat.add term_loop expr_loop current_token type bind].
  by rewrite bool_decide_eq_false_2 by (by intros H'; apply H').
Qed.

(** ** A closing parenthesis too many *)

Lemma parse_unmatched_close body tl ast :
  parse body = Returns ast ->
  parse (body ++ ")"%char :: tl) = Raises (SyntaxError EndExpected).
Proof.
  intros Hbody.
  set (t2 := body ++ ")"%char :: tl).
  pose proof (parse_fuel_suffices t2) as Hfuel.
  destruct (scan body) as [[tok0 n0]|e|] eqn:Es0.
  2,3: unfold parse, Parser_init in Hbody;
       rewrite get_next_token_init, Es0 in Hbody; done.
  destruct (expr_before_closing [] body tl ast (parse_fuel t2) tok0 n0 Hbody Es0)
    as [Hne0 Hexpr].
  assert (scan t2 = Returns (tok0, n0)) as Es2.
  { unfold t2. rewrite scan_before_close, Es0.
    by rewrite bool_decide_eq_false_2. }
  rewrite (parse_of_scan t2 _ _ Es2) in *.
  cbn [app length Nat.add] in Hexpr. fold t2 in Hexpr.
  destruct (expr (parse_fuel t2) _) as [[node2 s2']| |];
    cbn [bind] in *; [|done..].
  destruct Hexpr as (-> & Htok2 & Hl2). rewrite Htok2. cbn [type].
  by rewrite bool_decide_eq_true_2.
Qed.

(** ** The parser follows its grammar *)

Lemma upcoming_eat token_type s ts s' :
  upcoming s ts -> token_type <> EOF -> eat token_type s = Returns s' ->
  type (current_token s) = token_type
  /\ exists ts', ts = current_token s :: ts' /\ upcoming s' ts'.
Proof.
  intros (t & p & Hl & Hts) Hty. unfold eat.
  case_bool_decide as Hcur; [|done].
  destruct (decide (type (current_token s) = EOF)) as [E|E]; [congruence|].
  destruct Hts as (l & Hall & ->).
  apply all_tokens_returns in Hall as (tok & n & Es & Hl').
  rewrite Hl, get_next_token_scan, Es. cbn [offset relocate bind].
  intros [= <-]. split; [done|]. exists l. split; [done|].
  exists t, (p + n)%nat. split; [done|]. cbn [current_token].
  destruct Hl' as [[-> ->]|(Hne & l' & Hall & ->)].
  - by rewrite decide_True.
  - rewrite decide_False by done. exists l'. by rewrite <- drop_drop.
Qed.

Lemma upcoming_type s ts :
  upcoming s ts ->
  match ts with
  | [] => type (current_token s) = EOF
  | _ :: _ => type (current_token s) <> EOF
  end.
Proof.
  intros (t & p & _ & Hts).
  destruct (decide (type (current_token s) = EOF)) as [E|E].
  - by subst.
  - by destruct Hts as (l & _ & ->).
Qed.

Lemma takes_eat G total token_type s ts
  (k : Parser -> outcome (ASTNode * Parser)) :
  upcoming s ts -> token_type <> EOF ->
  (forall s' ts', ts = current_token s :: ts' -> upcoming s' ts' ->
     takes G total (k s')) ->
  takes G total (bind (eat token_type s) k).
Proof.
  intros Hup Hty Hk. destruct (eat token_type s) as [s'| |] eqn:E; [|done..].
  destruct (upcoming_eat _ _ _ _ Hup Hty E) as (_ & ts' & -> & Hup').
  by apply (Hk s' ts').
Qed.

Lemma takes_call G G1 total f s ts
  (k : ASTNode * Parser -> outcome (ASTNode * Parser)) :
  derives G1 f -> upcoming s ts ->
  (forall node s' used ts', ts = used ++ ts' -> G1 used node ->
     upcoming s' ts' -> takes G total (k (node, s'))) ->
  takes G total (bind (f s) k).
Proof.
  intros Hf Hup Hk. specialize (Hf s ts Hup).
  destruct (f s) as [[node s']| |]; [|done..].
  destruct Hf as (used & ts' & -> & Hder & Hup'). by eapply Hk.
Qed.

Ltac same_tokens_list :=
  cbn [app]; rewrite <- ?app_assoc; cbn [app]; reflexivity.

Lemma parser_derives fuel :
  derives Power_of (power fuel) /\ derives Factor_of (factor fuel)
  /\ (forall node0 used0 s ts, Term_of used0 node0 -> upcoming s ts ->
        takes Term_of (used0 ++ ts) (term_loop fuel node0 s))
  /\ derives Term_of (term fuel)
  /\ (forall node0 used0 s ts, Expression_of used0 node0 -> upcoming s ts ->
        takes Expression_of (used0 ++ ts) (expr_loop fuel node0 s))
  /\ derives Expression_of (expr fuel).
Proof.
  induction fuel as [|fuel (IHpower & IHfactor & IHterm_loop & IHterm
                            & IHexpr_loop & IHexpr)].
  { unfold derives.
    refine (conj _ (conj _ (conj _ (conj _ (conj _ _))))); intros; exact I. }
  refine (conj _ (conj _ (conj _ (conj _ (conj _ _))))).
  - (* power *)
    intros s ts Hup. cbn [power].
    destruct (type (current_token s)) eqn:Hty; try done.
    + apply (takes_eat _ _ _ _ _ _ Hup); [done|]. intros s1 ts1 -> Hup1.
      exists [current_token s], ts1. split; [done|]. split; [by constructor|done].
    + apply (takes_eat _ _ _ _ _ _ Hup); [done|]. intros s1 ts1 -> Hup1.
      apply (takes_call _ _ _ _ _ _ _ IHexpr Hup1).
      intros node s2 used ts2 -> Hder Hup2.
      destruct (eat RPAREN s2) as [s3| |] eqn:E; [|done..].
      assert (RPAREN <> EOF) as Hrp by done.
      destruct (upcoming_eat _ _ _ _ Hup2 Hrp E) as (Hr & ts3 & -> & Hup3).
      exists (current_token s :: used ++ [current_token s2]), ts3.
      split; [same_tokens_list|]. split; [by constructor|done].
  - (* factor *)
    intros s ts Hup. cbn [factor].
    apply (takes_call _ _ _ _ _ _ _ IHpower Hup).
    intros node s1 used ts1 -> Hder Hup1.
    destruct (type (current_token s1)) eqn:Hty.
    all: try (exists used, ts1; split; [done|]; split; [by constructor|done]).
    apply (takes_eat _ _ _ _ _ _ Hup1); [done|]. intros s2 ts2 -> Hup2.
    apply (takes_call _ _ _ _ _ _ _ IHfactor Hup2).
    intros node' s3 used' ts3 -> Hder' Hup3.
    exists (used ++ current_token s1 :: used'), ts3.
    split; [same_tokens_list|]. split; [by constructor|done].
  - (* term_loop *)
    intros node0 used0 s ts Hnode0 Hup. cbn [term_loop].
    destruct (type (current_token s)) eqn:Hty.
    all: try (by exists used0, ts).
    + apply (takes_call _ _ _ _ _ _ _ IHfactor Hup).
      intros node s1 used ts1 -> Hder Hup1. rewrite app_assoc.
      apply IHterm_loop; [|done]. by constructor.
    + apply (takes_eat _ _ _ _ _ _ Hup); [done|]. intros s1 ts1 -> Hup1.
      apply (takes_call _ _ _ _ _ _ _ IHfactor Hup1).
      intros node s2 used ts2 -> Hder Hup2.
      replace (used0 ++ current_token s :: used ++ ts2)
        with ((used0 ++ current_token s :: used) ++ ts2)
        by same_tokens_list.
      apply IHterm_loop; [|done]. apply Term_explicit; auto.
    + apply (takes_eat _ _ _ _ _ _ Hup); [done|]. intros s1 ts1 -> Hup1.
      apply (takes_call _ _ _ _ _ _ _ IHfactor Hup1).
      intros node s2 used ts2 -> Hder Hup2.
      replace (used0 ++ current_token s :: used ++ ts2)
        with ((used0 ++ current_token s :: used) ++ ts2)
        by same_tokens_list.
      apply IHterm_loop; [|done]. apply Term_explicit; auto.
    + apply (takes_call _ _ _ _ _ _ _ IHfactor Hup).
      intros node s1 used ts1 -> Hder Hup1. rewrite app_assoc.
      apply IHterm_loop; [|done]. by constructor.
  - (* term *)
    intros s ts Hup. cbn [term].
    apply (takes_call _ _ _ _ _ _ _ IHfactor Hup).
    intros node s1 used ts1 -> Hder Hup1.
    apply IHterm_loop; [|done]. by constructor.
  - (* expr_loop *)
    intros node0 used0 s ts Hnode0 Hup. cbn [expr_loop].
    destruct (type (current_token s)) eqn:Hty.
    all: try (by exists used0, ts).
    + apply (takes_eat _ _ _ _ _ _ Hup); [done|]. intros s1 ts1 -> Hup1.
      apply (takes_call _ _ _ _ _ _ _ IHterm Hup1).
      intros node s2 used ts2 -> Hder Hup2.
      replace (used0 ++ current_token s :: used ++ ts2)
        with ((used0 ++ current_token s :: used) ++ ts2)
        by same_tokens_list.
      apply IHexpr_loop; [|done]. apply Expression_op; auto.
    + apply (takes_eat _ _ _ _ _ _ Hup); [done|]. intros s1 ts1 -> Hup1.
      apply (takes_call _ _ _ _ _ _ _ IHterm Hup1).
      intros node s2 used ts2 -> Hder Hup2.
      replace (used0 ++ current_token s :: used ++ ts2)
        with ((used0 ++ current_token s :: used) ++ ts2)
        by same_tokens_list.
      apply IHexpr_loop; [|done]. apply Expression_op; auto.
  - (* expr *)
    intros s ts Hup. cbn [expr].
    apply (takes_call _ _ _ _ _ _ _ IHterm Hup).
    intros node s1 used ts1 -> Hder Hup1.
    apply IHexpr_loop; [|done]. by constructor.
Qed.

(** The tokens of a text that parses derive the tree, as an Expression. *)
Lemma parse_derives t ast :
  parse t = Returns ast ->
  exists tokens, tokenize t = Returns tokens /\ Expression_of tokens ast.
Proof.
  intros Hparse. pose proof (parse_has_read t) as Hread. rewrite Hparse in Hread.
  destruct Hread as [tokens Htok]. exists tokens. split; [done|].
  rewrite tokenize_all_tokens in Htok.
  destruct (all_tokens_returns _ _ Htok) as (tok & n & Es & Hl).
  rewrite (parse_of_scan _ _ _ Es) in Hparse.
  destruct (expr _ _) as [[node s]| |] eqn:E; cbn [bind] in Hparse; [|done..].
  case_bool_decide as Hend; [done|]. injection Hparse as ->.
  destruct (parser_derives (parse_fuel t)) as (_ & _ & _ & _ & _ & Hexpr).
  specialize (Hexpr {| lexer := at_pos t n; current_token := tok |} tokens).
  rewrite E in Hexpr. destruct Hexpr as (used & ts' & -> & Hder & Hup).
  - exists t, n. split; [done|]. cbn [current_token].
    destruct Hl as [[-> ->]|(Hne & l' & Hall & ->)].
    + by rewrite decide_True.
    + rewrite decide_False by done. by exists l'.
  - apply upcoming_type in Hup. destruct ts' as [|tok' ts'].
    + by rewrite app_nil_r.
    + by destruct Hend.
Qed.

(** ** Implicit multiplication *)

Lemma upcoming_holds s token ts :
  upcoming s (token :: ts) -> current_token s = token /\ type token <> EOF.
Proof.
  intros (t & p & _ & Hts).
  destruct (decide (type (current_token s) = EOF)) as [E|E]; [done|].
  destruct Hts as (l & _ & [= -> ->]). by split.
Qed.

Lemma upcoming_eat_returns s token ts :
  upcoming s (token :: ts) ->
  exists s',
    eat (type token) s = Returns s' /\ upcoming s' ts
    /\ current_token s'
       = match ts with [] => mkToken EOF VNone | next :: _ => next end.
Proof.
  intros (t & p & Hl & Hts).
  destruct (decide (type (current_token s) = EOF)) as [E|E]; [done|].
  destruct Hts as (l & Hall & [= -> ->]).
  unfold eat. rewrite bool_decide_eq_true_2 by done.
  apply all_tokens_returns in Hall as (tok & n & Es & Hl').
  rewrite Hl, get_next_token_scan, Es. cbn [offset relocate bind].
  eexists. split; [done|]. cbn [current_token].
  destruct Hl' as [[-> ->]|(Hne & l' & Hall & ->)].
  - split; [|done]. exists t, (p + n)%nat. split; [done|].
    cbn [current_token]. by rewrite decide_True.
  - split; [|done]. exists t, (p + n)%nat. split; [done|].
    cbn [current_token]. rewrite decide_False by done.
    exists l'. by rewrite <- drop_drop.
Qed.

Lemma upcoming_init t tokens token n :
  all_tokens t = Returns tokens -> scan t = Returns (token, n) ->
  upcoming {| lexer := at_pos t n; current_token := token |} tokens.
Proof.
  intros (tok & n' & Es & H)%all_tokens_returns Es'.
  rewrite Es' in Es. injection Es as <- <-.
  exists t, n. split; [done|]. cbn [current_token].
  destruct H as [[-> ->]|(Hne & l' & Hall & ->)].
  - by rewrite decide_True.
  - rewrite decide_False by done. by exists l'.
Qed.

Lemma times_left_out_token s1 s2 :
  times_left_out s1 s2 ->
  (current_token s1 = current_token s2
   \/ (~ False /\ type (current_token s1) = EOF
       /\ type (current_token s2) = RPAREN))
  \/ (~ False /\ current_token s1 = op_token MUL "*"
      /\ (type (current_token s2) = NUMBER \/ type (current_token s2) = LPAREN)
      /\ agrees False times_left_out (eat MUL s1) (Returns s2)).
Proof.
  intros (ts1 & ts2 & H1 & H2 & [[Htok _]|(before & next & after & Hv & -> & ->)]).
  { left. by left. }
  destruct before as [|c before]; cbn [app] in *.
  - right. split; [tauto|].
    destruct (upcoming_holds _ _ _ H1) as [Hc1 _].
    destruct (upcoming_holds _ _ _ H2) as [Hc2 _].
    split; [done|]. split; [by rewrite Hc2|].
    destruct (upcoming_eat_returns _ _ _ H1) as (s1' & He & Hup & Hcur).
    cbn [op_token type] in He. rewrite He. cbn [agrees].
    exists (next :: after), (next :: after). do 2 (split; [done|]).
    left. split; [congruence|done].
  - left. left.
    destruct (upcoming_holds _ _ _ H1) as [-> _].
    by destruct (upcoming_holds _ _ _ H2) as [-> _].
Qed.

Lemma times_left_out_eat token_type s1 s2 :
  times_left_out s1 s2 -> current_token s1 = current_token s2 ->
  token_type <> EOF ->
  agrees False times_left_out (eat token_type s1) (eat token_type s2).
Proof.
  intros (ts1 & ts2 & H1 & H2 & Hcase) Htok Hty.
  destruct (decide (type (current_token s1) = token_type)) as [E|E].
  2: { unfold eat at 1. rewrite bool_decide_eq_false_2 by done.
       apply agrees_raises. tauto. }
  pose proof (upcoming_type _ _ H1) as Hn1.
  pose proof (upcoming_type _ _ H2) as Hn2.
  destruct ts1 as [|c1 r1]; [congruence|].
  destruct ts2 as [|c2 r2]; [congruence|].
  destruct (upcoming_holds _ _ _ H1) as [Hc1 _].
  destruct (upcoming_holds _ _ _ H2) as [Hc2 _].
  destruct (upcoming_eat_returns _ _ _ H1) as (s1' & He1 & Hup1 & Hcur1).
  destruct (upcoming_eat_returns _ _ _ H2) as (s2' & He2 & Hup2 & Hcur2).
  assert (type c1 = token_type) as Ht1 by congruence.
  assert (type c2 = token_type) as Ht2 by congruence.
  rewrite Ht1 in He1. rewrite Ht2 in He2. rewrite He1, He2. cbn [agrees].
  exists r1, r2. do 2 (split; [done|]).
  destruct Hcase as [[_ [= _ <-]]|(before & next & after & Hv & E1 & E2)].
  { left. split; [congruence|done]. }
  destruct before as [|c before]; cbn [app] in E1, E2.
  - injection E1 as -> _. injection E2 as -> _.
    assert (op_token MUL "*" = next) as <- by congruence.
    by destruct Hv.
  - injection E1 as _ ->. injection E2 as _ ->. right.
    by exists before, next, after.
Qed.

(** A text that parses still parses, and to the same tree, when a [*]
    before a number or an opening parenthesis is left out. *)
Lemma parse_without_times t1 t2 ts1 ts2 ast :
  tokenize t1 = Returns ts1 -> tokenize t2 = Returns ts2 ->
  without_times ts1 ts2 ->
  parse t1 = Returns ast -> parse t2 = Returns ast.
Proof.
  rewrite !tokenize_all_tokens. intros H1 H2 Hw Hparse.
  pose proof (parse_fuel_suffices t2) as Hf2.
  destruct (all_tokens_returns _ _ H1) as (tok1 & n1 & Es1 & _).
  destruct (all_tokens_returns _ _ H2) as (tok2 & n2 & Es2 & _).
  rewrite (parse_of_scan _ _ _ Es1) in Hparse.
  rewrite (parse_of_scan _ _ _ Es2) in *.
  assert (times_left_out {| lexer := at_pos t1 n1; current_token := tok1 |}
                         {| lexer := at_pos t2 n2; current_token := tok2 |}) as HR.
  { exists ts1, ts2. split; [by apply upcoming_init|].
    split; [by apply upcoming_init|]. by right. }
  destruct (parser_simulation False times_left_out
              times_left_out_token times_left_out_eat
              (parse_fuel t1) (parse_fuel t2))
    as (_ & _ & _ & _ & _ & Hexpr).
  specialize (Hexpr _ _ HR). unfold agrees, same_tree in Hexpr.
  destruct (expr (parse_fuel t1) _) as [[node1 s1]|e1|];
    cbn [bind] in Hparse; [|done..].
  case_bool_decide as Hend; [done|]. injection Hparse as ->.
  assert (type (current_token s1) = EOF) as Heof
    by (by destruct (decide (type (current_token s1) = EOF)); [|destruct Hend]).
  destruct (expr (parse_fuel t2) _) as [[node2 s2]|e2|];
    cbn [bind] in *; [|done..].
  destruct Hexpr as [Hnode (r1 & r2 & Hup1 & Hup2 & Hcase)].
  cbn [fst snd] in *. subst node2.
  pose proof (upcoming_type _ _ Hup1) as Hn1.
  pose proof (upcoming_type _ _ Hup2) as Hn2.
  destruct r1 as [|c1 r1]; [|done].
  destruct Hcase as [[_ <-]|(before & next & after & _ & E & _)].
  - by rewrite bool_decide_eq_false_2 by (by intros H).
  - by destruct before.
Qed.

(** C4. "3(4+5)" parses to the same tree as "3*(4+5)", the product of 3 and
    4+5, and evaluates to the int 27; "2 2" parses to the product of 2 and 2.
    In general an explicit [*] before a number or an opening parenthesis is
    never required: of two texts whose tokens differ in one such [*] only,
    which the first has and the second has not, the second parses whenever
    the first does, and to the same tree, with the node of a [*] where the
    [*] was. *)
Theorem C4_implicit_multiplication
  (host_pow : spec_float -> spec_float -> outcome spec_float) :
  parse (str "3(4+5)") = Returns (Times (Int 3) (Plus (Int 4) (Int 5)))
  /\ parse (str "3*(4+5)") = parse (str "3(4+5)")
  /\ (let* ast := parse (str "3(4+5)") in evaluate host_pow ast)
     = Returns (PyInt 27)
  /\ parse (str "2 2") = Returns (Times (Int 2) (Int 2))
  /\ (forall (t1 t2 : list ascii) (ts1 ts2 : list Token) (ast : ASTNode),
        tokenize t1 = Returns ts1 -> tokenize t2 = Returns ts2 ->
        without_times ts1 ts2 ->
        parse t1 = Returns ast -> parse t2 = Returns ast).
Proof.
  split; [by vm_compute|]. split; [by vm_compute|]. split; [by vm_compute|].
  split; [by vm_compute|]. apply parse_without_times.
Qed.

Lemma C4_implicit_multiplication_witness :
  parse (str "(1)(2 + 3)4")
  = Returns (Times (Times (Int 1) (Plus (Int 2) (Int 3))) (Int 4)).
Proof.
  destruct (C4_implicit_multiplication power_by_multiplication)
    as (_ & _ & _ & _ & H).
  apply (H (str "(1)(2 + 3) * 4") (str "(1)(2 + 3)4") _ _ _ eq_refl eq_refl).
  - exists [op_token LPAREN "("; int_token 1; op_token RPAREN ")";
            op_token LPAREN "("; int_token 2; op_token PLUS "+"; int_token 3;
            op_token RPAREN ")"], (int_token 4), [].
    split; [by left|]. split; reflexivity.
  - apply (H (str "(1) * (2 + 3) * 4") (str "(1)(2 + 3) * 4") _ _ _
             eq_refl eq_refl).
    + exists [op_token LPAREN "("; int_token 1; op_token RPAREN ")"],
             (op_token LPAREN "("),
             [int_token 2; op_token PLUS "+"; int_token 3; op_token RPAREN ")";
              op_token MUL "*"; int_token 4].
      split; [by right|]. split; reflexivity.
    + reflexivity.
Defined.

(** ** The literals of the tree are the numbers of the text *)

Lemma numbers_app l1 l2 : numbers (l1 ++ l2) = numbers l1 ++ numbers l2.
Proof. apply filter_app. Qed.

Lemma numbers_number token l :
  type token = NUMBER -> numbers (token :: l) = token :: numbers l.
Proof. intros H. unfold numbers. by rewrite filter_cons_True. Qed.

Lemma numbers_other token l :
  type token <> NUMBER -> numbers (token :: l) = numbers l.
Proof. intros H. unfold numbers. by rewrite filter_cons_False. Qed.

Lemma grammar_leaves :
  (forall ts node, Power_of ts node -> leaves node = numbers ts)
  /\ (forall ts node, Factor_of ts node -> leaves node = numbers ts)
  /\ (forall ts node, Term_of ts node -> leaves node = numbers ts)
  /\ (forall ts node, Expression_of ts node -> leaves node = numbers ts).
Proof.
  apply grammar_ind; cbn [leaves].
  - intros token Hty. by rewrite numbers_number.
  - intros lparen e rparen node Hl Hr _ IH.
    rewrite numbers_other by congruence.
    rewrite numbers_app, (numbers_other rparen) by congruence.
    by rewrite app_nil_r.
  - done.
  - intros p op f l r _ IHl Hop _ IHr.
    rewrite numbers_app, numbers_other by congruence. by rewrite IHl, IHr.
  - done.
  - intros t op f l r _ IHl Hop _ IHr.
    rewrite numbers_app, numbers_other by (destruct Hop; congruence).
    by rewrite IHl, IHr.
  - intros t f l r _ IHl _ IHr. by rewrite numbers_app, IHl, IHr.
  - done.
  - intros e op t l r _ IHl Hop _ IHr.
    rewrite numbers_app, numbers_other by (destruct Hop; congruence).
    by rewrite IHl, IHr.
Qed.

Lemma parse_leaves t ast tokens :
  parse t = Returns ast -> tokenize t = Returns tokens ->
  leaves ast = numbers tokens.
Proof.
  intros (tokens' & Htok & Hder)%parse_derives Htok'.
  assert (tokens' = tokens) as -> by congruence.
  by apply grammar_leaves.
Qed.

(** ** Trees and their dictionaries *)

Lemma holds_lexer_made_eat token_type s :
  holds_lexer_made s -> token_type <> EOF ->
  match eat token_type s with
  | Returns s' => holds_lexer_made s'
  | Raises e => True
  | OutOfFuel => True
  end.
Proof.
  intros [(t & p & Hl) _] _. unfold eat. case_bool_decide; [|done].
  rewrite Hl, get_next_token_scan.
  destruct (scan (drop p t)) as [[tok n]|e|] eqn:Es; [|by destruct e|done].
  cbn [offset relocate bind]. split; [by eexists _, _|].
  cbn [current_token]. by eapply scan_lexer_made.
Qed.

Lemma lexer_made_operator token :
  lexer_made token -> is_operator (type token) ->
  exists c, punctuation c = Some token.
Proof.
  intros [[Hty _]|Hc] Hop; [|done]. rewrite Hty in Hop.
  unfold is_operator in Hop. cbn in Hop. intuition discriminate.
Qed.

Lemma parse_parser_made t ast : parse t = Returns ast -> parser_made ast.
Proof.
  intros Hparse.
  assert (match parse t with
          | Returns node =>
              parser_made node
              /\ exists s, holds_lexer_made s /\ type (current_token s) = EOF
          | Raises e => True
          | OutOfFuel => True
          end) as H.
  { apply (parse_invariant holds_lexer_made parser_made (fun _ => True)).
    - apply holds_lexer_made_eat.
    - done.
    - by intros s _ Hty.
    - intros s l r [_ Hs] Hop Hl Hr. cbn [parser_made].
      split; [done|]. split; [|done].
      apply lexer_made_operator; [|done]. apply Hs. intros E. rewrite E in Hop.
      unfold is_operator in Hop. cbn in Hop. intuition discriminate.
    - intros l r Hl Hr. cbn [parser_made type]. split.
      + unfold is_operator. cbn. tauto.
      + split; [|done]. by exists "*"%char.
    - intros tok n Es. split; [by eexists _, _|]. cbn [current_token].
      by eapply scan_lexer_made.
    - done. }
  rewrite Hparse in H. by destruct H.
Qed.

Lemma punctuation_value c1 c2 token1 token2 :
  punctuation c1 = Some token1 -> punctuation c2 = Some token2 ->
  value token1 = value token2 -> token1 = token2.
Proof.
  unfold punctuation.
  repeat (destruct (Ascii.eqb c1 _); [intros [= <-]|]); [..|done];
    repeat (destruct (Ascii.eqb c2 _); [by intros [= <-]|]); done.
Qed.

Lemma TokenValue_object_inj v1 v2 :
  TokenValue_object v1 = TokenValue_object v2 -> v1 = v2.
Proof. destruct v1, v2; cbn; congruence. Qed.

Lemma to_dict_inj a b :
  parser_made a -> parser_made b -> to_dict a = to_dict b -> a = b.
Proof.
  revert b. induction a as [tok1|l1 IHl op1 r1 IHr]; intros [tok2|l2 op2 r2];
    cbn [parser_made to_dict]; try done.
  - intros H1 H2 [= Hv%TokenValue_object_inj].
    destruct tok1, tok2. cbn in *. by subst.
  - intros (_ & [c1 Hc1] & Hl1 & Hr1) (_ & [c2 Hc2] & Hl2 & Hr2).
    intros [= Hv%TokenValue_object_inj Hl Hr].
    f_equal; [by apply IHl| |by apply IHr].
    by eapply punctuation_value.
Qed.

(** ** Integer arithmetic *)

Lemma integer_char_classes c :
  integer_char c = true ->
  plain_char c = true
  /\ (numchar c = true -> is_ascii_digit c = true)
  /\ (forall token, punctuation c = Some token ->
        type token <> NUMBER /\ type token <> DIV /\ type token <> POW).
Proof.
  destruct c as [[|] [|] [|] [|] [|] [|] [|] [|]]; vm_compute;
    try discriminate; intros _;
    (split; [reflexivity|]); (split; [try discriminate; reflexivity|]);
    intros token [= <-]; repeat split; discriminate.
Qed.

Lemma scan_integer rest token n :
  forallb integer_char rest = true -> scan rest = Returns (token, n) ->
  integer_token token.
Proof.
  intros Hp. unfold scan. set (k := span_len isspace rest).
  pose proof (forallb_drop _ k _ Hp) as Hpk.
  destruct (scan_here (drop k rest)) as [[tok m]|e|] eqn:E; cbn [offset];
    [| by destruct e|done].
  intros [= <- _].
  destruct (drop k rest) as [|c l] eqn:Ed; cbn [scan_here] in E.
  { by injection E as <- _. }
  pose proof Hpk as Hpk'. cbn [forallb] in Hpk'.
  apply andb_true_iff in Hpk' as [Hc _].
  destruct (integer_char_classes c Hc) as (_ & Hdigit & Hpunct).
  destruct (numchar c) eqn:Ec.
  - destruct (number_token_of_digits (take (span_len numchar (c :: l)) (c :: l)))
      as [z Hz].
    + cbn [span_len]. by rewrite Ec.
    + pose proof (forallb_and _ _ _ (span_len_take numchar (c :: l))
                    (forallb_take _ (span_len numchar (c :: l)) _ Hpk)) as H.
      revert H. apply forallb_weaken. intros d [Hd1 Hd2]%andb_true_iff.
      by apply integer_char_classes.
    + rewrite Hz in E. destruct (_ <? _)%nat; [done|].
      cbn [bind] in E. injection E as <- _. by exists z.
  - destruct (punctuation c) as [tok'|] eqn:Ep; [|done]. injection E as <- _.
    destruct (Hpunct tok' eq_refl) as (H1 & H2 & H3).
    unfold integer_token. by destruct (type tok').
Qed.

Lemma reads_integers_eat token_type s :
  reads_integers s -> token_type <> EOF ->
  match eat token_type s with
  | Returns s' => reads_integers s'
  | Raises e => True
  | OutOfFuel => True
  end.
Proof.
  intros [(t & p & Hl & Ht) _] _. unfold eat. case_bool_decide; [|done].
  rewrite Hl, get_next_token_scan.
  destruct (scan (drop p t)) as [[tok n]|e|] eqn:Es; [|by destruct e|done].
  cbn [offset relocate bind]. split; [by eexists _, _|].
  cbn [current_token]. eapply scan_integer; [|done]. by apply forallb_drop.
Qed.

Lemma parse_int_value t ast :
  forallb integer_char t = true -> parse t = Returns ast ->
  exists z, int_value ast = Some z.
Proof.
  intros Ht Hparse.
  assert (match parse t with
          | Returns node =>
              (exists z, int_value node = Some z)
              /\ exists s, reads_integers s /\ type (current_token s) = EOF
          | Raises e => True
          | OutOfFuel => True
          end) as H.
  { apply (parse_invariant reads_integers
             (fun node => exists z, int_value node = Some z) (fun _ => True)).
    - apply reads_integers_eat.
    - done.
    - intros s [_ Hs] Hty. unfold integer_token in Hs. rewrite Hty in Hs.
      destruct Hs as [z Hz]. exists z. cbn [int_value]. by rewrite Hz.
    - intros s l r [_ Hs] Hop [a Ha] [b Hb]. cbn [int_value].
      rewrite Ha, Hb. unfold integer_token in Hs. unfold is_operator in Hop.
      cbn in Hop. destruct (type (current_token s)); try done; try by eexists.
      all: intuition discriminate.
    - intros l r [a Ha] [b Hb]. cbn [int_value type]. rewrite Ha, Hb.
      by eexists.
    - intros tok n Es. split; [by exists t, n|]. cbn [current_token].
      by eapply scan_integer.
    - done. }
  rewrite Hparse in H. by destruct H.
Qed.

Lemma evaluate_int_value host_pow node z :
  int_value node = Some z -> evaluate host_pow node = Returns (PyInt z).
Proof.
  revert z. induction node as [token|l IHl op r IHr]; intros z; cbn [int_value evaluate].
  - destruct (value token) as [[z'|f]| |]; try done. by intros [= ->].
  - destruct (int_value l) as [a|], (int_value r) as [b|];
      destruct (type op) eqn:Hop; try done;
      intros [= <-]; by rewrite (IHl a eq_refl), (IHr b eq_refl).
Qed.

(** ** The float of an int that is not zero *)

Lemma shr_1_digits k mrs m :
  shr_m mrs = Zpos m -> (S k < Pos.to_nat (digits2_pos m))%nat ->
  exists m', shr_m (shr_1 mrs) = Zpos m' /\ (k < Pos.to_nat (digits2_pos m'))%nat.
Proof.
  destruct mrs as [mz r s]. cbn [shr_m]. intros -> Hk.
  destruct m as [m|m|]; cbn [digits2_pos] in Hk.
  - exists m. cbn. split; [done|lia].
  - exists m. cbn. split; [done|lia].
  - cbn in Hk. lia.
Qed.

Lemma iter_shr_1_digits p : forall k mrs m,
  shr_m mrs = Zpos m -> (k + Pos.to_nat p < Pos.to_nat (digits2_pos m))%nat ->
  exists m', shr_m (SpecFloat.iter_pos shr_1 p mrs) = Zpos m'
             /\ (k < Pos.to_nat (digits2_pos m'))%nat.
Proof.
  induction p as [p IH|p IH|]; intros k mrs m Hm Hk; cbn [iter_pos].
  - destruct (shr_1_digits (k + 2 * Pos.to_nat p) mrs m Hm) as (m1 & Hm1 & Hk1);
      [lia|].
    destruct (IH (k + Pos.to_nat p)%nat _ _ Hm1) as (m2 & Hm2 & Hk2); [lia|].
    apply (IH k _ _ Hm2). lia.
  - destruct (IH (k + Pos.to_nat p)%nat _ _ Hm) as (m2 & Hm2 & Hk2); [lia|].
    apply (IH k _ _ Hm2). lia.
  - apply (shr_1_digits k mrs m Hm). lia.
Qed.

Lemma shr_fexp_positive m e l :
  emin prec emax <= e ->
  exists m', shr_m (shr_fexp prec emax (Zpos m) e l).1 = Zpos m'
             /\ emin prec emax <= (shr_fexp prec emax (Zpos m) e l).2.
Proof.
  intros He. unfold shr_fexp, shr, fexp, Zdigits2.
  assert (shr_m (shr_record_of_loc (Zpos m) l) = Zpos m) as Hm
    by (by destruct l as [|[]]).
  destruct (Z.max (Zpos (digits2_pos m) + e - prec) (emin prec emax) - e)
    as [|n|n] eqn:En; cbn [fst snd]; [by eexists| |by eexists].
  destruct (iter_shr_1_digits n O _ m Hm) as (m' & Hm' & _).
  - unfold emin, prec, emax in *. cbn [Nat.add]. lia.
  - exists m'. split; [done|]. lia.
Qed.

Lemma binary_round_aux_positive sx m e l :
  emin prec emax <= e ->
  float_is_zero (binary_round_aux prec emax sx (Zpos m) e l) = false.
Proof.
  intros He. unfold binary_round_aux.
  destruct (shr_fexp_positive m e l He) as (m1 & Hm1 & He1).
  destruct (shr_fexp prec emax (Zpos m) e l) as [mrs1 e1]. cbn [fst snd] in *.
  assert (exists m2, round_nearest_even (shr_m mrs1) (loc_of_shr_record mrs1)
                     = Zpos m2) as [m2 ->].
  { rewrite Hm1. unfold round_nearest_even.
    destruct (loc_of_shr_record mrs1) as [|[]]; try by eexists.
    destruct (Z.even _); by eexists. }
  destruct (shr_fexp_positive m2 e1 loc_Exact He1) as (m3 & Hm3 & _).
  destruct (shr_fexp prec emax (Zpos m2) e1 loc_Exact) as [mrs2 e2].
  cbn [fst snd] in *. rewrite Hm3. by destruct (_ <=? _).
Qed.

Lemma binary_round_positive sx m :
  float_is_zero (binary_round prec emax sx m 0) = false.
Proof.
  unfold binary_round.
  destruct (shl_align m 0 _) as [mz ez] eqn:E.
  apply binary_round_aux_positive.
  unfold shl_align, fexp in E.
  destruct (Z.max _ _ - 0) eqn:En; injection E as <- <-;
    unfold emin, prec, emax in *; lia.
Qed.

(** The float of an int that is not zero is not zero. *)
Lemma int_to_float_nonzero z f :
  z <> 0 -> int_to_float z = Returns f -> float_is_zero f = false.
Proof.
  intros Hz. unfold int_to_float, binary_normalize.
  destruct z as [|p|p]; [done| |].
  - pose proof (binary_round_positive false p) as H.
    destruct (binary_round prec emax false p 0); try done; by intros [= <-].
  - pose proof (binary_round_positive true p) as H.
    destruct (binary_round prec emax true p 0); try done; by intros [= <-].
Qed.

(** ** Failures of the evaluator *)

Lemma as_float_raises x e : as_float x = Raises e -> e = OverflowError.
Proof.
  destruct x as [z|f]; cbn; [|done]. unfold int_to_float.
  destruct (binary_normalize _ _ _ _ _); congruence.
Qed.

Lemma float_op_raises (op : spec_float -> spec_float -> spec_float) x y e :
  (let* a := as_float x in let* b := as_float y in Returns (PyFloat (op a b)))
  = Raises e ->
  e = OverflowError.
Proof.
  destruct (as_float x) as [a|e1|] eqn:Ex; cbn [bind]; [|intros [= <-]|done].
  - destruct (as_float y) as [b|e2|] eqn:Ey; cbn [bind]; [done|intros [= <-]|done].
    by eapply as_float_raises.
  - by eapply as_float_raises.
Qed.

Lemma py_add_raises x y e : py_add x y = Raises e -> e = OverflowError.
Proof. destruct x, y; cbn [py_add]; try done; apply float_op_raises. Qed.

Lemma py_sub_raises x y e : py_sub x y = Raises e -> e = OverflowError.
Proof. destruct x, y; cbn [py_sub]; try done; apply float_op_raises. Qed.

Lemma py_mul_raises x y e : py_mul x y = Raises e -> e = OverflowError.
Proof. destruct x, y; cbn [py_mul]; try done; apply float_op_raises. Qed.

Lemma float_eq_int_zero f : float_eq_int f 0 = false -> float_is_zero f = false.
Proof. by destruct f. Qed.

(** A divisor that the evaluator's test lets through never makes the
    host's division fail for being zero. *)
Lemma py_truediv_raises x y e :
  py_eq y (PyInt 0) = false -> py_truediv x y = Raises e -> e = OverflowError.
Proof.
  intros Hy. destruct x as [a|fx], y as [b|fy]; cbn [py_truediv py_eq] in *.
  - apply Z.eqb_neq in Hy. unfold int_true_divide.
    destruct a, b; cbn [bind]; try done;
      match goal with |- context [round_quotient ?s ?p ?q] =>
        destruct (round_quotient s p q); cbn; congruence end.
  - destruct (as_float (PyInt a)) as [fa|e1|] eqn:Ea; cbn [bind];
      [|intros [= <-]; by eapply as_float_raises|done].
    cbn [as_float bind]. by rewrite (float_eq_int_zero _ Hy).
  - apply Z.eqb_neq in Hy. cbn [as_float bind].
    destruct (int_to_float b) as [fb|e1|] eqn:Eb; cbn [bind];
      [|intros [= <-]; by eapply (as_float_raises (PyInt b))|done].
    by rewrite (int_to_float_nonzero _ _ Hy Eb).
  - cbn [as_float bind]. by rewrite (float_eq_int_zero _ Hy).
Qed.

Lemma math_pow_raises host_pow x y e :
  math_pow host_pow x y = Raises e ->
  e = OverflowError \/ exists a b, host_pow a b = Raises e.
Proof.
  unfold math_pow.
  destruct (as_float x) as [a|e1|] eqn:Ex; cbn [bind];
    [|intros [= <-]; left; by eapply as_float_raises|done].
  destruct (as_float y) as [b|e2|] eqn:Ey; cbn [bind];
    [|intros [= <-]; left; by eapply as_float_raises|done].
  destruct (host_pow a b) as [r|e3|] eqn:Ep; cbn [bind]; [done| |done].
  intros [= <-]. right. by exists a, b.
Qed.

Lemma evaluate_raises host_pow ast e :
  well_formed ast -> evaluate host_pow ast = Raises e ->
  e = DivisionByZero \/ e = OverflowError
  \/ exists a b, host_pow a b = Raises e.
Proof.
  induction ast as [token|l IHl op r IHr]; cbn [well_formed evaluate].
  - by intros [_ [n ->]].
  - intros (Hop & Hwl & Hwr).
    destruct (evaluate host_pow l) as [x|e1|]; cbn [bind];
      [|intros [= <-]; by apply IHl|done].
    destruct (evaluate host_pow r) as [y|e2|]; cbn [bind];
      [|intros [= <-]; by apply IHr|done].
    cbn in Hop. destruct Hop as [<-|[<-|[<-|[<-|[<-|[]]]]]].
    + intros ->%py_add_raises. auto.
    + intros ->%py_sub_raises. auto.
    + intros ->%py_mul_raises. auto.
    + destruct (py_eq y (PyInt 0)) eqn:Hy; [intros [= <-]; auto|].
      intros ->%py_truediv_raises; auto.
    + intros [->|H]%math_pow_raises; auto.
Qed.

(** ** The main program *)

Lemma first_token_unexpected t token self :
  get_next_token (Lexer_init t) = Returns (token, self) ->
  type token <> NUMBER -> type token <> LPAREN ->
  parse t = Raises (SyntaxError (Unexpected (type token))).
Proof.
  intros Hget Hn Hl. unfold parse, Parser_init. rewrite Hget. cbn [bind].
  destruct (parse_fuel_S4 t) as [fuel ->]. unfold Parser_parse.
  cbn [expr term factor power current_token bind].
  by destruct (type token).
Qed.

Lemma Token_to_dict_inj a b : Token_to_dict a = Token_to_dict b -> a = b.
Proof.
  destruct a as [ta va], b as [tb vb]. unfold Token_to_dict. cbn [type value].
  intros [= Ht Hv%TokenValue_object_inj]. subst.
  by destruct ta, tb.
Qed.

(** ** The printed tree *)

Lemma leaves_not_nil node : (1 <= length (leaves node))%nat.
Proof.
  induction node as [token|l IHl op r IHr]; cbn [leaves length]; [lia|].
  rewrite length_app. lia.
Qed.

Lemma print_tree_length host_str node indent :
  length (print_tree host_str node indent)
  = (2 * length (leaves node) - 1)%nat.
Proof.
  revert indent. induction node as [token|l IHl op r IHr]; intros indent;
    cbn [print_tree leaves length]; [done|].
  rewrite !length_app, IHl, IHr.
  pose proof (leaves_not_nil l). pose proof (leaves_not_nil r). lia.
Qed.

Lemma map_injective {A B} (f : A -> B) l1 l2 :
  (forall a b, f a = f b -> a = b) -> map f l1 = map f l2 -> l1 = l2.
Proof.
  intros Hf. revert l2.
  induction l1 as [|a l1 IH]; intros [|b l2]; cbn [map]; try done.
  intros H. injection H as Ha Hl. by rewrite (Hf _ _ Ha), (IH _ Hl).
Qed.

Lemma passes_returns host_pow t tokens ast v :
  passes host_pow t = Returns (tokens, ast, v) -> parse t = Returns ast.
Proof.
  unfold passes. destruct (tokenize t); cbn [bind]; [|done..].
  destruct (parse t) as [ast'| |]; cbn [bind]; [|done..].
  destruct (evaluate host_pow ast'); cbn [bind]; [|done..].
  by intros [= _ -> _].
Qed.

(** ** The call stack of the host *)

Lemma evaluate_within_enough host_pow stack node :
  (height node <= stack)%nat ->
  evaluate_within host_pow stack node = evaluate host_pow node.
Proof.
  revert node. induction stack as [|stack IH]; intros node.
  { destruct node; cbn [height]; lia. }
  destruct node as [token|l op r]; cbn [height evaluate_within evaluate]; [done|].
  intros H. rewrite (IH l), (IH r) by lia. done.
Qed.

(** The evaluation on a stack is a run of the host for the embedding. *)
Lemma evaluate_within_host_run host_pow stack node :
  host_run (evaluate host_pow node) (evaluate_within host_pow stack node).
Proof.
  revert node. induction stack as [|stack IH]; intros node; [constructor|].
  destruct node as [token|l op r]; cbn [evaluate_within evaluate]; [constructor|].
  destruct (IH l) as [|]; [|constructor].
  destruct (evaluate host_pow l) as [x| |]; cbn [bind]; [|constructor..].
  destruct (IH r) as [|]; constructor.
Qed.

Lemma evaluate_within_short host_pow stack node z :
  int_value node = Some z -> (stack < height node)%nat ->
  evaluate_within host_pow stack node = Raises RecursionError.
Proof.
  revert node z. induction stack as [|stack IH]; intros node z; [done|].
  destruct node as [token|l op r]; cbn [height int_value evaluate_within];
    [lia|].
  intros Hz Hh.
  destruct (type op); try done;
    destruct (int_value l) as [a|] eqn:Ha; try done;
    destruct (int_value r) as [b|] eqn:Hb; try done.
  all: destruct (decide (stack < height l)%nat) as [Hl|Hl];
    [by rewrite (IH l a Ha Hl)|];
    rewrite (evaluate_within_enough _ _ l) by lia;
    rewrite (evaluate_int_value _ _ _ Ha); cbn [bind];
    by rewrite (IH r b Hb) by lia.
Qed.

Lemma evaluate_within_int_value host_pow stack node z :
  int_value node = Some z ->
  evaluate_within host_pow stack node
  = if (height node <=? stack)%nat then Returns (PyInt z)
    else Raises RecursionError.
Proof.
  intros Hz. destruct (height node <=? stack)%nat eqn:E.
  - apply Nat.leb_le in E. rewrite evaluate_within_enough by done.
    by apply evaluate_int_value.
  - apply Nat.leb_gt in E. by eapply evaluate_within_short.
Qed.

Lemma evaluate_within_raises host_pow stack ast e :
  well_formed ast -> evaluate_within host_pow stack ast = Raises e ->
  e = DivisionByZero \/ e = OverflowError
  \/ (e = RecursionError /\ (stack < height ast)%nat)
  \/ exists a b, host_pow a b = Raises e.
Proof.
  intros Hwf He. destruct (decide (height ast <= stack)%nat) as [Hh|Hh].
  - rewrite evaluate_within_enough in He by done.
    destruct (evaluate_raises _ _ _ Hwf He) as [?|[?|?]]; tauto.
  - destruct (evaluate_within_host_run host_pow stack ast) as [|].
    + destruct (evaluate_raises _ _ _ Hwf He) as [?|[?|?]]; tauto.
    + injection He as <-. right. right. left. split; [done|lia].
Qed.

Lemma print_tree_within_enough host_str stack node indent :
  (height node <= stack)%nat ->
  print_tree_within host_str stack node indent
  = (print_tree host_str node indent, Returns tt).
Proof.
  revert node indent. induction stack as [|stack IH]; intros node indent.
  { destruct node; cbn [height]; lia. }
  destruct node as [token|l op r]; cbn [height print_tree_within print_tree];
    [done|].
  intros H. by rewrite (IH l), (IH r) by lia.
Qed.

Lemma print_tree_not_nil host_str node indent :
  (1 <= length (print_tree host_str node indent))%nat.
Proof. destruct node; cbn [print_tree length]; lia. Qed.

Lemma print_tree_within_short host_str stack node indent :
  (stack < height node)%nat ->
  exists lines,
    print_tree_within host_str stack node indent = (lines, Raises RecursionError)
    /\ lines `prefix_of` print_tree host_str node indent
    /\ (length lines < length (print_tree host_str node indent))%nat.
Proof.
  revert node indent. induction stack as [|stack IH]; intros node indent Hh.
  { exists []. split; [done|]. split; [apply prefix_nil|].
    pose proof (print_tree_not_nil host_str node indent). cbn [length]. lia. }
  destruct node as [token|l op r]; cbn [height print_tree_within print_tree] in *;
    [lia|].
  destruct (decide (stack < height l)%nat) as [Hl|Hl].
  - destruct (IH l (indent ++ str "  ") Hl) as (lines & -> & Hpre & Hlen).
    eexists. split; [done|]. split.
    + apply prefix_cons. by apply prefix_app_r.
    + cbn [length]. rewrite length_app. lia.
  - rewrite (print_tree_within_enough _ _ l) by lia.
    destruct (IH r (indent ++ str "  ")) as (lines & -> & Hpre & Hlen); [lia|].
    eexists. split; [done|]. split.
    + apply prefix_cons. by apply prefix_app.
    + cbn [length]. rewrite !length_app. lia.
Qed.

(** ** The further properties, one by one *)

(** X1. On every text the lexical analysis and the syntax analysis come to
    an end: [tokenize] returns its tokens or raises, and [parse], whose
    procedures are given [4 * (length text + 1)] nested calls and turns of
    their loops, returns a tree or raises. *)
Theorem tokenize_and_parse_terminate (text : list ascii) :
  ((exists tokens, tokenize text = Returns tokens)
   \/ (exists e, tokenize text = Raises e))
  /\ ((exists ast, parse text = Returns ast)
      \/ (exists e, parse text = Raises e)).
Proof.
  pose proof (tokenize_fuel text). pose proof (parse_fuel_suffices text).
  split.
  - destruct (tokenize text); [left|right|done]; by eexists.
  - destruct (parse text); [left|right|done]; by eexists.
Qed.

(** X2. The lexical error that [tokenize] raises carries the first
    character of the text that is outside the lexer's alphabet, and its
    offset: that character is at the offset, and every character before it
    is white space, a digit, a dot, an operator or a parenthesis. *)
Theorem lexical_error_at_first_invalid_character
  (text : list ascii) (c : ascii) (position : nat) :
  tokenize text = Raises (LexicalError c position) ->
  text !! position = Some c
  /\ valid_char c = false
  /\ forallb valid_char (take position text) = true.
Proof. apply tokenize_lexical_error. Qed.

Lemma lexical_error_at_first_invalid_character_witness :
  str "7 @ 2" !! 2%nat = Some "@"%char
  /\ valid_char "@" = false
  /\ forallb valid_char (take 2 (str "7 @ 2")) = true.
Proof.
  apply (lexical_error_at_first_invalid_character (str "7 @ 2") "@" 2).
  reflexivity.
Defined.

(** X3. [tokenize] raises nothing but a lexical error or the conversion
    error of [int] and [float].  The conversion error carries a run of
    digits and dots of the text that the conversion refuses: the run is not
    empty, no digit or dot follows it, the text before it is of the lexer's
    alphabet, and [int] or [float] raises on it.  A refused run is not
    always ill-formed: a run of the digits 0 to 9 only is refused when it
    has more than 4300 digits, the limit of [int], and only then. *)
Theorem tokenize_raises_lexical_or_value_error (text : list ascii) (e : Exn) :
  tokenize text = Raises e ->
  (exists c position, e = LexicalError c position)
  \/ (exists literal pre post,
        e = ValueError literal
        /\ text = pre ++ literal ++ post
        /\ forallb valid_char pre = true
        /\ literal <> [] /\ forallb numchar literal = true
        /\ match post with c :: _ => numchar c = false | [] => True end
        /\ number_token literal = Raises (ValueError literal)
        /\ (forallb is_ascii_digit literal = true ->
            (int_max_str_digits < length literal)%nat)).
Proof.
  intros H. destruct (tokenize_raises_only _ _ H) as [?|[literal ->]]; [by left|].
  right. apply tokenize_value_error in H as (pre & post & H).
  exists literal, pre, post.
  destruct H as (H1 & H2 & H3 & H4 & H5 & H6).
  repeat (split; [done|]). intros Hd.
  destruct (number_token_of_digits literal H3 Hd) as [z Hz].
  rewrite H6 in Hz. destruct (_ <? _)%nat eqn:E; [|done].
  by apply Nat.ltb_lt.
Qed.

Lemma tokenize_raises_lexical_or_value_error_witness :
  (exists c position, ValueError (str "1.2.3") = LexicalError c position)
  \/ (exists literal pre post,
        ValueError (str "1.2.3") = ValueError literal
        /\ str "7 + 1.2.3 @" = pre ++ literal ++ post
        /\ forallb valid_char pre = true
        /\ literal <> [] /\ forallb numchar literal = true
        /\ match post with c :: _ => numchar c = false | [] => True end
        /\ number_token literal = Raises (ValueError literal)
        /\ (forallb is_ascii_digit literal = true ->
            (int_max_str_digits < length literal)%nat)).
Proof.
  apply (tokenize_raises_lexical_or_value_error (str "7 + 1.2.3 @")).
  reflexivity.
Defined.

(** X4. The tokens that [tokenize] returns are those the lexer makes, and
    none is the end of the input: each is a NUMBER token that holds a
    number, or the token of an operator or parenthesis with its character.
    There are at most as many tokens as the text has characters. *)
Theorem tokenize_returns_lexer_made_tokens
  (text : list ascii) (tokens : list Token) :
  tokenize text = Returns tokens ->
  Forall (fun token => type token <> EOF /\ lexer_made token) tokens
  /\ (length tokens <= length text)%nat.
Proof. rewrite tokenize_all_tokens. apply tokens_of_made. Qed.

Lemma tokenize_returns_lexer_made_tokens_witness :
  Forall (fun token => type token <> EOF /\ lexer_made token)
    [int_token 3; op_token PLUS "+"; float_token (float_of_Z 5)]
  /\ (length [int_token 3; op_token PLUS "+"; float_token (float_of_Z 5)]
      <= length (str "3 + 5.0"))%nat.
Proof.
  apply (tokenize_returns_lexer_made_tokens (str "3 + 5.0")). reflexivity.
Defined.

(** X5. A text of white space, the digits 0 to 9, operators and parentheses
    in which no run of digits is longer than 4300, the limit of [int],
    always tokenizes: the lexer fails on no such text of integer
    arithmetic. *)
Theorem plain_text_tokenizes (text : list ascii) :
  forallb plain_char text = true ->
  (longest_run is_ascii_digit text <= int_max_str_digits)%nat ->
  exists tokens, tokenize text = Returns tokens.
Proof.
  intros H Hrun. rewrite tokenize_all_tokens. apply tokens_of_plain; [lia|done..].
Qed.

Lemma plain_text_tokenizes_witness :
  exists tokens, tokenize (str "3 + 5 * (10 / 2) ^ 2 )") = Returns tokens.
Proof.
  apply (plain_text_tokenizes (str "3 + 5 * (10 / 2) ^ 2 )")).
  - reflexivity.
  - vm_compute. lia.
Defined.

(** X6. White space separates: the tokens of two texts with a character of
    white space between them are the tokens of the first followed by the
    tokens of the second.  If the first text fails, its error is the one
    raised; if the second fails, its error is, with the offset of a lexical
    error counted from the start of the whole text. *)
Theorem white_space_separates (t1 t2 : list ascii) (c : ascii) :
  isspace c = true ->
  tokenize (t1 ++ c :: t2)
  = let* l1 := tokenize t1 in
    let* l2 := shift (S (length t1)) (tokenize t2) in
    Returns (l1 ++ l2).
Proof.
  intros Hc. rewrite !tokenize_all_tokens.
  by apply (all_tokens_separated (S (length t1))); [|lia].
Qed.

Lemma white_space_separates_witness :
  tokenize (str "12" ++ " "%char :: str "3 @")
  = let* l1 := tokenize (str "12") in
    let* l2 := shift (S (length (str "12"))) (tokenize (str "3 @")) in
    Returns (l1 ++ l2).
Proof. apply (white_space_separates (str "12") (str "3 @") " "). reflexivity. Defined.



(** X8. The tree depends on the tokens only: two texts with the same tokens
    have the same outcome of [parse], the same tree or the same error,
    however the white space is laid out and the literals are written. *)
Theorem same_tokens_same_parse (t1 t2 : list ascii) (tokens : list Token) :
  tokenize t1 = Returns tokens -> tokenize t2 = Returns tokens ->
  parse t1 = parse t2.
Proof. apply parse_same_tokens. Qed.

Lemma same_tokens_same_parse_witness :
  parse (str "3(4+05)") = parse (str " 3 ( 4 + 5 ) ").
Proof.
  apply (same_tokens_same_parse (str "3(4+05)") (str " 3 ( 4 + 5 ) ")
           [int_token 3; op_token LPAREN "("; int_token 4; op_token PLUS "+";
            int_token 5; op_token RPAREN ")"]); reflexivity.
Defined.

(** X9. Parentheses around a text that parses leave no trace: the text in
    parentheses parses to the same tree. *)
Theorem parentheses_around_a_text (body : list ascii) (ast : ASTNode) :
  parse body = Returns ast ->
  parse ("("%char :: body ++ [")"%char]) = Returns ast.
Proof. apply parse_in_parentheses. Qed.

Lemma parentheses_around_a_text_witness :
  parse ("("%char :: str "1 + 2" ++ [")"%char]) = Returns (Plus (Int 1) (Int 2)).
Proof. apply (parentheses_around_a_text (str "1 + 2")). reflexivity. Defined.

(** X10. A closing parenthesis too many: a text that parses, followed by a
    closing parenthesis and whatever else, fails with the syntax error
    "End of expression expected"; nothing after the parenthesis is read. *)
Theorem unmatched_closing_parenthesis (body tl : list ascii) (ast : ASTNode) :
  parse body = Returns ast ->
  parse (body ++ ")"%char :: tl) = Raises (SyntaxError EndExpected).
Proof. apply parse_unmatched_close. Qed.

Lemma unmatched_closing_parenthesis_witness :
  parse (str "1 + 2" ++ ")"%char :: str " @ 1.2.3")
  = Raises (SyntaxError EndExpected).
Proof.
  apply (unmatched_closing_parenthesis (str "1 + 2") (str " @ 1.2.3")
           (Plus (Int 1) (Int 2))).
  reflexivity.
Defined.

(** X11. The parser follows the grammar of its docstrings: when [parse]
    returns a tree, the text tokenizes, and its tokens, all of them, derive
    the tree as an Expression. *)
Theorem parse_follows_the_grammar (text : list ascii) (ast : ASTNode) :
  parse text = Returns ast ->
  exists tokens, tokenize text = Returns tokens /\ Expression_of tokens ast.
Proof. apply parse_derives. Qed.

Lemma parse_follows_the_grammar_witness :
  exists tokens,
    tokenize (str "2 ^ 3 ^ 2") = Returns tokens
    /\ Expression_of tokens (Power (Int 2) (Power (Int 3) (Int 2))).
Proof. apply (parse_follows_the_grammar (str "2 ^ 3 ^ 2")). reflexivity. Defined.

(** X12. The literals of the tree, from left to right, are the NUMBER
    tokens of the text, in their order: the parser loses, repeats and
    reorders none. *)
Theorem leaves_are_the_numbers_of_the_text
  (text : list ascii) (ast : ASTNode) (tokens : list Token) :
  parse text = Returns ast -> tokenize text = Returns tokens ->
  leaves ast = numbers tokens.
Proof. apply parse_leaves. Qed.

Lemma leaves_are_the_numbers_of_the_text_witness :
  parse (str "3(4+5)") = Returns (Times (Int 3) (Plus (Int 4) (Int 5)))
  /\ leaves (Times (Int 3) (Plus (Int 4) (Int 5)))
     = numbers [int_token 3; op_token LPAREN "("; int_token 4;
                op_token PLUS "+"; int_token 5; op_token RPAREN ")"].
Proof.
  split; [reflexivity|].
  apply (leaves_are_the_numbers_of_the_text (str "3(4+5)")); reflexivity.
Defined.

(** X13. A text must start with a number or an opening parenthesis: when
    its first token is anything else, an operator, a closing parenthesis or
    the end of the input, [parse] fails with the syntax error "Unexpected
    token" for that token.  There is no sign before a number. *)
Theorem first_token_must_start_a_power
  (text : list ascii) (token : Token) (self : Lexer) :
  get_next_token (Lexer_init text) = Returns (token, self) ->
  type token <> NUMBER -> type token <> LPAREN ->
  parse text = Raises (SyntaxError (Unexpected (type token))).
Proof. apply first_token_unexpected. Qed.

Lemma first_token_must_start_a_power_witness :
  parse (str "-5") = Raises (SyntaxError (Unexpected MINUS)).
Proof.
  apply (first_token_must_start_a_power (str "-5") (op_token MINUS "-")
           (at_pos (str "-5") 1)); [reflexivity|done|done].
Defined.

(** X14. The dictionary that the main program prints in JSON mode loses
    nothing: two runs of the three passes that return and give the same
    dictionary have the same tokens, the same tree and the same value. *)
Theorem json_output_is_injective
  (host_pow : spec_float -> spec_float -> outcome spec_float)
  (t1 t2 : list ascii) (tokens1 tokens2 : list Token) (ast1 ast2 : ASTNode)
  (v1 v2 : pynumber) :
  passes host_pow t1 = Returns (tokens1, ast1, v1) ->
  passes host_pow t2 = Returns (tokens2, ast2, v2) ->
  json_output tokens1 ast1 v1 = json_output tokens2 ast2 v2 ->
  tokens1 = tokens2 /\ ast1 = ast2 /\ v1 = v2.
Proof.
  intros H1%passes_returns H2%passes_returns. unfold json_output.
  intros H. injection H as Htokens Hast Hv. split; [|split; [|done]].
  - eapply map_injective; [apply Token_to_dict_inj|done].
  - apply to_dict_inj; [by eapply parse_parser_made..|done].
Qed.

Lemma json_output_is_injective_witness :
  passes power_by_multiplication (str "3 4")
  = Returns ([int_token 3; int_token 4], Times (Int 3) (Int 4), PyInt 12)
  /\ json_output [int_token 3; int_token 4] (Times (Int 3) (Int 4)) (PyInt 12)
     = json_output [int_token 3; int_token 4] (Times (Int 3) (Int 4)) (PyInt 12)
  /\ [int_token 3; int_token 4] = [int_token 3; int_token 4]
  /\ Times (Int 3) (Int 4) = Times (Int 3) (Int 4)
  /\ PyInt 12 = PyInt 12.
Proof.
  split; [reflexivity|]. split; [reflexivity|].
  apply (json_output_is_injective power_by_multiplication
           (str "3 4") (str "3 4")); reflexivity.
Defined.

(** X15. Integer arithmetic is exact: when a text of white space, the
    digits 0 to 9, [+], [-], [*] and parentheses parses, the evaluation of
    its tree ends in one of two ways, whatever the host's power function.
    On a stack with room for as many nested calls of [evaluate] as the tree
    is high, it returns an int, the value of the expression over the
    integers; on a shorter stack it raises RecursionError, as it does on
    the tree of a sum of 1001 numbers, which is 1001 high. *)
Theorem integer_arithmetic_is_exact
  (host_pow : spec_float -> spec_float -> outcome spec_float)
  (text : list ascii) (ast : ASTNode) (stack : nat) :
  forallb integer_char text = true -> parse text = Returns ast ->
  exists z,
    int_value ast = Some z
    /\ evaluate_within host_pow stack ast
       = if (height ast <=? stack)%nat then Returns (PyInt z)
         else Raises RecursionError.
Proof.
  intros Ht Hparse. destruct (parse_int_value _ _ Ht Hparse) as [z Hz].
  exists z. split; [done|]. by apply evaluate_within_int_value.
Qed.

Lemma integer_arithmetic_is_exact_witness :
  exists z,
    int_value (Minus (Times (Plus (Int 10) (Int 2)) (Int 3)) (Int 4)) = Some z
    /\ evaluate_within power_by_multiplication 3
         (Minus (Times (Plus (Int 10) (Int 2)) (Int 3)) (Int 4))
       = if (height (Minus (Times (Plus (Int 10) (Int 2)) (Int 3)) (Int 4))
             <=? 3)%nat
         then Returns (PyInt z) else Raises RecursionError.
Proof.
  apply (integer_arithmetic_is_exact power_by_multiplication
           (str "(10 + 2) * 3 - 4")); reflexivity.
Defined.

(** X16. The evaluation of a tree that [parse] returns fails in four ways
    only: with the division by zero of the evaluator, with the overflow of
    an int that is beyond the floats, with an error of the host's power
    function, or with the RecursionError of a stack that has no room for as
    many nested calls of [evaluate] as the tree is high.  The evaluator's
    "Unknown node type" and the host's division by zero do not occur. *)
Theorem evaluation_fails_in_four_ways
  (host_pow : spec_float -> spec_float -> outcome spec_float)
  (text : list ascii) (ast : ASTNode) (stack : nat) (e : Exn) :
  parse text = Returns ast -> evaluate_within host_pow stack ast = Raises e ->
  e = DivisionByZero \/ e = OverflowError
  \/ (e = RecursionError /\ (stack < height ast)%nat)
  \/ exists a b, host_pow a b = Raises e.
Proof.
  intros Hparse. apply evaluate_within_raises. by eapply parse_well_formed.
Qed.

Lemma evaluation_fails_in_four_ways_witness :
  RecursionError = DivisionByZero \/ RecursionError = OverflowError
  \/ (RecursionError = RecursionError
      /\ (2 < height (Divide (Int 5)
                        (Minus (Int 2)
                           (NumberNode (float_token (float_of_Z 2))))))%nat)
  \/ exists a b, power_by_multiplication a b = Raises RecursionError.
Proof.
  apply (evaluation_fails_in_four_ways power_by_multiplication
           (str "5 / (2 - 2.0)")
           (Divide (Int 5)
              (Minus (Int 2) (NumberNode (float_token (float_of_Z 2)))))
           2);
    reflexivity.
Defined.

(** X18. For a text that parses, [print_tree] prints one line for every
    number of the text and one for every operation between two of them.  On
    a stack with room for as many nested calls of [print_tree] as the tree
    is high, it prints [2 * n - 1] lines for the [n] NUMBER tokens of the
    text and returns, whatever the indentation and the host's formatting of
    numbers; on a shorter stack it prints the first of these lines, not
    all, and raises RecursionError. *)
Theorem print_tree_prints_every_number
  (host_str : pynumber -> list ascii) (text indent : list ascii)
  (ast : ASTNode) (tokens : list Token) (stack : nat) :
  parse text = Returns ast -> tokenize text = Returns tokens ->
  exists lines,
    length lines = (2 * length (numbers tokens) - 1)%nat
    /\ if (height ast <=? stack)%nat
       then print_tree_within host_str stack ast indent = (lines, Returns tt)
       else exists printed,
              print_tree_within host_str stack ast indent
              = (printed, Raises RecursionError)
              /\ printed `prefix_of` lines
              /\ (length printed < length lines)%nat.
Proof.
  intros Hparse Htok. exists (print_tree host_str ast indent). split.
  - rewrite print_tree_length. by rewrite (parse_leaves _ _ _ Hparse Htok).
  - destruct (height ast <=? stack)%nat eqn:E.
    + apply Nat.leb_le in E. by apply print_tree_within_enough.
    + apply Nat.leb_gt in E. by apply print_tree_within_short.
Qed.

Lemma print_tree_prints_every_number_witness :
  exists lines,
    length lines
    = (2 * length (numbers [int_token 3; op_token LPAREN "("; int_token 4;
                            op_token PLUS "+"; int_token 5;
                            op_token RPAREN ")"]) - 1)%nat
    /\ if (height (Times (Int 3) (Plus (Int 4) (Int 5))) <=? 2)%nat
       then print_tree_within (fun _ => str "?") 2
              (Times (Int 3) (Plus (Int 4) (Int 5))) []
            = (lines, Returns tt)
       else exists printed,
              print_tree_within (fun _ => str "?") 2
                (Times (Int 3) (Plus (Int 4) (Int 5))) []
              = (printed, Raises RecursionError)
              /\ printed `prefix_of` lines
              /\ (length printed < length lines)%nat.
Proof.
  apply (print_tree_prints_every_number (fun _ => str "?") (str "3(4+5)") []
           (Times (Int 3) (Plus (Int 4) (Int 5)))); reflexivity.
Defined.
